(** * Batch File Renamer: the rename pipeline, its validation and its history

    A shallow embedding of [src/store/index.ts]: the transformers
    ([applyFindReplace] ... [applyExtension]), the per-file evaluator
    [processFileName], the store actions ([addFiles], [processFiles],
    [pushToHistory], [undo], [redo], the pipeline mutations) and the
    properties of the specification that concern them.

    Conventions of the embedding.
    - A JavaScript string is a [string]: a character of the model is a
      code unit below 256.  The character classes ([\s], [\w], [a-z]) and
      [toLowerCase] are those of the engine on these code units;
      [toUpperCase] is, but for the two code units whose upper case lies
      above 255 (see [Js.hasUpper]).
    - A JavaScript number that the code only ever uses as an integer
      (counters, indices, paddings, time stamps) is a [Z], and its
      arithmetic is that of [Z]: this is the arithmetic of the engine on
      safe integers (see [Js.isSafeInteger]).  A position in a list is a
      [nat].
    - The engine builds no string longer than its limit: where the code
      builds a string that an operation can make long, the limit is
      checked (see [built]) and the [RangeError] thrown beyond it.
    - An exception is a [Throw] completion carrying the message of the
      thrown [Error].
    - What the code takes from the JavaScript host rather than from this
      repository (the [RegExp] engine on user patterns, the clock, the local
      time zone, the string length limit) is a [Host] record that the
      functions receive explicitly.
    - Spreading an object ([{ ...op, config: { ...op.config } }]) builds a
      structurally equal value, which in a pure model is the value itself. *)

From Stdlib Require Import ZArith Ascii DecimalString Lia.
From stdpp Require Import base option list gmap strings.

(** ** Completions: normal return or thrown exception *)

Inductive completion (A : Type) : Type :=
| Normal (a : A)
| Throw (message : string).
Arguments Normal {A} a.
Arguments Throw {A} message.

Definition bindC {A B} (c : completion A) (k : A → completion B) : completion B :=
  match c with
  | Normal a => k a
  | Throw m => Throw m
  end.

(** [try { c } catch { fallback }] *)
Definition tryCatch {A} (c : completion A) (fallback : A) : A :=
  match c with
  | Normal a => a
  | Throw _ => fallback
  end.

(** ** The string built-ins the store calls *)

Module Js.

Definition code (c : ascii) : nat := nat_of_ascii c.

Definition is_upper (c : ascii) : bool := (65 <=? code c) && (code c <=? 90).
Definition is_lower (c : ascii) : bool := (97 <=? code c) && (code c <=? 122).
Definition is_digit (c : ascii) : bool := (48 <=? code c) && (code c <=? 57).
Definition is_alnum (c : ascii) : bool := is_upper c || is_lower c || is_digit c.

(** [\w] *)
Definition is_word (c : ascii) : bool := is_alnum c || (code c =? 95).

(** [\s], which is also what [trim] strips: tab to carriage return, the
    space and the no-break space *)
Definition is_space (c : ascii) : bool :=
  ((9 <=? code c) && (code c <=? 13)) || (code c =? 32) || (code c =? 160).

(** what [.] refuses *)
Definition is_line_terminator (c : ascii) : bool :=
  (code c =? 10) || (code c =? 13).

(** The letters from 192 up: capitals 192 to 222 but the multiplication
    sign, small letters 224 to 254 but the division sign. *)
Definition is_upper_latin (c : ascii) : bool :=
  (192 <=? code c) && (code c <=? 222) && negb (code c =? 215).
Definition is_lower_latin (c : ascii) : bool :=
  (224 <=? code c) && (code c <=? 254) && negb (code c =? 247).

(** The simple case mapping of a code unit.  It is the identity on the
    sharp s (223), whose upper case is two code units, and on the micro
    sign (181) and the y with diaeresis (255), whose upper case lies above
    255. *)
Definition upper_char (c : ascii) : ascii :=
  if is_lower c || is_lower_latin c then ascii_of_nat (code c - 32) else c.
Definition lower_char (c : ascii) : ascii :=
  if is_upper c || is_upper_latin c then ascii_of_nat (code c + 32) else c.

(** [c.toUpperCase()] for one code unit: the sharp s becomes "SS". *)
Definition upper (c : ascii) : string :=
  if code c =? 223 then "SS" else String (upper_char c) EmptyString.

(** The code units whose upper case is made of code units below 256: all
    but the micro sign and the y with diaeresis.  On those two [upper] is
    not the upper case of the engine. *)
Definition hasUpper (c : ascii) : bool :=
  negb ((code c =? 181) || (code c =? 255)).

(** The code units whose upper case is one code unit below 256. *)
Definition hasUpperUnit (c : ascii) : bool :=
  hasUpper c && negb (code c =? 223).

Fixpoint map (f : ascii → ascii) (s : string) : string :=
  match s with
  | EmptyString => EmptyString
  | String c s' => String (f c) (map f s')
  end.

Fixpoint filter (p : ascii → bool) (s : string) : string :=
  match s with
  | EmptyString => EmptyString
  | String c s' => if p c then String c (filter p s') else filter p s'
  end.

Fixpoint existsb (p : ascii → bool) (s : string) : bool :=
  match s with
  | EmptyString => false
  | String c s' => p c || existsb p s'
  end.

Fixpoint take (n : nat) (s : string) : string :=
  match n, s with
  | S n', String c s' => String c (take n' s')
  | _, _ => EmptyString
  end.

Fixpoint drop (n : nat) (s : string) : string :=
  match n, s with
  | S n', String c s' => drop n' s'
  | _, _ => s
  end.

Fixpoint repeat (s : string) (n : nat) : string :=
  match n with
  | O => EmptyString
  | S n' => s +:+ repeat s n'
  end.

Definition is_empty (s : string) : bool :=
  match s with EmptyString => true | _ => false end.

Definition length (s : string) : Z := Z.of_nat (String.length s).

Fixpoint toUpperCase (s : string) : string :=
  match s with
  | EmptyString => EmptyString
  | String c s' => upper c +:+ toUpperCase s'
  end.
Definition toLowerCase : string → string := map lower_char.

(** [s.startsWith(p)] *)
Fixpoint startsWith (s p : string) : bool :=
  match p, s with
  | EmptyString, _ => true
  | String a p', String b s' => bool_decide (a = b) && startsWith s' p'
  | String _ _, EmptyString => false
  end.

(** [s.includes(p)] *)
Fixpoint includes (s p : string) : bool :=
  startsWith s p ||
  match s with
  | EmptyString => false
  | String _ s' => includes s' p
  end.

(** [s.lastIndexOf(p)], [i] being the index of the head of [s] *)
Fixpoint lastIndexOf_from (i : Z) (s p : string) : Z :=
  match s with
  | EmptyString => if is_empty p then i else (-1)%Z
  | String _ s' =>
      let later := lastIndexOf_from (i + 1) s' p in
      if (0 <=? later)%Z then later
      else if startsWith s p then i else (-1)%Z
  end.
Definition lastIndexOf (s p : string) : Z := lastIndexOf_from 0 s p.

(** A relative index as [slice] reads it: negative counts from the end,
    the result is clamped to the string. *)
Definition relative (len i : Z) : Z :=
  if (i <? 0)%Z then Z.max (len + i) 0 else Z.min i len.

(** [s.slice(start, end)] *)
Definition slice (s : string) (start end_ : Z) : string :=
  let from := relative (length s) start in
  let to := relative (length s) end_ in
  take (Z.to_nat (Z.max (to - from) 0)) (drop (Z.to_nat from) s).

(** [s.slice(start)] *)
Definition sliceFrom (s : string) (start : Z) : string :=
  slice s start (length s).

Definition clamp (len i : Z) : Z := Z.min (Z.max i 0) len.

(** [s.substring(start, end)]: both ends clamped, then ordered *)
Definition substring (s : string) (start end_ : Z) : string :=
  let a := clamp (length s) start in
  let b := clamp (length s) end_ in
  take (Z.to_nat (Z.max a b - Z.min a b)) (drop (Z.to_nat (Z.min a b)) s).

(** [s.substring(start)] *)
Definition substringFrom (s : string) (start : Z) : string :=
  substring s start (length s).

(** [s.charAt(0)] *)
Definition charAt0 (s : string) : string := take 1 s.

(** The integers that a number of the engine holds exactly, and on which
    its sums and products are those of [Z] as long as they stay in the
    range: [Number.isSafeInteger]. *)
Definition isSafeInteger (n : Z) : bool :=
  (- (2 ^ 53) <? n)%Z && (n <? 2 ^ 53)%Z.

(** [n.toString()] for a safe integer: its decimal numeral *)
Definition toString (n : Z) : string :=
  NilZero.string_of_int (Z.to_int n).

(** The filler [padStart] puts in front: [fill] repeated, cut to [n]. *)
Definition filler (fill : string) (n : nat) : string :=
  take n (repeat fill n).

(** [s.padStart(target, fill)] where the result fits a string *)
Definition padStartFitting (s : string) (target : Z) (fill : string) : string :=
  if (target <=? length s)%Z then s
  else if is_empty fill then s
  else filler fill (Z.to_nat (target - length s)) +:+ s.

(** [s.trim()] *)
Fixpoint trimStart (s : string) : string :=
  match s with
  | EmptyString => EmptyString
  | String c s' => if is_space c then trimStart s' else s
  end.
Fixpoint trimEnd (s : string) : string :=
  match s with
  | EmptyString => EmptyString
  | String c s' =>
      let t := trimEnd s' in
      if is_space c && is_empty t then EmptyString else String c t
  end.
Definition trim (s : string) : string := trimEnd (trimStart s).

(** The replacement text of [replace] for a pattern without capture
    groups: [$$], [$&], [$`] and [$'] are expanded, any other [$] stays. *)
Fixpoint getSubstitution (matched before after template : string) : string :=
  match template with
  | EmptyString => EmptyString
  | String c t =>
      if bool_decide (c = "$"%char) then
        match t with
        | EmptyString => String c EmptyString
        | String d rest =>
            if bool_decide (d = "$"%char) then
              String "$" (getSubstitution matched before after rest)
            else if bool_decide (d = "&"%char) then
              matched +:+ getSubstitution matched before after rest
            else if bool_decide (d = "`"%char) then
              before +:+ getSubstitution matched before after rest
            else if bool_decide (d = "'"%char) then
              after +:+ getSubstitution matched before after rest
            else String c (getSubstitution matched before after t)
        end
      else String c (getSubstitution matched before after t)
  end.

(** [s.replace(pattern, template)] with a string pattern: the first
    occurrence only; [before] is what precedes [s] in the whole string. *)
Fixpoint replace_from (before s pattern template : string) : option string :=
  if startsWith s pattern then
    let after := drop (String.length pattern) s in
    Some (getSubstitution pattern before after template +:+ after)
  else
    match s with
    | EmptyString => None
    | String c s' =>
        String c <$> replace_from (before +:+ String c EmptyString) s' pattern template
    end.
Definition replace (s pattern template : string) : string :=
  default s (replace_from EmptyString s pattern template).

(** [s.split(sep).join(glue)] for a non-empty [sep]: every occurrence
    of [sep], left to right without overlap, becomes [glue] verbatim.
    [skip] counts the characters of an occurrence still to pass over. *)
Fixpoint splitJoin_go (skip : nat) (s sep glue : string) : string :=
  match s with
  | EmptyString => EmptyString
  | String c s' =>
      match skip with
      | S k => splitJoin_go k s' sep glue
      | O =>
          if startsWith s sep
          then glue +:+ splitJoin_go (String.length sep - 1) s' sep glue
          else String c (splitJoin_go 0 s' sep glue)
      end
  end.
Definition splitJoin (s sep glue : string) : string :=
  if is_empty sep then s else splitJoin_go 0 s sep glue.

(** [s.split('')] then [filter] then [join('')] *)
Definition removeAll (s chars : string) : string :=
  filter (λ c, negb (existsb (λ d, bool_decide (d = c)) chars)) s.

(** [s.replace(/\s+/g, sep)]: every maximal run of white space
    becomes one [sep] ([sep] holds no [$]). *)
Fixpoint replaceSpaceRuns_go (inRun : bool) (s sep : string) : string :=
  match s with
  | EmptyString => EmptyString
  | String c s' =>
      if is_space c then
        if inRun then replaceSpaceRuns_go true s' sep
        else sep +:+ replaceSpaceRuns_go true s' sep
      else String c (replaceSpaceRuns_go false s' sep)
  end.
Definition replaceSpaceRuns (s sep : string) : string :=
  replaceSpaceRuns_go false s sep.

(** [s.replace(/\s/g, template)] *)
Fixpoint replaceEachSpace_go (before s template : string) : string :=
  match s with
  | EmptyString => EmptyString
  | String c s' =>
      let one := String c EmptyString in
      (if is_space c then getSubstitution one before s' template else one)
      +:+ replaceEachSpace_go (before +:+ one) s' template
  end.
Definition replaceEachSpace (s template : string) : string :=
  replaceEachSpace_go EmptyString s template.

(** [s.replace(/([a-z])([A-Z])/g, '$1' + sep + '$2')] *)
Fixpoint splitCaseBoundary_go (skip : bool) (s sep : string) : string :=
  match s with
  | EmptyString => EmptyString
  | String c s' =>
      if skip then String c (splitCaseBoundary_go false s' sep)
      else
        match s' with
        | String d _ =>
            if is_lower c && is_upper d
            then String c (sep +:+ splitCaseBoundary_go true s' sep)
            else String c (splitCaseBoundary_go false s' sep)
        | EmptyString => String c EmptyString
        end
  end.
Definition splitCaseBoundary (s sep : string) : string :=
  splitCaseBoundary_go false s sep.

(** [s.replace(/\w\S*/g, txt => txt.charAt(0).toUpperCase() +
    txt.substring(1).toLowerCase())] *)
Fixpoint capitalizeWords_go (inWord : bool) (s : string) : string :=
  match s with
  | EmptyString => EmptyString
  | String c s' =>
      if inWord then
        if is_space c then String c (capitalizeWords_go false s')
        else String (lower_char c) (capitalizeWords_go true s')
      else if is_word c then String (upper_char c) (capitalizeWords_go true s')
      else String c (capitalizeWords_go false s')
  end.
Definition capitalizeWords (s : string) : string := capitalizeWords_go false s.

(** The tail of a run of non-alphanumerics that reaches the end of the
    string, under [/[^a-zA-Z0-9]+(.)/g]: the greedy [+] backs off to the
    last character that [.] accepts, which then stands for the match.
    [run] is the run without its first character; [None] when no
    character of it can be the group. *)
Fixpoint closeRun (run : string) : option string :=
  match run with
  | EmptyString => None
  | String c rest =>
      match closeRun rest with
      | Some out => Some out
      | None =>
          if is_line_terminator c then None
          else Some (upper c +:+ rest)
      end
  end.

(** [s.replace(/[^a-zA-Z0-9]+(.)/g, (_, ch) => ch.toUpperCase())].
    [run] accumulates the current run of non-alphanumerics. *)
Fixpoint upperAfterSeparators_go (run : string) (s : string) : string :=
  match s with
  | EmptyString =>
      match run with
      | EmptyString => EmptyString
      | String c rest => default run (closeRun rest)
      end
  | String c s' =>
      if is_alnum c then
        (if is_empty run then String c EmptyString
         else String (upper_char c) EmptyString)
        +:+ upperAfterSeparators_go EmptyString s'
      else upperAfterSeparators_go (run +:+ String c EmptyString) s'
  end.
Definition upperAfterSeparators (s : string) : string :=
  upperAfterSeparators_go EmptyString s.

End Js.

(** ** The host: what the store takes from the JavaScript runtime *)

(** The local-time fields a [Date] answers with. *)
Record DateFields := {
  getFullYear : Z;
  getMonth : Z;
  getDate : Z;
  getHours : Z;
  getMinutes : Z;
  getSeconds : Z
}.

Record Host := {
  (** [subject.replace(new RegExp(pattern, flags), template)]; a pattern
      or flags that [RegExp] rejects throw its [SyntaxError], a result
      beyond the string limit throws the [RangeError] *)
  regExpReplace : string → string → string → string → completion string;
  (** the longest string the engine builds, and the message of the
      [RangeError] it throws beyond *)
  maxStringLength : Z;
  invalidStringLength : string;
  (** the time value [new Date()] reads; a host stands for the engine at
      one reading of its clock, [withClock] for the same engine at another *)
  now : Z;
  (** the getters of [new Date(t)], in the local time zone *)
  localFields : Z → DateFields
}.

(** ** Data model ([types/index.ts]) *)

Record File := {
  name : string;
  lastModified : Z
}.

Record FileItem := {
  fileId : string;
  originalFile : File;
  originalName : string;
  newName : string;
  extension : string;
  isValid : bool;
  errorMessage : option string
}.

Inductive CaseType :=
| uppercase | lowercase | titlecase | sentencecase
| camelCase | snake_case | kebab_case.

Inductive OperationType :=
| TyFindReplace | TyPrefix | TySuffix | TyRemoveChars | TyCaseChange
| TyNumbering | TyDateTime | TyRegex | TyTrim | TyExtension.

(** The string a kind has in the source, as the error message quotes it. *)
Definition typeName (t : OperationType) : string :=
  match t with
  | TyFindReplace => "find-replace"
  | TyPrefix => "prefix"
  | TySuffix => "suffix"
  | TyRemoveChars => "remove-chars"
  | TyCaseChange => "case-change"
  | TyNumbering => "numbering"
  | TyDateTime => "date-time"
  | TyRegex => "regex"
  | TyTrim => "trim"
  | TyExtension => "extension"
  end.

Module FindReplaceConfig.
Record t := {
  find : string;
  replace : string;
  caseSensitive : bool;
  useRegex : bool;
  replaceAll : bool
}.
End FindReplaceConfig.

Inductive AffixPosition := AffixPrefix | AffixSuffix.

Module PrefixSuffixConfig.
Record t := {
  text : string;
  position : AffixPosition;
  addCounter : bool;
  counterStart : Z;
  counterPadding : Z;
  counterStep : Z
}.
End PrefixSuffixConfig.

Inductive RemoveMode := FirstN | LastN | Range | Specific | Pattern.

Module RemoveCharsConfig.
Record t := {
  mode : RemoveMode;
  count : Z;
  startIndex : Z;
  endIndex : Z;
  characters : string;
  pattern : string
}.
End RemoveCharsConfig.

Module CaseChangeConfig.
Record t := { caseType : CaseType }.
End CaseChangeConfig.

Inductive InsertPosition := InsertPrefix | InsertSuffix | InsertReplace.

Module NumberingConfig.
Record t := {
  position : InsertPosition;
  startNumber : Z;
  step : Z;
  padding : Z;
  separator : string;
  format : string
}.
End NumberingConfig.

Inductive DateSource := Current | Modified | Created.

Module DateTimeConfig.
Record t := {
  source : DateSource;
  format : string;
  position : InsertPosition;
  separator : string
}.
End DateTimeConfig.

Module RegexConfig.
Record t := {
  pattern : string;
  replacement : string;
  flags : string
}.
End RegexConfig.

Module TrimConfig.
Record t := {
  trimSpaces : bool;
  removeDuplicateSpaces : bool;
  removeSpecialChars : bool;
  specialCharsToRemove : string;
  replaceSpacesWith : string
}.
End TrimConfig.

Inductive ExtensionAction := Change | Add | Remove | Lowercase | Uppercase.

Module ExtensionConfig.
Record t := {
  action : ExtensionAction;
  newExtension : string
}.
End ExtensionConfig.

(** [type] and [config] of an operation travel together: the kind is the
    constructor and the payload is the configuration of that kind. *)
Inductive OperationConfig :=
| OfFindReplace (c : FindReplaceConfig.t)
| OfPrefix (c : PrefixSuffixConfig.t)
| OfSuffix (c : PrefixSuffixConfig.t)
| OfRemoveChars (c : RemoveCharsConfig.t)
| OfCaseChange (c : CaseChangeConfig.t)
| OfNumbering (c : NumberingConfig.t)
| OfDateTime (c : DateTimeConfig.t)
| OfRegex (c : RegexConfig.t)
| OfTrim (c : TrimConfig.t)
| OfExtension (c : ExtensionConfig.t).

Record Operation := {
  id : string;
  enabled : bool;
  config : OperationConfig
}.

Definition type (op : Operation) : OperationType :=
  match config op with
  | OfFindReplace _ => TyFindReplace
  | OfPrefix _ => TyPrefix
  | OfSuffix _ => TySuffix
  | OfRemoveChars _ => TyRemoveChars
  | OfCaseChange _ => TyCaseChange
  | OfNumbering _ => TyNumbering
  | OfDateTime _ => TyDateTime
  | OfRegex _ => TyRegex
  | OfTrim _ => TyTrim
  | OfExtension _ => TyExtension
  end.

Record AppState := {
  files : list FileItem;
  operations : list Operation;
  history : list (list Operation);
  historyIndex : nat;
  maxHistoryLength : nat
}.

Definition doubleQuote : ascii := ascii_of_nat 34.

(** [getDefaultConfig] *)
Definition getDefaultConfig (t : OperationType) : OperationConfig :=
  match t with
  | TyFindReplace =>
      OfFindReplace {| FindReplaceConfig.find := EmptyString; FindReplaceConfig.replace := EmptyString;
        FindReplaceConfig.caseSensitive := false; FindReplaceConfig.useRegex := false;
        FindReplaceConfig.replaceAll := true |}
  | TyPrefix =>
      OfPrefix {| PrefixSuffixConfig.text := EmptyString; PrefixSuffixConfig.position := AffixPrefix;
        PrefixSuffixConfig.addCounter := false; PrefixSuffixConfig.counterStart := 1;
        PrefixSuffixConfig.counterPadding := 2; PrefixSuffixConfig.counterStep := 1 |}
  | TySuffix =>
      OfSuffix {| PrefixSuffixConfig.text := EmptyString; PrefixSuffixConfig.position := AffixSuffix;
        PrefixSuffixConfig.addCounter := false; PrefixSuffixConfig.counterStart := 1;
        PrefixSuffixConfig.counterPadding := 2; PrefixSuffixConfig.counterStep := 1 |}
  | TyRemoveChars =>
      OfRemoveChars {| RemoveCharsConfig.mode := FirstN; RemoveCharsConfig.count := 0;
        RemoveCharsConfig.startIndex := 0; RemoveCharsConfig.endIndex := 0;
        RemoveCharsConfig.characters := EmptyString; RemoveCharsConfig.pattern := EmptyString |}
  | TyCaseChange => OfCaseChange {| CaseChangeConfig.caseType := lowercase |}
  | TyNumbering =>
      OfNumbering {| NumberingConfig.position := InsertPrefix;
        NumberingConfig.startNumber := 1; NumberingConfig.step := 1;
        NumberingConfig.padding := 3; NumberingConfig.separator := "_";
        NumberingConfig.format := "[N]" |}
  | TyDateTime =>
      OfDateTime {| DateTimeConfig.source := Current; DateTimeConfig.format := "YYYY-MM-DD";
        DateTimeConfig.position := InsertPrefix; DateTimeConfig.separator := "_" |}
  | TyRegex =>
      OfRegex {| RegexConfig.pattern := EmptyString; RegexConfig.replacement := EmptyString;
        RegexConfig.flags := "gi" |}
  | TyTrim =>
      OfTrim {| TrimConfig.trimSpaces := true; TrimConfig.removeDuplicateSpaces := true;
        TrimConfig.removeSpecialChars := false;
        TrimConfig.specialCharsToRemove := "!@#$%^&*()+=[]{}|;:'" +:+ String doubleQuote ",<>?";
        TrimConfig.replaceSpacesWith := EmptyString |}
  | TyExtension =>
      OfExtension {| ExtensionConfig.action := Lowercase; ExtensionConfig.newExtension := EmptyString |}
  end.

(** ** Transformers *)

(** [escapeRegex]: [str.replace(/[.*+?^${}()|[\]\\]/g, '\\$&')] *)
Definition isRegexSpecial (c : ascii) : bool :=
  Js.existsb (λ d, bool_decide (d = c)) ".*+?^${}()|[]\".

Fixpoint escapeRegex (str : string) : string :=
  match str with
  | EmptyString => EmptyString
  | String c s' =>
      if isRegexSpecial c then String "\" (String c (escapeRegex s'))
      else String c (escapeRegex s')
  end.

(** [formatDate]: each token is replaced once, in the order of the table. *)
Definition dateTokens (d : DateFields) : list (string * string) :=
  [ ("YYYY", Js.toString (getFullYear d));
    ("YY", Js.sliceFrom (Js.toString (getFullYear d)) (-2));
    ("MM", Js.padStartFitting (Js.toString (getMonth d + 1)) 2 "0");
    ("DD", Js.padStartFitting (Js.toString (getDate d)) 2 "0");
    ("HH", Js.padStartFitting (Js.toString (getHours d)) 2 "0");
    ("mm", Js.padStartFitting (Js.toString (getMinutes d)) 2 "0");
    ("ss", Js.padStartFitting (Js.toString (getSeconds d)) 2 "0") ].

Definition formatDate (d : DateFields) (format : string) : string :=
  foldl (λ result tv, Js.replace result tv.1 tv.2) format (dateTokens d).

(** [applyCaseChange] *)
Definition applyCaseChange (name : string) (cfg : CaseChangeConfig.t) : string :=
  match CaseChangeConfig.caseType cfg with
  | uppercase => Js.toUpperCase name
  | lowercase => Js.toLowerCase name
  | titlecase => Js.capitalizeWords name
  | sentencecase =>
      Js.toUpperCase (Js.charAt0 name) +:+ Js.toLowerCase (Js.sliceFrom name 1)
  | camelCase => Js.upperAfterSeparators (Js.toLowerCase name)
  | snake_case =>
      Js.toLowerCase
        (Js.map (λ c, if Js.is_word c then c else "_"%char)
           (Js.splitCaseBoundary (Js.replaceSpaceRuns name "_") "_"))
  | kebab_case =>
      Js.toLowerCase
        (Js.map (λ c, if Js.is_alnum c || bool_decide (c = "-"%char) then c else "-"%char)
           (Js.splitCaseBoundary (Js.replaceSpaceRuns name "-") "-"))
  end.

(** [applyTrim] *)
Definition applyTrim (name : string) (cfg : TrimConfig.t) : string :=
  let r1 := if TrimConfig.trimSpaces cfg then Js.trim name else name in
  let r2 := if TrimConfig.removeDuplicateSpaces cfg then Js.replaceSpaceRuns r1 " " else r1 in
  let r3 :=
    if TrimConfig.removeSpecialChars cfg && negb (Js.is_empty (TrimConfig.specialCharsToRemove cfg))
    then Js.removeAll r2 (TrimConfig.specialCharsToRemove cfg) else r2 in
  if negb (Js.is_empty (TrimConfig.replaceSpacesWith cfg))
  then Js.replaceEachSpace r3 (TrimConfig.replaceSpacesWith cfg) else r3.

(** [applyExtension] *)
Definition dotted (newExtension : string) : string :=
  if Js.startsWith newExtension "." then newExtension else "." +:+ newExtension.

Definition applyExtension (extension : string) (cfg : ExtensionConfig.t) : string :=
  match ExtensionConfig.action cfg with
  | Change => dotted (ExtensionConfig.newExtension cfg)
  | Add => extension +:+ dotted (ExtensionConfig.newExtension cfg)
  | Remove => EmptyString
  | Lowercase => Js.toLowerCase extension
  | Uppercase => Js.toUpperCase extension
  end.

Section Transformers.

Variable host : Host.

(** A string the engine can hold. *)
Definition fits (s : string) : bool := (Js.length s <=? maxStringLength host)%Z.

(** The string [output] that the code builds while it holds [input]:
    beyond the limit of the engine the construction throws a [RangeError].
    The strings the engine holds are within its limit, so that a string no
    longer than [input] is never refused. *)
Definition built (input output : string) : completion string :=
  if fits output || (String.length output <=? String.length input)
  then Normal output else Throw (invalidStringLength host).

(** [s.padStart(target, fill)]: building a string beyond the engine's
    limit throws a [RangeError]. *)
Definition padStart (s : string) (target : Z) (fill : string) : completion string :=
  if (Js.length s <? target)%Z && negb (Js.is_empty fill)
     && (maxStringLength host <? target)%Z
  then Throw (invalidStringLength host)
  else Normal (Js.padStartFitting s target fill).

(** [applyFindReplace] *)
Definition applyFindReplace (name : string) (cfg : FindReplaceConfig.t)
  : completion string :=
  let find := FindReplaceConfig.find cfg in
  let replace := FindReplaceConfig.replace cfg in
  if Js.is_empty find then Normal name
  else if FindReplaceConfig.useRegex cfg then
    let flags := if FindReplaceConfig.caseSensitive cfg then "g" else "gi" in
    let flags' := if FindReplaceConfig.replaceAll cfg then flags else Js.replace flags "g" EmptyString in
    Normal (tryCatch (regExpReplace host find flags' name replace) name)
  else if FindReplaceConfig.caseSensitive cfg then
    if FindReplaceConfig.replaceAll cfg
    then Normal (Js.splitJoin name find replace)
    else Normal (Js.replace name find replace)
  else if FindReplaceConfig.replaceAll cfg then
    regExpReplace host (escapeRegex find) "gi" name replace
  else regExpReplace host (escapeRegex find) "i" name replace.

(** [applyPrefixSuffix].  The strings built on the way (the padded
    counter, the text with the counter in it) are parts of the result, so
    that the check of the result stands for theirs. *)
Definition applyPrefixSuffix (name : string) (cfg : PrefixSuffixConfig.t) (index : nat)
  : completion string :=
  bindC
    (if PrefixSuffixConfig.addCounter cfg then
       let num := (PrefixSuffixConfig.counterStart cfg
                   + Z.of_nat index * PrefixSuffixConfig.counterStep cfg)%Z in
       bindC (padStart (Js.toString num) (PrefixSuffixConfig.counterPadding cfg) "0")
         (λ paddedNum,
            let replaced := Js.replace (PrefixSuffixConfig.text cfg) "[N]" paddedNum in
            let text := if Js.is_empty replaced then paddedNum else replaced in
            Normal (if negb (Js.includes text paddedNum) then text +:+ paddedNum else text))
     else Normal (PrefixSuffixConfig.text cfg))
    (λ text,
       built name
         match PrefixSuffixConfig.position cfg with
         | AffixPrefix => text +:+ name
         | AffixSuffix => name +:+ text
         end).

(** [applyRemoveChars] *)
Definition applyRemoveChars (name : string) (cfg : RemoveCharsConfig.t) : string :=
  match RemoveCharsConfig.mode cfg with
  | FirstN => Js.sliceFrom name (RemoveCharsConfig.count cfg)
  | LastN =>
      (* [-config.count || name.length]: minus zero is falsy *)
      Js.slice name 0
        (if (RemoveCharsConfig.count cfg =? 0)%Z then Js.length name
         else (- RemoveCharsConfig.count cfg)%Z)
  | Range =>
      Js.slice name 0 (RemoveCharsConfig.startIndex cfg)
      +:+ Js.sliceFrom name (RemoveCharsConfig.endIndex cfg)
  | Specific => Js.removeAll name (RemoveCharsConfig.characters cfg)
  | Pattern =>
      tryCatch (regExpReplace host (RemoveCharsConfig.pattern cfg) "g" name EmptyString) name
  end.

(** The three placements shared by [applyNumbering] and [applyDateTime]. *)
Definition place (position : InsertPosition) (formatted separator name : string) : string :=
  match position with
  | InsertPrefix => formatted +:+ separator +:+ name
  | InsertSuffix => name +:+ separator +:+ formatted
  | InsertReplace => formatted
  end.

(** [applyNumbering].  The formatted counter is a part of the result or
    the result itself: the check of the result stands for its own. *)
Definition applyNumbering (name : string) (cfg : NumberingConfig.t) (index : nat)
  : completion string :=
  let num := (NumberingConfig.startNumber cfg + Z.of_nat index * NumberingConfig.step cfg)%Z in
  bindC (padStart (Js.toString num) (NumberingConfig.padding cfg) "0")
    (λ paddedNum,
       let formatted := Js.replace (NumberingConfig.format cfg) "[N]" paddedNum in
       built name (place (NumberingConfig.position cfg) formatted
                     (NumberingConfig.separator cfg) name)).

(** [applyDateTime]: [new Date()] is read on every call; a created date
    falls back to the modification date. *)
Definition applyDateTime (name : string) (cfg : DateTimeConfig.t) (file : File) : string :=
  let date :=
    match DateTimeConfig.source cfg with
    | Modified => localFields host (lastModified file)
    | Created => localFields host (lastModified file)
    | Current => localFields host (now host)
    end in
  let formatted := formatDate date (DateTimeConfig.format cfg) in
  place (DateTimeConfig.position cfg) formatted (DateTimeConfig.separator cfg) name.

(** [applyRegex] *)
Definition applyRegex (name : string) (cfg : RegexConfig.t) : string :=
  if Js.is_empty (RegexConfig.pattern cfg) then name
  else tryCatch (regExpReplace host (RegexConfig.pattern cfg) (RegexConfig.flags cfg)
                   name (RegexConfig.replacement cfg)) name.

(** ** The evaluator *)

(** What [processFileName] returns. *)
Record Outcome := {
  outName : string;
  outValid : bool;
  outError : option string
}.

(** The body of the [switch] of [processFileName]: one operation on the
    working name and extension.  A transformer that would have to build a
    name or an extension beyond the string limit throws instead, inside
    the [try] as the others. *)
Definition applyOperation (op : Operation) (file : FileItem) (index : nat)
    (name extension : string) : completion (string * string) :=
  let renamed (result : completion string) :=
    bindC (bindC result (built name)) (λ n, Normal (n, extension)) in
  match config op with
  | OfFindReplace c => renamed (applyFindReplace name c)
  | OfPrefix c | OfSuffix c => renamed (applyPrefixSuffix name c index)
  | OfRemoveChars c => renamed (Normal (applyRemoveChars name c))
  | OfCaseChange c => renamed (Normal (applyCaseChange name c))
  | OfNumbering c => renamed (applyNumbering name c index)
  | OfDateTime c => renamed (Normal (applyDateTime name c (originalFile file)))
  | OfRegex c => renamed (Normal (applyRegex name c))
  | OfTrim c => renamed (Normal (applyTrim name c))
  | OfExtension c =>
      bindC (built extension (applyExtension extension c)) (λ e, Normal (name, e))
  end.

(** The character class of [invalidChars]: the nine punctuation marks
    and the control characters 0 to 31. *)
Definition isInvalidChar (c : ascii) : bool :=
  Js.existsb (λ d, bool_decide (d = c)) (String doubleQuote "<>:/\|?*")
  || (Js.code c <=? 31).

Definition hasInvalidChars (s : string) : bool := Js.existsb isInvalidChar s.

(** The checks of [processFileName] after the loop. *)
Definition validate (name extension : string) : Outcome :=
  let newName := name +:+ extension in
  if hasInvalidChars newName then
    {| outName := newName; outValid := false;
       outError := Some "Filename contains invalid characters" |}
  else if Js.is_empty (Js.trim name) then
    {| outName := newName; outValid := false;
       outError := Some "Filename cannot be empty" |}
  else {| outName := newName; outValid := true; outError := None |}.

(** The [for] loop of [processFileName] with its [try]/[catch]: the first
    enabled operation that throws ends the evaluation of this file. *)
Fixpoint runOperations (file : FileItem) (index : nat) (ops : list Operation)
    (name extension : string) : Outcome :=
  match ops with
  | [] => validate name extension
  | op :: rest =>
      if negb (enabled op) then runOperations file index rest name extension
      else
        match applyOperation op file index name extension with
        | Normal (name', extension') => runOperations file index rest name' extension'
        | Throw message =>
            {| outName := originalName file; outValid := false;
               outError := Some ("Error in " +:+ typeName (type op) +:+ ": " +:+ message) |}
        end
  end.

(** The working name [processFileName] starts from. *)
Definition baseName (originalName : string) : string :=
  let lastDotIndex := Js.lastIndexOf originalName "." in
  if (0 <? lastDotIndex)%Z then Js.substring originalName 0 lastDotIndex
  else originalName.

(** [processFileName]: the object it returns.  It returns unless the
    template literal that joins name and extension after the loop, the one
    string it builds outside the [try], is beyond the string limit; see
    [processFileNameThrows] for that. *)
Definition processFileName (file : FileItem) (operations : list Operation) (index : nat)
  : Outcome :=
  runOperations file index operations (baseName (originalName file)) (extension file).

End Transformers.

(** ** The store *)

Definition setFiles (s : AppState) (fs : list FileItem) : AppState :=
  {| files := fs; operations := operations s; history := history s;
     historyIndex := historyIndex s; maxHistoryLength := maxHistoryLength s |}.

Definition setOperations (s : AppState) (ops : list Operation) : AppState :=
  {| files := files s; operations := ops; history := history s;
     historyIndex := historyIndex s; maxHistoryLength := maxHistoryLength s |}.

(** The state the store is created with. *)
Definition initialState : AppState :=
  {| files := []; operations := []; history := [[]]; historyIndex := 0;
     maxHistoryLength := 50 |}.

Section Store.

Variable host : Host.

(** The callback of the first [map] of [processFiles]. *)
Definition evaluateFile (operations : list Operation) (index : nat) (file : FileItem)
  : FileItem :=
  let result := processFileName host file operations index in
  {| fileId := fileId file; originalFile := originalFile file;
     originalName := originalName file; newName := outName result;
     extension := extension file; isValid := outValid result;
     errorMessage := outError result |}.

(** The [nameCount] map after the counting loop. *)
Definition countNames (processedFiles : list FileItem) : gmap string nat :=
  foldl (λ (nameCount : gmap string nat) file,
           <[newName file := default 0 (nameCount !! newName file) + 1]> nameCount)
    ∅ processedFiles.

(** The callback of the second [map] of [processFiles]. *)
Definition flagDuplicate (nameCount : gmap string nat) (file : FileItem) : FileItem :=
  if decide (1 < default 0 (nameCount !! newName file)) then
    {| fileId := fileId file; originalFile := originalFile file;
       originalName := originalName file; newName := newName file;
       extension := extension file; isValid := false;
       errorMessage := Some "Duplicate filename" |}
  else file.

(** [processFiles] on a file list and a pipeline: the list it stores.  It
    stores one unless [processFileName] throws for a file; see
    [processFilesThrows]. *)
Definition evaluate (fs : list FileItem) (ops : list Operation) : list FileItem :=
  let processedFiles := imap (evaluateFile ops) fs in
  flagDuplicate (countNames processedFiles) <$> processedFiles.

(** [processFiles] *)
Definition processFiles (s : AppState) : AppState :=
  setFiles s (evaluate (files s) (operations s)).

(** The extension [addFiles] derives from a file name. *)
Definition extensionOf (fileName : string) : string :=
  let lastDotIndex := Js.lastIndexOf fileName "." in
  if (0 <? lastDotIndex)%Z then Js.substringFrom fileName lastDotIndex
  else EmptyString.

Definition newFileItem (newId : string) (file : File) : FileItem :=
  {| fileId := newId; originalFile := file; originalName := name file;
     newName := name file; extension := extensionOf (name file);
     isValid := true; errorMessage := None |}.

(** Every action but [clearFiles] stores something with [set] and then
    calls [processFiles].  For each action [a], [aSet] is the state after
    its [set] and [a] the state after the evaluation, when the evaluation
    returns; [a] is what the store holds then.  (When it does not return,
    see [processFilesThrows] and [perform].) *)

(** [addFiles]; [generateId k] is the identifier that the [k]-th call of
    [generateId] in this action draws. *)
Definition addFilesSet (generateId : nat → string) (newFiles : list File) (s : AppState)
  : AppState :=
  let existingNames : gset string := list_to_set (originalName <$> files s) in
  let newFileItems :=
    imap (λ k file, newFileItem (generateId k) file)
      (filter (λ f, name f ∉ existingNames) newFiles) in
  setFiles s (files s ++ newFileItems).

Definition addFiles (generateId : nat → string) (newFiles : list File) (s : AppState)
  : AppState :=
  processFiles (addFilesSet generateId newFiles s).

(** [pushToHistory]: what follows the index is cut off, the live pipeline
    is appended, and the oldest entries leave while the list is longer
    than [maxHistoryLength]. *)
Definition pushToHistory (s : AppState) : AppState :=
  let newHistory := take (historyIndex s + 1) (history s) ++ [operations s] in
  let newHistory' := drop (length newHistory - maxHistoryLength s) newHistory in
  {| files := files s; operations := operations s; history := newHistory';
     historyIndex := length newHistory' - 1;
     maxHistoryLength := maxHistoryLength s |}.

(** [addOperation], given the identifier [generateId] draws *)
Definition addOperationSet (newId : string) (t : OperationType) (s : AppState)
  : AppState :=
  let s1 := pushToHistory s in
  let newOperation := {| id := newId; enabled := true; config := getDefaultConfig t |} in
  setOperations s1 (operations s1 ++ [newOperation]).

Definition addOperation (newId : string) (t : OperationType) (s : AppState) : AppState :=
  processFiles (addOperationSet newId t s).

(** [updateOperation]; merging the partial object over the configuration
    is the function [configUpdate] that overrides the fields it carries. *)
Definition updateOperationSet (opId : string)
    (configUpdate : OperationConfig → OperationConfig) (s : AppState) : AppState :=
  let s1 := pushToHistory s in
  setOperations s1
    ((λ op, if decide (id op = opId)
            then {| id := id op; enabled := enabled op; config := configUpdate (config op) |}
            else op) <$> operations s1).

Definition updateOperation (opId : string)
    (configUpdate : OperationConfig → OperationConfig) (s : AppState) : AppState :=
  processFiles (updateOperationSet opId configUpdate s).

(** [removeOperation] *)
Definition removeOperationSet (opId : string) (s : AppState) : AppState :=
  let s1 := pushToHistory s in
  setOperations s1 (filter (λ op, id op ≠ opId) (operations s1)).

Definition removeOperation (opId : string) (s : AppState) : AppState :=
  processFiles (removeOperationSet opId s).

(** [toggleOperation] *)
Definition toggleOperationSet (opId : string) (s : AppState) : AppState :=
  let s1 := pushToHistory s in
  setOperations s1
    ((λ op, if decide (id op = opId)
            then {| id := id op; enabled := negb (enabled op); config := config op |}
            else op) <$> operations s1).


(** [clearOperations] *)
Definition clearOperationsSet (s : AppState) : AppState :=
  setOperations (pushToHistory s) [].

Definition clearOperations (s : AppState) : AppState :=
  processFiles (clearOperationsSet s).

(** [applyPreset], given the operations of the preset *)
Definition applyPresetSet (presetOperations : list Operation) (s : AppState) : AppState :=
  setOperations (pushToHistory s) presetOperations.

Definition applyPreset (presetOperations : list Operation) (s : AppState) : AppState :=
  processFiles (applyPresetSet presetOperations s).

(** Reading [history[newIndex]] beyond the list gives [undefined], and
    calling [map] on it throws this [TypeError]. *)
Definition mapOfUndefined : string :=
  "Cannot read properties of undefined (reading 'map')".

(** The [set] of [undo] and [redo]: the snapshot at [newIndex] becomes the
    live pipeline. *)
Definition restoreSet (s : AppState) (newIndex : nat) : completion AppState :=
  match history s !! newIndex with
  | Some snapshot =>
      Normal {| files := files s; operations := snapshot; history := history s;
                historyIndex := newIndex; maxHistoryLength := maxHistoryLength s |}
  | None => Throw mapOfUndefined
  end.

Definition restore (s : AppState) (newIndex : nat) : completion AppState :=
  bindC (restoreSet s newIndex) (λ s1, Normal (processFiles s1)).

(** [undo] *)
Definition undo (s : AppState) : completion AppState :=
  if decide (0 < historyIndex s) then restore s (historyIndex s - 1)
  else Normal s.

(** [redo] *)
Definition redo (s : AppState) : completion AppState :=
  if decide (historyIndex s < length (history s) - 1) then restore s (historyIndex s + 1)
  else Normal s.

Definition canUndo (s : AppState) : bool := bool_decide (0 < historyIndex s).
Definition canRedo (s : AppState) : bool :=
  bool_decide (historyIndex s < length (history s) - 1).

End Store.

(** ** A host to run the model on

    [exampleHost t] is a browser whose clock reads [t] milliseconds, whose
    time zone is UTC, whose strings are limited as in V8 (2^29 - 24 code
    units), and whose [RegExp]
    knows the patterns that stand for a literal text (characters, escaped or
    not special) with the flags [g] and [i]; it rejects the others.  The
    theorems below hold for every host; this one evaluates the examples. *)

Module ExampleHost.

(** Civil date of a day number counted from 1970-01-01. *)
Definition civil (days : Z) : Z * Z * Z :=
  let z := (days + 719468)%Z in
  let era := (z / 146097)%Z in
  let doe := (z - era * 146097)%Z in
  let yoe := ((doe - doe / 1460 + doe / 36524 - doe / 146096) / 365)%Z in
  let doy := (doe - (365 * yoe + yoe / 4 - yoe / 100))%Z in
  let mp := ((5 * doy + 2) / 153)%Z in
  let d := (doy - (153 * mp + 2) / 5 + 1)%Z in
  let m := (if (mp <? 10)%Z then mp + 3 else mp - 9)%Z in
  let y := (yoe + era * 400 + (if (m <=? 2)%Z then 1 else 0))%Z in
  (y, m, d).

Definition utcFields (t : Z) : DateFields :=
  let '(y, m, d) := civil (t / 86400000) in
  let ms := (t mod 86400000)%Z in
  {| getFullYear := y; getMonth := m - 1; getDate := d;
     getHours := ms / 3600000; getMinutes := (ms / 60000) mod 60;
     getSeconds := (ms / 1000) mod 60 |}.

(** The literal text of a pattern, or [None] when the pattern uses an
    operator of the regular-expression language. *)
Fixpoint literalOf (pattern : string) : option string :=
  match pattern with
  | EmptyString => Some EmptyString
  | String c rest =>
      if bool_decide (c = "\"%char) then
        match rest with
        | String d rest' =>
            if isRegexSpecial d then String d <$> literalOf rest' else None
        | EmptyString => None
        end
      else if isRegexSpecial c then None
      else String c <$> literalOf rest
  end.

Definition sameChar (ignoreCase : bool) (a b : ascii) : bool :=
  if ignoreCase then bool_decide (Js.upper_char a = Js.upper_char b)
  else bool_decide (a = b).

Fixpoint matchesAt (ignoreCase : bool) (s p : string) : bool :=
  match p, s with
  | EmptyString, _ => true
  | String a p', String b s' => sameChar ignoreCase a b && matchesAt ignoreCase s' p'
  | String _ _, EmptyString => false
  end.

(** Replace the occurrences of the literal [p] in [s]: all of them when
    [global], else the first. [skip] counts the characters of a match
    still to pass over, [stop] says that no further match is wanted. *)
Fixpoint replaceLiteral (ignoreCase global : bool) (skip : nat) (stop : bool)
    (before s p template : string) : string :=
  match s with
  | EmptyString =>
      if negb stop && Js.is_empty p
      then Js.getSubstitution EmptyString before EmptyString template
      else EmptyString
  | String c s' =>
      let before' := before +:+ String c EmptyString in
      match skip with
      | S k => replaceLiteral ignoreCase global k stop before' s' p template
      | O =>
          if negb stop && matchesAt ignoreCase s p then
            let len := String.length p in
            Js.getSubstitution (Js.take len s) before (Js.drop len s) template
            +:+ (if Js.is_empty p
                 then String c (replaceLiteral ignoreCase global 0 (negb global)
                                  before' s' p template)
                 else replaceLiteral ignoreCase global (len - 1) (negb global)
                        before' s' p template)
          else String c (replaceLiteral ignoreCase global 0 stop before' s' p template)
      end
  end.

Definition knownFlag (c : ascii) : bool :=
  Js.existsb (λ d, bool_decide (d = c)) "gi".

Definition hasFlag (flags : string) (c : ascii) : bool :=
  Js.existsb (λ d, bool_decide (d = c)) flags.

Definition literalReplace (limit : Z) (pattern flags subject template : string)
  : completion string :=
  if Js.existsb (λ c, negb (knownFlag c)) flags then
    Throw ("Invalid flags supplied to RegExp constructor '" +:+ flags +:+ "'")
  else
    match literalOf pattern with
    | None => Throw ("Invalid regular expression: /" +:+ pattern +:+ "/")
    | Some p =>
        let result := replaceLiteral (hasFlag flags "i") (hasFlag flags "g") 0 false
                        EmptyString subject p template in
        if (Js.length result <=? limit)%Z then Normal result
        else Throw "Invalid string length"
    end.

(** The host whose strings hold at most [limit] code units. *)
Definition limited (limit t : Z) : Host :=
  {| regExpReplace := literalReplace limit;
     maxStringLength := limit;
     invalidStringLength := "Invalid string length";
     now := t;
     localFields := utcFields |}.

Definition host (t : Z) : Host := limited 536870888 t.

End ExampleHost.

Definition exampleHost : Z → Host := ExampleHost.host.

(** The same browser with strings of at most [limit] code units, to run
    the examples that reach the limit. *)
Definition smallHost (limit : Z) : Host := ExampleHost.limited limit 0.

(** ** Auxiliary notions and the data of the examples *)

Definition prefixOp : Operation :=
  {| id := "a"; enabled := true; config := getDefaultConfig TyPrefix |}.
Definition suffixOp : Operation :=
  {| id := "b"; enabled := true; config := getDefaultConfig TySuffix |}.

Definition regexOp : Operation :=
  {| id := "c"; enabled := true; config := getDefaultConfig TyRegex |}.

Definition twoFilesOneName : list File :=
  [ {| name := "a.txt"; lastModified := 0 |};
    {| name := "a.txt"; lastModified := 5 |} ].

Definition photoFiles : list FileItem :=
  [ newFileItem "1" {| name := "photo.JPG"; lastModified := 0 |};
    newFileItem "2" {| name := "photo.jpg"; lastModified := 0 |};
    newFileItem "3" {| name := "notes.txt"; lastModified := 0 |} ].

Definition lowerExtensionOp : Operation :=
  {| id := "x"; enabled := true; config := getDefaultConfig TyExtension |}.

(** The host with another reading of the clock. *)
Definition withClock (h : Host) (t : Z) : Host :=
  {| regExpReplace := regExpReplace h; maxStringLength := maxStringLength h;
     invalidStringLength := invalidStringLength h; now := t;
     localFields := localFields h |}.

(** An enabled date-time operation whose source is the current time. *)
Definition readsClock (op : Operation) : bool :=
  enabled op &&
  match config op with
  | OfDateTime c =>
      match DateTimeConfig.source c with Current => true | _ => false end
  | _ => false
  end.

Definition dateOp : Operation :=
  {| id := "d"; enabled := true; config := getDefaultConfig TyDateTime |}.

Definition oneFile : list FileItem :=
  [ newFileItem "1" {| name := "a.txt"; lastModified := 0 |} ].

Definition modifiedDateOp : Operation :=
  {| id := "m"; enabled := true;
     config := OfDateTime {| DateTimeConfig.source := Modified;
                             DateTimeConfig.format := "YYYY-MM-DD_HH.mm.ss";
                             DateTimeConfig.position := InsertSuffix;
                             DateTimeConfig.separator := "-" |} |}.

Definition disabledDateOp : Operation :=
  {| id := "d"; enabled := false; config := getDefaultConfig TyDateTime |}.

(** The working name and extension after the enabled operations of [ops],
    as long as none of them throws. *)
Fixpoint foldOperations (host : Host) (file : FileItem) (index : nat)
    (ops : list Operation) (name ext : string) : completion (string * string) :=
  match ops with
  | [] => Normal (name, ext)
  | op :: rest =>
      if negb (enabled op) then foldOperations host file index rest name ext
      else bindC (applyOperation host op file index name ext)
             (λ ne, foldOperations host file index rest ne.1 ne.2)
  end.

Definition upperCaseOp : Operation :=
  {| id := "u"; enabled := true;
     config := OfCaseChange {| CaseChangeConfig.caseType := uppercase |} |}.

(** A counter padded to a thousand million digits: more than a string
    of the engine can hold. *)
Definition hugePaddingOp : Operation :=
  {| id := "p"; enabled := true;
     config := OfPrefix {| PrefixSuffixConfig.text := "S01E";
                           PrefixSuffixConfig.position := AffixPrefix;
                           PrefixSuffixConfig.addCounter := true;
                           PrefixSuffixConfig.counterStart := 1;
                           PrefixSuffixConfig.counterPadding := 1000000000;
                           PrefixSuffixConfig.counterStep := 1 |} |}.

(** An entry as [addFiles] builds it. *)
Definition ingested (f : FileItem) : Prop := extension f = extensionOf (originalName f).

Definition colonFile : list FileItem :=
  [ newFileItem "1" {| name := "a:b.txt"; lastModified := 0 |} ].

(** The configuration of the store's own preset "Episode Format", whose
    description is "Format: S01E01". *)
Definition episodeConfig : PrefixSuffixConfig.t :=
  {| PrefixSuffixConfig.text := "S01E";
     PrefixSuffixConfig.position := AffixPrefix;
     PrefixSuffixConfig.addCounter := true;
     PrefixSuffixConfig.counterStart := 1;
     PrefixSuffixConfig.counterPadding := 2;
     PrefixSuffixConfig.counterStep := 1 |}.

Definition episodeOp : Operation :=
  {| id := "preset-episode-1"; enabled := true; config := OfPrefix episodeConfig |}.

Definition twoEpisodes : list FileItem :=
  [ newFileItem "1" {| name := "pilot.mkv"; lastModified := 0 |};
    newFileItem "2" {| name := "second.mkv"; lastModified := 0 |} ].

(** The prefix "x", and two files without extension of which the second
    bears the name the prefix gives the first. *)
Definition prefixXOp : Operation :=
  {| id := "p"; enabled := true;
     config := OfPrefix {| PrefixSuffixConfig.text := "x";
                           PrefixSuffixConfig.position := AffixPrefix;
                           PrefixSuffixConfig.addCounter := false;
                           PrefixSuffixConfig.counterStart := 1;
                           PrefixSuffixConfig.counterPadding := 2;
                           PrefixSuffixConfig.counterStep := 1 |} |}.

(** Two files of one name, as one call of [addFiles] queues them. *)
Definition sameNameFiles : list FileItem :=
  [ newFileItem "0" {| name := "a.txt"; lastModified := 0 |};
    newFileItem "1" {| name := "a.txt"; lastModified := 5 |} ].

Definition shortNames : list FileItem :=
  [ newFileItem "1" {| name := "b"; lastModified := 0 |};
    newFileItem "2" {| name := "xb"; lastModified := 0 |} ].

(** A range whose end index is before its start index. *)
Definition invertedRange : RemoveCharsConfig.t :=
  {| RemoveCharsConfig.mode := Range; RemoveCharsConfig.count := 0;
     RemoveCharsConfig.startIndex := 2; RemoveCharsConfig.endIndex := 0;
     RemoveCharsConfig.characters := EmptyString;
     RemoveCharsConfig.pattern := EmptyString |}.

(** The extension operation with an empty [newExtension]. *)
Definition emptyExtensionOp (opId : string) (a : ExtensionAction) : Operation :=
  {| id := opId; enabled := true;
     config := OfExtension {| ExtensionConfig.action := a;
                              ExtensionConfig.newExtension := EmptyString |} |}.

(** ** The remaining store actions and the views that read the store *)

(** [removeFile] *)
Definition removeFileSet (fid : string) (s : AppState) : AppState :=
  setFiles s (filter (λ f, fileId f ≠ fid) (files s)).


(** [clearFiles]: the one action on files that does not re-evaluate *)
Definition clearFiles (s : AppState) : AppState := setFiles s [].

(** The two [splice] calls of the reorder actions on a copy of the list:
    [splice(startIndex, 1)] takes one element out at the relative index,
    [splice(endIndex, 0, removed)] puts it back at the relative index of
    what is left.  When the first takes nothing out ([startIndex] at or
    beyond the end), the source puts [undefined] in; a typed list cannot
    hold it, and the result is [None]. *)
Definition reorder {A} (l : list A) (startIndex endIndex : Z) : option (list A) :=
  let start := Z.to_nat (Js.relative (Z.of_nat (length l)) startIndex) in
  match l !! start with
  | None => None
  | Some removed =>
      let rest := delete start l in
      let target := Z.to_nat (Js.relative (Z.of_nat (length rest)) endIndex) in
      Some (take target rest ++ removed :: drop target rest)
  end.

(** [reorderFiles] *)
Definition reorderFilesSet (startIndex endIndex : Z) (s : AppState) : option AppState :=
  setFiles s <$> reorder (files s) startIndex endIndex.

Definition reorderFiles (host : Host) (startIndex endIndex : Z) (s : AppState)
  : option AppState :=
  processFiles host <$> reorderFilesSet startIndex endIndex s.

(** [reorderOperations] *)
Definition reorderOperationsSet (startIndex endIndex : Z) (s : AppState)
  : option AppState :=
  let s1 := pushToHistory s in
  setOperations s1 <$> reorder (operations s1) startIndex endIndex.

Definition reorderOperations (host : Host) (startIndex endIndex : Z) (s : AppState)
  : option AppState :=
  processFiles host <$> reorderOperationsSet startIndex endIndex s.

Record Preset := {
  presetId : string;
  presetName : string;
  presetDescription : string;
  presetIcon : string;
  presetOperations : list Operation
}.

(** [saveCustomPreset] on the list [customPresets] of the state, given the
    live pipeline; [generateId 0] is the identifier drawn for the preset
    and [generateId (S k)] the one drawn for its [k]-th operation.  A
    missing or empty [icon] becomes 'folder'. *)
Definition saveCustomPreset (generateId : nat → string) (name description : string)
    (icon : option string) (operations : list Operation) (customPresets : list Preset)
  : list Preset :=
  customPresets ++
  [ {| presetId := generateId 0; presetName := name;
       presetDescription := description;
       presetIcon := match icon with
                     | Some i => if Js.is_empty i then "folder" else i
                     | None => "folder"
                     end;
       presetOperations :=
         imap (λ k op, {| id := generateId (S k); enabled := enabled op;
                          config := config op |}) operations |} ].

(** [deleteCustomPreset] *)
Definition deleteCustomPreset (pid : string) (customPresets : list Preset) : list Preset :=
  filter (λ p, presetId p ≠ pid) customPresets.

(** [ExportButton]: the files that changed and are valid, whether the
    button is live, and the entries handed to the archive (name and
    content), changed files first. *)
Definition validFiles (fs : list FileItem) : list FileItem :=
  filter (λ f, isValid f = true ∧ originalName f ≠ newName f) fs.

Definition canExport (fs : list FileItem) : bool :=
  bool_decide (0 < length (validFiles fs)).

Definition unchangedFiles (fs : list FileItem) : list FileItem :=
  filter (λ f, isValid f = true ∧ originalName f = newName f) fs.

Definition allFiles (fs : list FileItem) : list (string * File) :=
  (λ f, (newName f, originalFile f)) <$> (validFiles fs ++ unchangedFiles fs).

(** [FileList]: [errorMessage?.includes('Duplicate')] and the three
    counters of the header. *)
Definition mentionsDuplicate (message : option string) : bool :=
  match message with
  | Some m => Js.includes m "Duplicate"
  | None => false
  end.

Definition changedCount (fs : list FileItem) : nat :=
  length (filter (λ f, originalName f ≠ newName f) fs).

Definition duplicateCount (fs : list FileItem) : nat :=
  length (filter (λ f, mentionsDuplicate (errorMessage f) = true) fs).

Definition errorCount (fs : list FileItem) : nat :=
  length (filter (λ f, isValid f = false ∧ mentionsDuplicate (errorMessage f) = false) fs).

(** The one string that [processFileName] builds outside its [try]: the
    template literal [`${name}${extension}`] after the loop. *)
Definition joinName (host : Host) (name extension : string) : completion string :=
  built host name (name +:+ extension).

(** [processFileName] throws instead of returning: no operation threw, and
    the name with its extension is beyond the string limit.  Nothing
    catches this [RangeError]: it leaves [processFileName], the [map] of
    [processFiles] and [processFiles] itself, before its [set]. *)
Definition processFileNameThrows (host : Host) (file : FileItem)
    (operations : list Operation) (index : nat) : bool :=
  match foldOperations host file index operations
          (baseName (originalName file)) (extension file) with
  | Normal (name, extension) =>
      match joinName host name extension with
      | Normal _ => false
      | Throw _ => true
      end
  | Throw _ => false
  end.

Definition processFilesThrows (host : Host) (fs : list FileItem)
    (operations : list Operation) : bool :=
  existsb (λ thrown : bool, thrown)
    (imap (λ index file, processFileNameThrows host file operations index) fs).

(** How an action ends: it returns, or an exception leaves it.  Either way
    the store holds a state afterwards. *)
Inductive Result :=
| Done (s : AppState)
| Raised (s : AppState) (message : string).

Definition stateOf (r : Result) : AppState :=
  match r with
  | Done s => s
  | Raised s _ => s
  end.

(** The call of [processFiles] that ends an action, on the state that the
    action has stored: when the evaluation throws, nothing more is stored. *)
Definition thenProcessFiles (host : Host) (s : AppState) : Result :=
  if processFilesThrows host (files s) (operations s)
  then Raised s (invalidStringLength host)
  else Done (processFiles host s).

(** The body of [undo] and [redo] behind their test.  The [TypeError] of a
    missing snapshot is thrown before anything is stored. *)
Definition thenRestore (host : Host) (s : AppState) (newIndex : nat) : Result :=
  match restoreSet s newIndex with
  | Normal s1 => thenProcessFiles host s1
  | Throw message => Raised s message
  end.

(** The actions a user can take on the store, and one step of the store
    in a host, whose clock reading is that of the step.  [None] is a step
    that leaves the typed state: a reorder that stores [undefined]. *)
Inductive Action :=
| AddFiles (generateId : nat → string) (newFiles : list File)
| RemoveFile (fid : string)
| ClearFiles
| ReorderFiles (startIndex endIndex : Z)
| AddOperation (newId : string) (t : OperationType)
| UpdateOperation (opId : string) (configUpdate : OperationConfig → OperationConfig)
| RemoveOperation (opId : string)
| ToggleOperation (opId : string)
| ReorderOperations (startIndex endIndex : Z)
| ClearOperations
| ApplyPreset (presetOps : list Operation)
| Undo
| Redo.

Definition perform (host : Host) (a : Action) (s : AppState) : option Result :=
  match a with
  | AddFiles generateId newFiles =>
      Some (thenProcessFiles host (addFilesSet generateId newFiles s))
  | RemoveFile fid => Some (thenProcessFiles host (removeFileSet fid s))
  | ClearFiles => Some (Done (clearFiles s))
  | ReorderFiles i j => thenProcessFiles host <$> reorderFilesSet i j s
  | AddOperation newId t => Some (thenProcessFiles host (addOperationSet newId t s))
  | UpdateOperation opId u => Some (thenProcessFiles host (updateOperationSet opId u s))
  | RemoveOperation opId => Some (thenProcessFiles host (removeOperationSet opId s))
  | ToggleOperation opId => Some (thenProcessFiles host (toggleOperationSet opId s))
  | ReorderOperations i j => thenProcessFiles host <$> reorderOperationsSet i j s
  | ClearOperations => Some (thenProcessFiles host (clearOperationsSet s))
  | ApplyPreset ops => Some (thenProcessFiles host (applyPresetSet ops s))
  | Undo =>
      Some (if decide (0 < historyIndex s)
            then thenRestore host s (historyIndex s - 1) else Done s)
  | Redo =>
      Some (if decide (historyIndex s < length (history s) - 1)
            then thenRestore host s (historyIndex s + 1) else Done s)
  end.


(** The pipeline with other identifiers. *)
Definition sameButIds (ops ops' : list Operation) : Prop :=
  Forall2 (λ op op', enabled op = enabled op' ∧ config op = config op') ops ops'.

(** Two entries that stand for the same file: everything but the three
    fields evaluation writes. *)
Definition sameIdentity (f g : FileItem) : Prop :=
  fileId f = fileId g ∧ originalFile f = originalFile g
  ∧ originalName f = originalName g ∧ extension f = extension g.

(** The actions that change the pipeline. *)
Definition isMutation (a : Action) : bool :=
  match a with
  | AddOperation _ _ | UpdateOperation _ _ | RemoveOperation _ | ToggleOperation _
  | ReorderOperations _ _ | ClearOperations | ApplyPreset _ => true
  | _ => false
  end.



(** The characters a snake_case name is made of, and a kebab-case one. *)
Definition snakeChar (c : ascii) : bool :=
  Js.is_lower c || Js.is_digit c || bool_decide (c = "_"%char).
Definition kebabChar (c : ascii) : bool :=
  Js.is_lower c || Js.is_digit c || bool_decide (c = "-"%char).

(** The characters of a decimal numeral. *)
Definition numeralChar (c : ascii) : bool := Js.is_digit c || bool_decide (c = "-"%char).

(** A state after one commit: the live pipeline is the snapshot at the
    index. *)
Definition syncedState : AppState :=
  {| files := oneFile; operations := [prefixOp];
     history := [[]; [prefixOp]]; historyIndex := 1; maxHistoryLength := 50 |}.

(** A queue of one file in an engine whose strings hold three code units:
    the prefix "x" makes of "a.b" a name of four, so that applying it
    stores the pipeline and throws. *)
Definition counterIds (k : nat) : string := "id-" +:+ Js.toString (Z.of_nat k).

Definition queuedState : AppState :=
  addFiles (smallHost 3) counterIds [{| name := "a.b"; lastModified := 0 |}] initialState.

Definition raisedResult : Result :=
  thenProcessFiles (smallHost 3) (applyPresetSet [prefixXOp] queuedState).

(** [undo] at one reading of the clock, then [redo] a day later. *)
Definition undone : Result := thenRestore (exampleHost 0) syncedState 0.
Definition redone : Result := thenRestore (exampleHost 86400000) (stateOf undone) 1.

Definition renamedPrefixOp : Operation :=
  {| id := "z"; enabled := true; config := getDefaultConfig TyPrefix |}.

Definition lowercasePreset : Preset :=
  {| presetId := "preset-lowercase"; presetName := "Lowercase";
     presetDescription := "Convert all to lowercase"; presetIcon := "type";
     presetOperations :=
       [ {| id := "preset-lowercase-1"; enabled := true;
            config := getDefaultConfig TyCaseChange |} ] |}.

Definition dashesAndUnderscores : RemoveCharsConfig.t :=
  {| RemoveCharsConfig.mode := Specific; RemoveCharsConfig.count := 0;
     RemoveCharsConfig.startIndex := 0; RemoveCharsConfig.endIndex := 0;
     RemoveCharsConfig.characters := "-_"; RemoveCharsConfig.pattern := EmptyString |}.

Definition photoNumbering : NumberingConfig.t :=
  {| NumberingConfig.position := InsertReplace;
     NumberingConfig.startNumber := 1; NumberingConfig.step := 1;
     NumberingConfig.padding := 3; NumberingConfig.separator := "_";
     NumberingConfig.format := "Photo_[N]" |}.

Definition literalDash : FindReplaceConfig.t :=
  {| FindReplaceConfig.find := "-"; FindReplaceConfig.replace := "-";
     FindReplaceConfig.caseSensitive := true; FindReplaceConfig.useRegex := false;
     FindReplaceConfig.replaceAll := true |}.

Definition spacesToUnderscores : TrimConfig.t :=
  {| TrimConfig.trimSpaces := true; TrimConfig.removeDuplicateSpaces := true;
     TrimConfig.removeSpecialChars := false;
     TrimConfig.specialCharsToRemove := EmptyString;
     TrimConfig.replaceSpacesWith := "_" |}.

Definition photoEntry : FileItem :=
  newFileItem "1" {| name := "photo.JPG"; lastModified := 0 |}.

(** * Properties *)

(** ** String lemmas *)

Lemma app_cons (c : ascii) (s t : string) : String c s +:+ t = String c (s +:+ t).
Proof. reflexivity. Qed.

Lemma app_empty_r (s : string) : s +:+ EmptyString = s.
Proof. induction s as [|c s IH]; [done|]. by rewrite app_cons, IH. Qed.

Lemma length_app_str (a b : string) :
  String.length (a +:+ b) = String.length a + String.length b.
Proof. induction a as [|c a IH]; [done|]. rewrite app_cons. simpl. by rewrite IH. Qed.

Lemma app_assoc_str (a b c : string) : (a +:+ b) +:+ c = a +:+ b +:+ c.
Proof. induction a as [|x a IH]; [done|]. by rewrite !app_cons, IH. Qed.

(** The string limit *)

Lemma built_fits host (input output : string) :
  fits host output = true → built host input output = Normal output.
Proof. intros Hfits. unfold built. by rewrite Hfits. Qed.


(** For a name that the engine holds, [built] is the check of the limit. *)
Lemma built_checks host (input output : string) :
  fits host input = true →
  built host input output
  = if fits host output then Normal output else Throw (invalidStringLength host).
Proof.
  intros Hin. unfold built.
  destruct (fits host output) eqn:Hout; [done|]. simpl.
  destruct (String.length output <=? String.length input) eqn:Hle; [|done].
  apply Nat.leb_le in Hle. unfold fits, Js.length in *.
  apply Z.leb_le in Hin. apply Z.leb_gt in Hout. lia.
Qed.

Lemma fits_shorter host (a b : string) :
  String.length a ≤ String.length b → fits host b = true → fits host a = true.
Proof.
  unfold fits, Js.length. intros Hle Hb. apply Z.leb_le in Hb. apply Z.leb_le. lia.
Qed.

Lemma fits_app_l host (a b : string) : fits host (a +:+ b) = true → fits host a = true.
Proof. apply fits_shorter. rewrite length_app_str. lia. Qed.

Lemma fits_app_r host (a b : string) : fits host (a +:+ b) = true → fits host b = true.
Proof. apply fits_shorter. rewrite length_app_str. lia. Qed.

Lemma take_drop_str (n : nat) (s : string) : Js.take n s +:+ Js.drop n s = s.
Proof.
  revert s. induction n as [|n IH]; intros [|c s]; simpl; try done.
  by rewrite app_cons, IH.
Qed.

Lemma take_all_str (n : nat) (s : string) : String.length s ≤ n → Js.take n s = s.
Proof.
  revert s. induction n as [|n IH]; intros [|c s] Hn; simpl in *; try done; [lia|].
  f_equal. apply IH. lia.
Qed.

Lemma drop_all_str (n : nat) (s : string) :
  String.length s ≤ n → Js.drop n s = EmptyString.
Proof.
  revert s. induction n as [|n IH]; intros [|c s] Hn; simpl in *; try done; [lia|].
  apply IH. lia.
Qed.

Lemma length_drop_str (n : nat) (s : string) :
  String.length (Js.drop n s) = String.length s - n.
Proof. revert s. induction n as [|n IH]; intros [|c s]; simpl; auto. Qed.

Lemma existsb_app_str (p : ascii → bool) (s t : string) :
  Js.existsb p (s +:+ t) = Js.existsb p s || Js.existsb p t.
Proof.
  induction s as [|c s IH]; [done|].
  rewrite app_cons. simpl. rewrite IH. by destruct (p c).
Qed.

(** ** The history (C1, C2) *)

Lemma processFiles_operations host s : operations (processFiles host s) = operations s.
Proof. reflexivity. Qed.

Lemma processFiles_history host s : history (processFiles host s) = history s.
Proof. reflexivity. Qed.

Lemma processFiles_historyIndex host s :
  historyIndex (processFiles host s) = historyIndex s.
Proof. reflexivity. Qed.

(** What [pushToHistory] leaves when the limit is not reached: the entries
    up to the index, then the live pipeline, the index on it. *)
Lemma pushToHistory_below_limit (s : AppState) :
  length (take (historyIndex s + 1) (history s)) < maxHistoryLength s →
  history (pushToHistory s) = take (historyIndex s + 1) (history s) ++ [operations s]
  ∧ historyIndex (pushToHistory s) = length (take (historyIndex s + 1) (history s)).
Proof.
  intros Hlt. unfold pushToHistory. simpl.
  rewrite length_app. simpl.
  replace (_ + 1 - maxHistoryLength s) with 0 by lia.
  rewrite drop_0, length_app. simpl. split; [done | lia].
Qed.

(** In general: the list is cut from the front down to the limit, the live
    pipeline is its last entry and the index points at it. *)
Lemma pushToHistory_general (s : AppState) :
  0 < maxHistoryLength s →
  let kept := take (historyIndex s + 1) (history s) in
  history (pushToHistory s)
    = drop (length kept + 1 - maxHistoryLength s) (kept ++ [operations s])
  ∧ last (history (pushToHistory s)) = Some (operations s)
  ∧ historyIndex (pushToHistory s) + 1 = length (history (pushToHistory s))
  ∧ length (history (pushToHistory s)) ≤ maxHistoryLength s.
Proof.
  intros Hmax kept. unfold pushToHistory. simpl. fold kept.
  rewrite !length_app. simpl.
  assert (Hlen : length (drop (length kept + 1 - maxHistoryLength s) (kept ++ [operations s]))
                 = length kept + 1 - (length kept + 1 - maxHistoryLength s)).
  { rewrite length_drop, length_app. simpl. done. }
  split; [done|]. split; [|split; rewrite Hlen; lia].
  rewrite last_lookup, Hlen, lookup_drop.
  replace (_ + pred _) with (length kept) by lia.
  rewrite lookup_app_r by lia. by rewrite Nat.sub_diag.
Qed.

(** With the index inside the list, [undo] and [redo] return normally. *)
Lemma undo_redo_return host (s : AppState) :
  historyIndex s < length (history s) →
  (∃ s', undo host s = Normal s') ∧ (∃ s', redo host s = Normal s').
Proof.
  intros Hin. unfold undo, redo, restore, restoreSet. split.
  - case_decide; [|eauto].
    destruct (lookup_lt_is_Some_2 (history s) (historyIndex s - 1)) as [p ->]; [lia|].
    eauto.
  - case_decide; [|eauto].
    destruct (lookup_lt_is_Some_2 (history s) (historyIndex s + 1)) as [p ->]; [lia|].
    eauto.
Qed.

(** A commit made at the tip keeps the former tip right below the index. *)
Lemma pushToHistory_at_tip (s : AppState) (X : list Operation) :
  2 ≤ maxHistoryLength s →
  historyIndex s + 1 = length (history s) →
  last (history s) = Some X →
  history (pushToHistory s) !! (historyIndex (pushToHistory s) - 1) = Some X
  ∧ 0 < historyIndex (pushToHistory s).
Proof.
  intros Hmax Htip Hlast. unfold pushToHistory. simpl.
  rewrite Htip, take_ge by lia.
  assert (Hlen : length (drop (length (history s ++ [operations s]) - maxHistoryLength s)
                           (history s ++ [operations s]))
                 = length (history s) + 1
                   - (length (history s) + 1 - maxHistoryLength s)).
  { rewrite length_drop, length_app. simpl. done. }
  assert (1 ≤ length (history s)) by lia.
  rewrite Hlen. split; [|lia].
  rewrite lookup_drop, length_app. simpl.
  replace (_ + _) with (length (history s) - 1) by lia.
  rewrite lookup_app_l by lia.
  rewrite <- Hlast, last_lookup. f_equal. lia.
Qed.

(** After two commits the entry below the index is the pipeline that was
    live before the first of them, and that is what [undo] restores. *)
Lemma two_commits_then_undo host (s : AppState) (P1 P2 : list Operation) :
  2 ≤ maxHistoryLength s →
  let s2 := applyPreset host P2 (applyPreset host P1 s) in
  operations s2 = P2 ∧
  ∃ u, undo host s2 = Normal u ∧ operations u = operations s.
Proof.
  intros Hmax s2. split; [done|].
  destruct (pushToHistory_general s) as (_ & Hlast1 & Hidx1 & _); [lia|].
  destruct (pushToHistory_at_tip (applyPreset host P1 s) (operations s))
    as [Hlook Hpos]; [done | done | done |].
  unfold undo, restore, restoreSet.
  change (historyIndex s2) with (historyIndex (pushToHistory (applyPreset host P1 s))).
  change (history s2) with (history (pushToHistory (applyPreset host P1 s))).
  rewrite decide_True by done. rewrite Hlook.
  eexists. split; done.
Qed.

(** C1 (the code departs from the claim).  From the store as created
    (pipeline P0 = []), adding a prefix operation gives P1 and adding a
    suffix operation gives P2.  The claim wants [undo] to restore P1; the
    code restores P0, because every mutation commits the pipeline as it was
    before it and nothing ever commits the last one: a second [undo] gives
    P0 again (the snapshot the store starts with), the two [redo] give P0
    and P1, and P2 cannot be reached again. *)
Theorem undo_skips_last_mutation (host : Host) :
  let s1 := addOperation host "a" TyPrefix initialState in
  let s2 := addOperation host "b" TySuffix s1 in
  operations initialState = []
  ∧ operations s1 = [prefixOp]
  ∧ operations s2 = [prefixOp; suffixOp]
  ∧ ∃ u1 u2 r1 r2,
      undo host s2 = Normal u1 ∧ operations u1 = []
      ∧ undo host u1 = Normal u2 ∧ operations u2 = [] ∧ canUndo u2 = false
      ∧ redo host u2 = Normal r1 ∧ operations r1 = []
      ∧ redo host r1 = Normal r2 ∧ operations r2 = [prefixOp] ∧ canRedo r2 = false.
Proof.
  intros s1 s2. repeat split.
  do 4 eexists. repeat split.
Qed.

(** What the code does in the scenario of C2, for arbitrary snapshots:
    from (P0, P1, P2) at index 2, two [undo] reach index 0 with P0 live; a
    mutation producing P3 then leaves the snapshots (P0, P0), the index on
    the second, P3 live and no redo. *)
Lemma commit_after_undo_from_three_snapshots
    host (s : AppState) (P0 P1 P2 P3 : list Operation) :
  history s = [P0; P1; P2] →
  historyIndex s = 2 →
  maxHistoryLength s = 50 →
  ∃ u1 u2,
    undo host s = Normal u1 ∧ undo host u1 = Normal u2
    ∧ historyIndex u2 = 0 ∧ operations u2 = P0
    ∧ operations (applyPreset host P3 u2) = P3
    ∧ history (applyPreset host P3 u2) = [P0; P0]
    ∧ historyIndex (applyPreset host P3 u2) = 1
    ∧ canRedo (applyPreset host P3 u2) = false.
Proof.
  intros Hh Hi Hm.
  destruct s as [fs ops H i m]. simpl in Hh, Hi, Hm. subst H i m.
  do 2 eexists. repeat split.
Qed.

(** The general rule of C2, which the code follows: [pushToHistory] keeps
    the first index+1 snapshots, appends the live pipeline, points the
    index at it, and drops entries from the front only when more than 50
    would remain. *)
Lemma pushToHistory_rule (t : AppState) :
  maxHistoryLength t = 50 →
  let kept := take (historyIndex t + 1) (history t) in
  history (pushToHistory t) = drop (length kept + 1 - 50) (kept ++ [operations t])
  ∧ (length kept < 50 → history (pushToHistory t) = kept ++ [operations t])
  ∧ last (history (pushToHistory t)) = Some (operations t)
  ∧ historyIndex (pushToHistory t) + 1 = length (history (pushToHistory t))
  ∧ length (history (pushToHistory t)) ≤ 50.
Proof.
  intros Ht kept.
  destruct (pushToHistory_general t) as (Hgen & Hlast & Hidx & Hlen); [lia|].
  rewrite Ht in Hgen, Hlen. fold kept in Hgen.
  split; [done|]. split; [|done].
  intros Hlt. rewrite Hgen.
  replace (length kept + 1 - 50) with 0 by lia. apply drop_0.
Qed.

(** C2 (the code departs from the claim).  The store after two mutations
    holds the snapshots ([], [], [prefixOp]) at index 2.  Two [undo] bring
    the index to 0; the mutation that then produces P3 = [regexOp] leaves
    the snapshots ([], []) and not ([], P3): what is appended is the
    pipeline that was live before the mutation, so that a later [undo]
    followed by [redo] cannot come back to P3.  The later snapshots are
    discarded and redo is unavailable, as the claim says. *)
Theorem commit_after_undo_does_not_append_P3 (host : Host) :
  let s := addOperation host "b" TySuffix (addOperation host "a" TyPrefix initialState) in
  history s = [[]; []; [prefixOp]] ∧ historyIndex s = 2
  ∧ ∃ u1 u2,
      undo host s = Normal u1 ∧ undo host u1 = Normal u2 ∧ historyIndex u2 = 0
      ∧ operations (addOperation host "c" TyRegex u2) = [regexOp]
      ∧ history (addOperation host "c" TyRegex u2) = [[]; []]
      ∧ history (addOperation host "c" TyRegex u2) ≠ [[]; [regexOp]]
      ∧ canRedo (addOperation host "c" TyRegex u2) = false.
Proof.
  intros s. repeat split.
  do 2 eexists. repeat split. discriminate.
Qed.

(** ** Ingestion (C3) *)

Lemma evaluateFile_originalName host ops i f :
  originalName (evaluateFile host ops i f) = originalName f.
Proof. reflexivity. Qed.

Lemma flagDuplicate_originalName m f : originalName (flagDuplicate m f) = originalName f.
Proof. unfold flagDuplicate. by case_decide. Qed.

Lemma flagDuplicate_newName m f : newName (flagDuplicate m f) = newName f.
Proof. unfold flagDuplicate. by case_decide. Qed.

(** Evaluation keeps the files, their order and their original names. *)
Lemma evaluate_originalNames host fs ops :
  originalName <$> evaluate host fs ops = originalName <$> fs.
Proof.
  unfold evaluate. rewrite <- list_fmap_compose, fmap_imap.
  rewrite <- (imap_const originalName fs). apply imap_ext.
  intros i f _. simpl. by rewrite flagDuplicate_originalName.
Qed.

Lemma evaluate_length host fs ops : length (evaluate host fs ops) = length fs.
Proof. unfold evaluate. by rewrite length_fmap, length_imap. Qed.

(** The names queued after [addFiles]: those already queued, then the
    names of the incoming files that were not queued before, in order. *)
Lemma addFiles_originalNames host generateId newFiles s :
  originalName <$> files (addFiles host generateId newFiles s)
  = (originalName <$> files s)
    ++ (name <$> filter (λ f, name f ∉ originalName <$> files s) newFiles).
Proof.
  unfold addFiles, processFiles. simpl.
  rewrite evaluate_originalNames, fmap_app. f_equal.
  rewrite fmap_imap.
  rewrite (list_filter_iff _ (λ f, name f ∉ originalName <$> files s)).
  - rewrite <- (imap_const name). apply imap_ext. done.
  - intros f. by rewrite elem_of_list_to_set.
Qed.

(** An incoming file whose name is already queued is dropped, and the
    queued entries stay where they are. *)
Lemma addFiles_drops_queued_names host generateId newFiles s :
  (∀ f, f ∈ newFiles → name f ∈ originalName <$> files s) →
  originalName <$> files (addFiles host generateId newFiles s)
  = originalName <$> files s.
Proof.
  intros Hall. rewrite addFiles_originalNames.
  replace (filter _ newFiles) with (@nil File); [by rewrite app_nil_r|].
  symmetry. induction newFiles as [|f l IH]; [done|].
  rewrite filter_cons. rewrite decide_False.
  - apply IH. intros g Hg. apply Hall. by right.
  - intros Hn. apply Hn, Hall. by left.
Qed.

(** Uniqueness is kept when the batch itself has no repeated name. *)
Lemma addFiles_NoDup host generateId newFiles s :
  NoDup (originalName <$> files s) →
  NoDup (name <$> newFiles) →
  NoDup (originalName <$> files (addFiles host generateId newFiles s)).
Proof.
  intros Hq Hb. rewrite addFiles_originalNames. apply NoDup_app.
  split; [done|]. split.
  - intros x Hx Hin. apply list_elem_of_fmap in Hin as (f & -> & Hf).
    apply list_elem_of_filter in Hf as [Hf _]. done.
  - clear Hq. induction newFiles as [|f l IH]; [constructor|].
    rewrite fmap_cons in Hb. apply NoDup_cons in Hb as [Hnotin Hl].
    rewrite filter_cons. case_decide; [|by apply IH].
    rewrite fmap_cons. apply NoDup_cons. split; [|by apply IH].
    intros Hin. apply Hnotin.
    apply list_elem_of_fmap in Hin as (g & Hg & Hgl).
    apply list_elem_of_filter in Hgl as [_ Hgl].
    apply list_elem_of_fmap. eauto.
Qed.

(** C3 (the code departs from the claim).  Names are compared with the
    entries queued before the call only: two files called "a.txt" that
    arrive in one batch on an empty queue are both queued, so two entries
    share the original name (and the duplicate pass flags both). *)
Theorem addFiles_keeps_repeated_name_of_batch :
  let s := addFiles (exampleHost 0) (λ k, Js.toString (Z.of_nat k))
             twoFilesOneName initialState in
  originalName <$> files s = ["a.txt"; "a.txt"]
  ∧ fileId <$> files s = ["0"; "1"]
  ∧ ¬ NoDup (originalName <$> files s)
  ∧ errorMessage <$> files s = [Some "Duplicate filename"; Some "Duplicate filename"].
Proof.
  intros s. repeat split.
  intros Hnd. apply NoDup_cons in Hnd as [Hnotin _]. apply Hnotin. by left.
Qed.

(** ** The duplicate pass (C6, and the list part of C5 and C7) *)

Lemma countNames_from (m : gmap string nat) (l : list FileItem) (n : string) :
  default 0 (foldl (λ (nameCount : gmap string nat) file,
               <[newName file := default 0 (nameCount !! newName file) + 1]> nameCount)
               m l !! n)
  = default 0 (m !! n) + length (filter (λ f, newName f = n) l).
Proof.
  revert m. induction l as [|f l IH]; intros m; simpl.
  - by rewrite Nat.add_0_r.
  - rewrite IH, filter_cons. case_decide as Hn.
    + subst n. rewrite lookup_insert_eq. simpl. lia.
    + by rewrite lookup_insert_ne.
Qed.

(** [nameCount.get(n) || 0] is the number of files proposed as [n]. *)
Lemma countNames_lookup (l : list FileItem) (n : string) :
  default 0 (countNames l !! n) = length (filter (λ f, newName f = n) l).
Proof. unfold countNames. by rewrite countNames_from, lookup_empty. Qed.

Lemma filter_nonempty_elem {A} (P : A → Prop) `{!∀ x, Decision (P x)} (l : list A) :
  0 < length (filter P l) ↔ ∃ x, x ∈ l ∧ P x.
Proof.
  split.
  - destruct (filter P l) as [|x l'] eqn:Hf; simpl; [lia|]. intros _.
    assert (Hx : x ∈ filter P l) by (rewrite Hf; by left).
    apply list_elem_of_filter in Hx as [HP Hin]. eauto.
  - intros (x & Hin & HP).
    assert (Hx : x ∈ filter P l) by (by apply list_elem_of_filter).
    destruct (filter P l); [by apply not_elem_of_nil in Hx | simpl; lia].
Qed.

(** A name is counted more than once exactly when another position of
    the list proposes it too. *)
Lemma counted_twice_iff (l : list FileItem) (j : nat) (pj : FileItem) :
  l !! j = Some pj →
  1 < length (filter (λ f, newName f = newName pj) l)
  ↔ ∃ k pk, k ≠ j ∧ l !! k = Some pk ∧ newName pk = newName pj.
Proof.
  intros Hj.
  assert (Hjlt : j < length l) by (by eapply lookup_lt_Some).
  rewrite <- (take_drop_middle l j pj Hj) at 1.
  rewrite filter_app, filter_cons_True, length_app by done. simpl.
  split.
  - intros Hgt.
    destruct (decide (0 < length (filter (λ f, newName f = newName pj) (take j l))))
      as [Ha|Ha].
    + apply filter_nonempty_elem in Ha as (x & Hin & Hx).
      apply list_elem_of_lookup in Hin as [k Hk].
      assert (k < j).
      { apply lookup_lt_Some in Hk. rewrite length_take in Hk. lia. }
      exists k, x. split; [lia|]. split; [|done].
      by rewrite lookup_take_lt in Hk.
    + assert (Hb : 0 < length (filter (λ f, newName f = newName pj) (drop (S j) l)))
        by lia.
      apply filter_nonempty_elem in Hb as (x & Hin & Hx).
      apply list_elem_of_lookup in Hin as [k Hk].
      rewrite lookup_drop in Hk.
      exists (S j + k), x. split; [lia|]. done.
  - intros (k & pk & Hne & Hk & Hname).
    destruct (decide (k < j)) as [Hlt|Hge].
    + assert (0 < length (filter (λ f, newName f = newName pj) (take j l))); [|lia].
      apply filter_nonempty_elem. exists pk. split; [|done].
      apply list_elem_of_lookup. exists k. by rewrite lookup_take_lt.
    + assert (0 < length (filter (λ f, newName f = newName pj) (drop (S j) l))); [|lia].
      apply filter_nonempty_elem. exists pk. split; [|done].
      apply list_elem_of_lookup. exists (k - S j). rewrite lookup_drop.
      by replace (S j + (k - S j)) with k by lia.
Qed.

(** The entry [processFiles] leaves at a position: the file's own
    evaluation, overridden by the duplicate verdict exactly when another
    position proposes the same name. *)
Lemma evaluate_lookup host (fs : list FileItem) ops (j : nat) (g : FileItem) :
  fs !! j = Some g →
  ∃ r, evaluate host fs ops !! j = Some r
       ∧ originalName r = originalName g
       ∧ newName r = outName (processFileName host g ops j)
       ∧ ((∃ k r', k ≠ j ∧ evaluate host fs ops !! k = Some r' ∧ newName r' = newName r)
          → isValid r = false ∧ errorMessage r = Some "Duplicate filename")
       ∧ ((∀ k r', k ≠ j → evaluate host fs ops !! k = Some r' → newName r' ≠ newName r)
          → isValid r = outValid (processFileName host g ops j)
            ∧ errorMessage r = outError (processFileName host g ops j)).
Proof.
  intros Hj. unfold evaluate.
  set (processed := imap (evaluateFile host ops) fs).
  assert (Hp : processed !! j = Some (evaluateFile host ops j g)).
  { unfold processed. by rewrite list_lookup_imap, Hj. }
  assert (Hother : ∀ k r',
            flagDuplicate (countNames processed) <$> processed !! k = Some r'
            → ∃ pk, processed !! k = Some pk ∧ newName pk = newName r').
  { intros k r' Hk. destruct (processed !! k) as [pk|]; [|done].
    simpl in Hk. injection Hk as <-. exists pk.
    by rewrite flagDuplicate_newName. }
  exists (flagDuplicate (countNames processed) (evaluateFile host ops j g)).
  rewrite list_lookup_fmap, Hp.
  split; [done|]. split; [by rewrite flagDuplicate_originalName|].
  split; [by rewrite flagDuplicate_newName|].
  pose proof (counted_twice_iff processed j _ Hp) as Hiff.
  rewrite <- countNames_lookup in Hiff.
  rewrite flagDuplicate_newName. unfold flagDuplicate. split.
  - intros (k & r' & Hne & Hk & Hname).
    rewrite list_lookup_fmap in Hk. apply Hother in Hk as (pk & Hpk & Hpkn).
    rewrite decide_True; [done|].
    apply Hiff. exists k, pk. split; [done|]. split; [done|]. congruence.
  - intros Huniq. rewrite decide_False; [done|].
    intros Hgt. apply Hiff in Hgt as (k & pk & Hne & Hpk & Hname).
    apply (Huniq k (flagDuplicate (countNames processed) pk) Hne).
    + by rewrite list_lookup_fmap, Hpk.
    + by rewrite flagDuplicate_newName.
Qed.

(** Either another position of a list proposes the name found at [j], or
    none does. *)
Lemma collision_or_not (l : list FileItem) (j : nat) (pj : FileItem) :
  l !! j = Some pj →
  (∃ k pk, k ≠ j ∧ l !! k = Some pk ∧ newName pk = newName pj)
  ∨ (∀ k pk, k ≠ j → l !! k = Some pk → newName pk ≠ newName pj).
Proof.
  intros Hj.
  destruct (decide (1 < length (filter (λ f, newName f = newName pj) l))) as [Hgt|Hle].
  - left. by apply (counted_twice_iff l j pj Hj).
  - right. intros k pk Hne Hk Hname. apply Hle.
    apply (counted_twice_iff l j pj Hj). eauto.
Qed.

(** C6.  After [processFiles], the entry of a file carries the proposed
    name of its own evaluation.  If another position of the result carries
    the very same string (extension included, case respected), the entry is
    invalid with the message "Duplicate filename", whatever its own
    evaluation said and also when the proposed name is the original one; if
    no other position does, validity and message are those of its own
    evaluation. *)
Theorem duplicate_pass_overrides_exactly_the_collisions
    host (fs : list FileItem) ops (j : nat) (g : FileItem) :
  fs !! j = Some g →
  ∃ r, evaluate host fs ops !! j = Some r
       ∧ newName r = outName (processFileName host g ops j)
       ∧ ((∃ k r', k ≠ j ∧ evaluate host fs ops !! k = Some r' ∧ newName r' = newName r)
          → isValid r = false ∧ errorMessage r = Some "Duplicate filename")
       ∧ ((∀ k r', k ≠ j → evaluate host fs ops !! k = Some r' → newName r' ≠ newName r)
          → isValid r = outValid (processFileName host g ops j)
            ∧ errorMessage r = outError (processFileName host g ops j)).
Proof.
  intros Hj. destruct (evaluate_lookup host fs ops j g Hj) as (r & Hr & _ & Hrest).
  exists r. split; done.
Qed.

(** An instance: "photo.JPG" and "photo.jpg" after lower-casing the
    extension; the second keeps its name and is flagged all the same. *)
Lemma duplicate_pass_witness :
  photoFiles !! 1 = Some (newFileItem "2" {| name := "photo.jpg"; lastModified := 0 |})
  ∧ ∃ r, evaluate (exampleHost 0) photoFiles [lowerExtensionOp] !! 1 = Some r
         ∧ newName r = "photo.jpg" ∧ newName r = originalName r
         ∧ isValid r = false ∧ errorMessage r = Some "Duplicate filename".
Proof.
  split; [reflexivity|].
  destruct (duplicate_pass_overrides_exactly_the_collisions (exampleHost 0) photoFiles
              [lowerExtensionOp] 1 _ eq_refl) as (r & Hr & Hname & Hdup & _).
  exists r. split; [exact Hr|].
  assert (Hnames : newName r = "photo.jpg" ∧ originalName r = "photo.jpg").
  { vm_compute in Hr. injection Hr as <-. split; reflexivity. }
  destruct Hnames as [Hn Ho].
  split; [exact Hn|]. split; [by rewrite Hn, Ho|].
  apply Hdup. exists 0. eexists. split; [discriminate|].
  split; [vm_compute; reflexivity|]. by rewrite Hn.
Defined.

(** ** Determinism and the clock (C4) *)

Lemma applyOperation_ignores_clock h t1 t2 op file index name ext :
  enabled op = true →
  readsClock op = false →
  applyOperation (withClock h t1) op file index name ext
  = applyOperation (withClock h t2) op file index name ext.
Proof.
  intros Hen Hrc. unfold readsClock in Hrc. rewrite Hen in Hrc. simpl in Hrc.
  unfold applyOperation. destruct (config op) as [c|c|c|c|c|c|c|c|c|c]; try reflexivity.
  unfold applyDateTime. destruct (DateTimeConfig.source c); [done | done | done].
Qed.

Lemma runOperations_ignores_clock h t1 t2 file index ops :
  Forall (λ op, readsClock op = false) ops →
  ∀ name ext,
    runOperations (withClock h t1) file index ops name ext
    = runOperations (withClock h t2) file index ops name ext.
Proof.
  induction 1 as [|op rest Hop _ IH]; intros name ext; simpl; [done|].
  destruct (enabled op) eqn:Hen; simpl; [|apply IH].
  rewrite (applyOperation_ignores_clock h t1 t2) by done.
  destruct (applyOperation _ _ _ _ _ _) as [[n e]|m]; [apply IH | done].
Qed.

(** C4 (the claim as stated fails).  With the default date-time operation
    (source 'current', format YYYY-MM-DD) the same file and the same
    pipeline evaluate to "1970-01-01_a.txt" when the clock reads 0 and to
    "1970-01-02_a.txt" one day later: the outcome depends on the reading of
    the clock, which is not among the inputs. *)
Lemma evaluate_depends_on_clock :
  newName <$> evaluate (exampleHost 0) oneFile [dateOp] = ["1970-01-01_a.txt"]
  ∧ newName <$> evaluate (exampleHost 86400000) oneFile [dateOp] = ["1970-01-02_a.txt"]
  ∧ evaluate (exampleHost 0) oneFile [dateOp]
    ≠ evaluate (exampleHost 86400000) oneFile [dateOp].
Proof.
  split; [vm_compute; reflexivity|]. split; [vm_compute; reflexivity|].
  intros Heq. vm_compute in Heq. discriminate.
Qed.

(** C4, amended.  When no enabled date-time operation of the pipeline has
    source 'current', two evaluations of the same files and pipeline give
    the same per-file results whatever the clock reads at either time.  (A
    pipeline with such an operation depends, besides its inputs, on the
    clock reading of the evaluation.) *)
Theorem evaluate_deterministic_without_current_date
    (h : Host) (t1 t2 : Z) (fs : list FileItem) (ops : list Operation) :
  Forall (λ op, readsClock op = false) ops →
  evaluate (withClock h t1) fs ops = evaluate (withClock h t2) fs ops.
Proof.
  intros Hops.
  assert (Heq : imap (evaluateFile (withClock h t1) ops) fs
                = imap (evaluateFile (withClock h t2) ops) fs).
  { apply imap_ext. intros i f _. unfold evaluateFile, processFileName.
    by rewrite (runOperations_ignores_clock h t1 t2). }
  unfold evaluate. by rewrite Heq.
Qed.

(** An instance: a modification-date suffix and a disabled current-date
    operation, evaluated a day apart. *)
Lemma evaluate_deterministic_witness :
  Forall (λ op, readsClock op = false) [modifiedDateOp; disabledDateOp]
  ∧ evaluate (withClock (exampleHost 0) 0) oneFile [modifiedDateOp; disabledDateOp]
    = evaluate (withClock (exampleHost 0) 86400000) oneFile [modifiedDateOp; disabledDateOp].
Proof.
  split.
  - repeat constructor.
  - apply evaluate_deterministic_without_current_date. repeat constructor.
Defined.

(** ** Failure of a transformer (C5) *)

Lemma runOperations_throw host file index pre op post message :
  enabled op = true →
  ∀ name ext n e,
    foldOperations host file index pre name ext = Normal (n, e) →
    applyOperation host op file index n e = Throw message →
    runOperations host file index (pre ++ op :: post) name ext
    = {| outName := originalName file; outValid := false;
         outError := Some ("Error in " +:+ typeName (type op) +:+ ": " +:+ message) |}.
Proof.
  intros Hen. induction pre as [|p pre IH]; intros name ext n e Hfold Hthrow; simpl in *.
  - injection Hfold as -> ->. by rewrite Hen, Hthrow.
  - destruct (enabled p); simpl in *; [|by eapply IH].
    destruct (applyOperation host p file index name ext) as [[n' e']|m]; [|done].
    simpl in Hfold. by eapply IH.
Qed.

(** [foldOperations] is the state of the loop: when no operation throws,
    the loop ends in the checks on what it computes. *)
Lemma runOperations_normal host file index ops :
  ∀ name ext n e,
    foldOperations host file index ops name ext = Normal (n, e) →
    runOperations host file index ops name ext = validate n e.
Proof.
  induction ops as [|op rest IH]; intros name ext n e Hfold; simpl in *.
  - by injection Hfold as -> ->.
  - destruct (enabled op); simpl in *; [|by apply IH].
    destruct (applyOperation host op file index name ext) as [[n' e']|m]; [|done].
    by apply IH.
Qed.

(** The loop without the checks that follow it: an operation that throws
    ends it. *)
Lemma foldOperations_throw host file index pre op post message :
  enabled op = true →
  ∀ name ext n e,
    foldOperations host file index pre name ext = Normal (n, e) →
    applyOperation host op file index n e = Throw message →
    foldOperations host file index (pre ++ op :: post) name ext = Throw message.
Proof.
  intros Hen. induction pre as [|p pre IH]; intros name ext n e Hfold Hthrow; simpl in *.
  - injection Hfold as -> ->. by rewrite Hen, Hthrow.
  - destruct (enabled p); simpl in *; [|by eapply IH].
    destruct (applyOperation host p file index name ext) as [[n' e']|m]; [|done].
    simpl in *. by eapply IH.
Qed.

(** [processFiles] throws exactly when [processFileName] does for one of
    the files. *)
Lemma processFilesThrows_iff host (fs : list FileItem) (ops : list Operation) :
  processFilesThrows host fs ops = true
  ↔ ∃ k g, fs !! k = Some g ∧ processFileNameThrows host g ops k = true.
Proof.
  unfold processFilesThrows. rewrite existsb_exists. split.
  - intros (b & Hin & Hb). subst b.
    apply list_elem_of_In, list_elem_of_lookup in Hin as [k Hk].
    rewrite list_lookup_imap in Hk.
    destruct (fs !! k) as [g|] eqn:Hg; [|done]. simpl in Hk.
    exists k, g. split; [done|]. by injection Hk.
  - intros (k & g & Hg & Hthrows). exists true. split; [|done].
    apply list_elem_of_In, list_elem_of_lookup. exists k.
    by rewrite list_lookup_imap, Hg, <- Hthrows.
Qed.

(** The entry of a position after [processFiles], in terms of what
    [processFileName] proposes for the files of the list: the entry is
    flagged exactly when another position proposes the same name. *)
Lemma evaluate_entry host (fs : list FileItem) (ops : list Operation) (k : nat)
    (g : FileItem) :
  fs !! k = Some g →
  ∃ r, evaluate host fs ops !! k = Some r
       ∧ originalName r = originalName g
       ∧ newName r = outName (processFileName host g ops k)
       ∧ ((∃ l h, l ≠ k ∧ fs !! l = Some h
                  ∧ outName (processFileName host h ops l)
                    = outName (processFileName host g ops k))
          → isValid r = false ∧ errorMessage r = Some "Duplicate filename")
       ∧ ((∀ l h, l ≠ k → fs !! l = Some h
                  → outName (processFileName host h ops l)
                    ≠ outName (processFileName host g ops k))
          → isValid r = outValid (processFileName host g ops k)
            ∧ errorMessage r = outError (processFileName host g ops k)).
Proof.
  intros Hk.
  destruct (evaluate_lookup host fs ops k g Hk) as (r & Hr & Horig & Hname & Hdup & Huniq).
  exists r. split; [done|]. split; [done|]. split; [done|]. split.
  - intros (l & h & Hne & Hl & Hsame). apply Hdup.
    destruct (evaluate_lookup host fs ops l h Hl) as (r' & Hr' & _ & Hname' & _).
    exists l, r'. split; [done|]. split; [done|]. congruence.
  - intros Hnone. apply Huniq. intros l r' Hne Hr' Hsame.
    assert (Hlt : l < length fs).
    { apply lookup_lt_Some in Hr'. by rewrite evaluate_length in Hr'. }
    apply lookup_lt_is_Some in Hlt as [h Hl].
    destruct (evaluate_lookup host fs ops l h Hl) as (r'' & Hr'' & _ & Hname'' & _).
    rewrite Hr' in Hr''. injection Hr'' as <-.
    apply (Hnone l h Hne Hl). congruence.
Qed.

(** C5 (the claim as stated fails).  In an engine whose strings hold two
    code units, the prefix "x" fits the file "b" and not the file "xb": the
    transformer throws for the second file, whose proposed name is reset to
    "xb", the very name proposed for the first.  The duplicate pass then
    flags both: the entry of the failing file does not carry the kind and
    the thrown message, and the first file, valid by its own evaluation,
    is invalid because the second failed (with room for three code units
    the second does not fail and both are valid).  In a browser of today,
    a padding beyond the string limit fails for every file, and two files
    of one name that came in one batch show "Duplicate filename" in place
    of the error of the operation. *)
Lemma transformer_failure_reaches_another_file :
  processFileName (smallHost 2) (newFileItem "2" {| name := "xb"; lastModified := 0 |})
    [prefixXOp] 1
  = {| outName := "xb"; outValid := false;
       outError := Some "Error in prefix: Invalid string length" |}
  ∧ processFileName (smallHost 2) (newFileItem "1" {| name := "b"; lastModified := 0 |})
      [prefixXOp] 0
    = {| outName := "xb"; outValid := true; outError := None |}
  ∧ processFilesThrows (smallHost 2) shortNames [prefixXOp] = false
  ∧ newName <$> evaluate (smallHost 2) shortNames [prefixXOp] = ["xb"; "xb"]
  ∧ isValid <$> evaluate (smallHost 2) shortNames [prefixXOp] = [false; false]
  ∧ errorMessage <$> evaluate (smallHost 2) shortNames [prefixXOp]
    = [Some "Duplicate filename"; Some "Duplicate filename"]
  ∧ newName <$> evaluate (smallHost 3) shortNames [prefixXOp] = ["xb"; "xxb"]
  ∧ isValid <$> evaluate (smallHost 3) shortNames [prefixXOp] = [true; true]
  ∧ outError (processFileName (exampleHost 0)
                (newFileItem "0" {| name := "a.txt"; lastModified := 0 |})
                [hugePaddingOp] 0)
    = Some "Error in prefix: Invalid string length"
  ∧ errorMessage <$> evaluate (exampleHost 0) sameNameFiles [hugePaddingOp]
    = [Some "Duplicate filename"; Some "Duplicate filename"].
Proof. repeat split; vm_compute; reflexivity. Qed.

(** C5, amended.  If an enabled operation throws when its turn comes (the
    enabled operations before it having returned), [processFileName]
    returns the original name, invalid, with the message "Error in <kind>:
    <thrown message>", the kind being the string the source has for it;
    this file never makes [processFiles] throw.  When [processFiles]
    returns, the entry of the failing file carries its original name and is
    invalid, and the entry of every other file carries the name that its
    own evaluation proposes, in which the failing file has no part.  An
    entry, that of the failing file included, has the validity and the
    message of its own evaluation unless another position of the list
    proposes the same name (the failing file proposes its original name):
    then it is invalid with the message "Duplicate filename". *)
Theorem transformer_failure_is_contained
    host (fs : list FileItem) (j : nat) (file : FileItem)
    (pre post : list Operation) (op : Operation) (n e message : string) :
  fs !! j = Some file →
  enabled op = true →
  foldOperations host file j pre (baseName (originalName file)) (extension file)
  = Normal (n, e) →
  applyOperation host op file j n e = Throw message →
  let ops := pre ++ op :: post in
  let failure := "Error in " +:+ typeName (type op) +:+ ": " +:+ message in
  let proposed k g := outName (processFileName host g ops k) in
  processFileName host file ops j
  = {| outName := originalName file; outValid := false; outError := Some failure |}
  ∧ typeName <$> [TyFindReplace; TyPrefix; TySuffix; TyRemoveChars; TyCaseChange;
                  TyNumbering; TyDateTime; TyRegex; TyTrim; TyExtension]
    = ["find-replace"; "prefix"; "suffix"; "remove-chars"; "case-change";
       "numbering"; "date-time"; "regex"; "trim"; "extension"]
  ∧ processFileNameThrows host file ops j = false
  ∧ (processFilesThrows host fs ops = true
     → ∃ k g, k ≠ j ∧ fs !! k = Some g ∧ processFileNameThrows host g ops k = true)
  ∧ (processFilesThrows host fs ops = false →
     length (evaluate host fs ops) = length fs
     ∧ (∃ r, evaluate host fs ops !! j = Some r
             ∧ originalName r = originalName file
             ∧ newName r = originalName file
             ∧ isValid r = false
             ∧ ((∃ l h, l ≠ j ∧ fs !! l = Some h ∧ proposed l h = originalName file)
                → errorMessage r = Some "Duplicate filename")
             ∧ ((∀ l h, l ≠ j → fs !! l = Some h → proposed l h ≠ originalName file)
                → errorMessage r = Some failure))
     ∧ ∀ k g, k ≠ j → fs !! k = Some g →
         ∃ r, evaluate host fs ops !! k = Some r
              ∧ originalName r = originalName g
              ∧ newName r = proposed k g
              ∧ ((∃ l h, l ≠ k ∧ fs !! l = Some h ∧ proposed l h = proposed k g)
                 → isValid r = false ∧ errorMessage r = Some "Duplicate filename")
              ∧ ((∀ l h, l ≠ k → fs !! l = Some h → proposed l h ≠ proposed k g)
                 → isValid r = outValid (processFileName host g ops k)
                   ∧ errorMessage r = outError (processFileName host g ops k))).
Proof.
  intros Hj Hen Hfold Hthrow ops failure proposed.
  assert (Hown : processFileName host file ops j
                 = {| outName := originalName file; outValid := false;
                      outError := Some failure |}).
  { unfold processFileName, ops. by eapply runOperations_throw. }
  assert (Hquiet : processFileNameThrows host file ops j = false).
  { unfold processFileNameThrows, ops.
    by rewrite (foldOperations_throw host file j pre op post message Hen _ _ n e). }
  split; [exact Hown|]. split; [reflexivity|]. split; [exact Hquiet|]. split.
  - intros Hthrows. apply processFilesThrows_iff in Hthrows as (k & g & Hk & Hg).
    exists k, g. split; [|done]. intros ->.
    rewrite Hj in Hk. injection Hk as <-. congruence.
  - intros _. split; [apply evaluate_length|]. split.
    + destruct (evaluate_entry host fs ops j file Hj)
        as (r & Hr & Horig & Hname & Hdup & Huniq).
      rewrite Hown in Hname, Hdup, Huniq. simpl in Hname, Hdup, Huniq.
      exists r. split; [done|]. split; [done|]. split; [done|]. split; [|split].
      * destruct (collision_or_not (evaluate host fs ops) j r Hr) as [Hc|Hnc].
        -- destruct (evaluate_lookup host fs ops j file Hj)
             as (r0 & Hr0 & _ & _ & Hdup0 & _).
           rewrite Hr in Hr0. injection Hr0 as <-. by apply Hdup0.
        -- destruct (evaluate_lookup host fs ops j file Hj)
             as (r0 & Hr0 & _ & _ & _ & Huniq0).
           rewrite Hr in Hr0. injection Hr0 as <-.
           destruct (Huniq0 Hnc) as [Hv _]. by rewrite Hown in Hv.
      * intros Hc. by apply Hdup.
      * intros Hnc. by apply Huniq.
    + intros k g _ Hk. apply (evaluate_entry host fs ops k g Hk).
Qed.

(** An instance: after an upper-casing operation, a prefix counter
    whose padding exceeds the string limit throws a [RangeError]. *)
Lemma transformer_failure_witness :
  photoFiles !! 0 = Some (newFileItem "1" {| name := "photo.JPG"; lastModified := 0 |})
  ∧ processFileName (exampleHost 0)
      (newFileItem "1" {| name := "photo.JPG"; lastModified := 0 |})
      ([upperCaseOp] ++ hugePaddingOp :: [dateOp]) 0
    = {| outName := "photo.JPG"; outValid := false;
         outError := Some "Error in prefix: Invalid string length" |}
  ∧ processFilesThrows (exampleHost 0) photoFiles
      ([upperCaseOp] ++ hugePaddingOp :: [dateOp]) = false.
Proof.
  destruct (transformer_failure_is_contained (exampleHost 0) photoFiles 0
              (newFileItem "1" {| name := "photo.JPG"; lastModified := 0 |})
              [upperCaseOp] [dateOp] hugePaddingOp "PHOTO" ".JPG"
              "Invalid string length" eq_refl eq_refl eq_refl eq_refl)
    as (Hfile & _).
  split; [reflexivity|]. split; [exact Hfile|]. vm_compute. reflexivity.
Defined.

(** ** Disabled pipelines (C7) *)

Lemma length_nonneg (s : string) : (0 ≤ Js.length s)%Z.
Proof. unfold Js.length. lia. Qed.

Lemma substring_0 (s : string) (k : Z) :
  (0 ≤ k)%Z → Js.substring s 0 k = Js.take (Z.to_nat (Z.min k (Js.length s))) s.
Proof.
  intros Hk. pose proof (length_nonneg s) as Hl. unfold Js.substring, Js.clamp.
  replace (Z.min (Z.max 0 0) (Js.length s)) with 0%Z by lia.
  replace (Z.max k 0) with k by lia.
  replace (Z.min 0 (Z.min k (Js.length s))) with 0%Z by lia.
  replace (Z.max 0 (Z.min k (Js.length s)) - 0)%Z with (Z.min k (Js.length s)) by lia.
  done.
Qed.

Lemma substringFrom_drop (s : string) (k : Z) :
  (0 ≤ k)%Z → Js.substringFrom s k = Js.drop (Z.to_nat (Z.min k (Js.length s))) s.
Proof.
  intros Hk. pose proof (length_nonneg s) as Hl.
  unfold Js.substringFrom, Js.substring, Js.clamp.
  replace (Z.max k 0) with k by lia.
  replace (Z.min (Z.max (Js.length s) 0) (Js.length s)) with (Js.length s) by lia.
  replace (Z.min (Z.min k (Js.length s)) (Js.length s)) with (Z.min k (Js.length s)) by lia.
  apply take_all_str. rewrite length_drop_str. unfold Js.length in *. lia.
Qed.

(** The base name and the extension derived at ingestion make up the name. *)
Lemma baseName_extensionOf (n : string) : baseName n +:+ extensionOf n = n.
Proof.
  unfold baseName, extensionOf.
  destruct (0 <? Js.lastIndexOf n ".")%Z eqn:Hdot; [|apply app_empty_r].
  apply Z.ltb_lt in Hdot.
  rewrite substring_0, substringFrom_drop by lia. apply take_drop_str.
Qed.

Lemma runOperations_disabled host file index ops name ext :
  Forall (λ op, enabled op = false) ops →
  runOperations host file index ops name ext = validate name ext.
Proof.
  induction 1 as [|op rest Hop _ IH]; simpl; [done|]. by rewrite Hop.
Qed.

(** Every entry of the queue is one: [addFiles] builds them so and
    evaluation leaves name and extension alone. *)
Lemma evaluate_ingested host fs ops :
  Forall ingested fs → Forall ingested (evaluate host fs ops).
Proof.
  intros Hfs. apply Forall_lookup. intros i r Hr.
  unfold evaluate in Hr. rewrite list_lookup_fmap, list_lookup_imap in Hr.
  destruct (fs !! i) as [g|] eqn:Hg; [|done]. simpl in Hr. injection Hr as <-.
  eapply Forall_lookup_1 in Hfs; [|done].
  unfold ingested, flagDuplicate in *. by case_decide.
Qed.

Lemma addFiles_ingested host generateId newFiles s :
  Forall ingested (files s) →
  Forall ingested (files (addFiles host generateId newFiles s)).
Proof.
  intros Hs. unfold addFiles, processFiles. simpl.
  apply evaluate_ingested, Forall_app. split; [done|].
  apply Forall_lookup. intros i r Hr.
  rewrite list_lookup_imap in Hr.
  destruct (filter _ newFiles !! i); [|done]. simpl in Hr. by injection Hr as <-.
Qed.

Lemma processFileName_disabled host f ops index :
  Forall (λ op, enabled op = false) ops →
  ingested f →
  processFileName host f ops index
  = validate (baseName (originalName f)) (extensionOf (originalName f))
  ∧ outName (processFileName host f ops index) = originalName f.
Proof.
  intros Hops Hf. unfold processFileName. rewrite runOperations_disabled, Hf by done.
  split; [done|]. unfold validate.
  rewrite baseName_extensionOf. by repeat case_match.
Qed.

Lemma validate_valid_iff name ext :
  outValid (validate name ext) = true
  ↔ hasInvalidChars (name +:+ ext) = false ∧ Js.trim name ≠ EmptyString.
Proof.
  unfold validate. destruct (hasInvalidChars _); simpl.
  - split; [done | by intros [? _]].
  - destruct (Js.trim name); simpl; [split; [done | by intros [_ ?]] | done].
Qed.

(** C7 (the claim as stated fails).  A file called "a:b.txt", alone in the
    queue, evaluated with an empty pipeline or with one disabled operation,
    keeps its name but is marked invalid: the character check runs on
    unchanged names too.  So does the check of the base name: " .txt" is
    invalid as well. *)
Lemma disabled_pipeline_can_be_invalid :
  (newName <$> evaluate (exampleHost 0) colonFile [] = ["a:b.txt"]
   ∧ isValid <$> evaluate (exampleHost 0) colonFile [] = [false]
   ∧ errorMessage <$> evaluate (exampleHost 0) colonFile []
     = [Some "Filename contains invalid characters"])
  ∧ isValid <$> evaluate (exampleHost 0) colonFile [disabledDateOp] = [false]
  ∧ errorMessage <$> evaluate (exampleHost 0)
      [newFileItem "2" {| name := " .txt"; lastModified := 0 |}] []
    = [Some "Filename cannot be empty"].
Proof. repeat split; vm_compute; reflexivity. Qed.

Lemma foldOperations_disabled host file index ops name ext :
  Forall (λ op, enabled op = false) ops →
  foldOperations host file index ops name ext = Normal (name, ext).
Proof.
  induction 1 as [|op rest Hop _ IH]; simpl; [done|]. by rewrite Hop.
Qed.

(** C7, amended.  With a pipeline that is empty or whose operations are
    all disabled, every queued file (an entry as ingestion builds it) is
    proposed its original name, and it is marked valid exactly when that
    name holds no illegal character, its base name is not blank (white
    space only, the no-break space included, is blank), and no other
    queued file has the same original name.  The evaluation of a file
    whose name the engine holds does not throw. *)
Theorem disabled_pipeline_is_identity
    host (fs : list FileItem) (ops : list Operation) (j : nat) (g : FileItem) :
  Forall (λ op, enabled op = false) ops →
  Forall ingested fs →
  fs !! j = Some g →
  (∃ r, evaluate host fs ops !! j = Some r
        ∧ newName r = originalName g
        ∧ (isValid r = true
           ↔ hasInvalidChars (originalName g) = false
             ∧ Js.trim (baseName (originalName g)) ≠ EmptyString
             ∧ ∀ k g', k ≠ j → fs !! k = Some g' → originalName g' ≠ originalName g))
  ∧ (fits host (originalName g) = true → processFileNameThrows host g ops j = false).
Proof.
  intros Hops Hfs Hj. split; cycle 1.
  { intros Hfits. unfold processFileNameThrows, joinName.
    rewrite foldOperations_disabled by done.
    eapply Forall_lookup_1 in Hfs; [|done]. rewrite Hfs, baseName_extensionOf.
    by rewrite built_fits. }
  assert (Hown : ∀ k f, fs !! k = Some f →
            processFileName host f ops k
            = validate (baseName (originalName f)) (extensionOf (originalName f))
            ∧ outName (processFileName host f ops k) = originalName f).
  { intros k f Hk. apply processFileName_disabled; [done|].
    eapply Forall_lookup_1 in Hfs; eauto. }
  destruct (evaluate_lookup host fs ops j g Hj) as (r & Hr & _ & Hname & Hdup & Huniq).
  destruct (Hown j g Hj) as [Hval Hout]. rewrite Hout in Hname.
  exists r. split; [done|]. split; [done|].
  (* the proposed names of the other positions are their original names *)
  assert (Hnames : ∀ k r', evaluate host fs ops !! k = Some r' →
            ∃ g', fs !! k = Some g' ∧ newName r' = originalName g').
  { intros k r' Hk.
    assert (Hlt : k < length fs).
    { apply lookup_lt_Some in Hk. by rewrite evaluate_length in Hk. }
    apply lookup_lt_is_Some in Hlt as [g' Hg'].
    destruct (evaluate_lookup host fs ops k g' Hg') as (r'' & Hr'' & _ & Hn'' & _).
    rewrite Hk in Hr''. injection Hr'' as <-.
    exists g'. split; [done|]. rewrite Hn''. by apply Hown. }
  rewrite Hval in Huniq. split.
  - intros Hvalid.
    destruct (collision_or_not (evaluate host fs ops) j r Hr) as [Hc|Hnc].
    + apply Hdup in Hc as [Hc _]. congruence.
    + destruct (Huniq Hnc) as [Hv _]. rewrite Hvalid in Hv.
      symmetry in Hv. apply validate_valid_iff in Hv as [Hchars Hblank].
      rewrite baseName_extensionOf in Hchars. split; [done|]. split; [done|].
      intros k g' Hne Hk Hsame.
      assert (Hlt : k < length (evaluate host fs ops)).
      { rewrite evaluate_length. by eapply lookup_lt_Some. }
      apply lookup_lt_is_Some in Hlt as [r' Hr'].
      destruct (Hnames k r' Hr') as (g'' & Hg'' & Hn').
      rewrite Hk in Hg''. injection Hg'' as <-.
      apply (Hnc k r' Hne Hr'). congruence.
  - intros (Hchars & Hblank & Hothers).
    assert (Hnc : ∀ k r', k ≠ j → evaluate host fs ops !! k = Some r'
                          → newName r' ≠ newName r).
    { intros k r' Hne Hk Hsame. destruct (Hnames k r' Hk) as (g' & Hg' & Hn').
      apply (Hothers k g' Hne Hg'). congruence. }
    destruct (Huniq Hnc) as [Hv _]. rewrite Hv.
    apply validate_valid_iff. by rewrite baseName_extensionOf.
Qed.

(** An instance: three files under one disabled operation. *)
Lemma disabled_pipeline_witness :
  Forall (λ op, enabled op = false) [disabledDateOp]
  ∧ Forall ingested photoFiles
  ∧ ∃ r, evaluate (exampleHost 0) photoFiles [disabledDateOp] !! 0 = Some r
         ∧ newName r = "photo.JPG".
Proof.
  split; [repeat constructor|]. split; [repeat constructor|].
  destruct (disabled_pipeline_is_identity (exampleHost 0) photoFiles [disabledDateOp] 0 _
              ltac:(repeat constructor) ltac:(repeat constructor) eq_refl)
    as [(r & Hr & Hname & _) _].
  exists r. split; [exact Hr | exact Hname].
Defined.

(** ** Prefix and suffix counters (C8) *)

(** C8 (the code departs from the claim).  The text "S01E" holds no [N],
    so the claim wants the counter appended: "S01E01" for the first file.
    The code appends it only if the text does not already contain the
    padded counter as a substring; "S01E" contains "01", so the first file
    gets "S01E" alone, while the second gets "S01E02". *)
Theorem prefix_counter_dropped_when_text_contains_it :
  applyPrefixSuffix (exampleHost 0) "pilot" episodeConfig 0 = Normal "S01Epilot"
  ∧ applyPrefixSuffix (exampleHost 0) "pilot" episodeConfig 0 ≠ Normal "S01E01pilot"
  ∧ applyPrefixSuffix (exampleHost 0) "second" episodeConfig 1 = Normal "S01E02second"
  ∧ newName <$> evaluate (exampleHost 0) twoEpisodes [episodeOp]
    = ["S01Epilot.mkv"; "S01E02second.mkv"].
Proof. repeat split; try (vm_compute; reflexivity). discriminate. Qed.

(** ** Removing characters (C9) *)

Lemma sliceFrom_drop (s : string) (n : Z) :
  (0 ≤ n)%Z → Js.sliceFrom s n = Js.drop (Z.to_nat n) s.
Proof.
  intros Hn. pose proof (length_nonneg s) as Hl.
  unfold Js.sliceFrom, Js.slice, Js.relative.
  destruct (n <? 0)%Z eqn:Hneg; [apply Z.ltb_lt in Hneg; lia|].
  destruct (Js.length s <? 0)%Z eqn:Hneg'; [apply Z.ltb_lt in Hneg'; lia|].
  rewrite take_all_str.
  - destruct (decide (n ≤ Js.length s)%Z) as [Hle|Hgt].
    + by replace (Z.min n (Js.length s)) with n by lia.
    + replace (Z.min n (Js.length s)) with (Js.length s) by lia.
      rewrite !drop_all_str; [done | | ]; unfold Js.length in *; lia.
  - rewrite length_drop_str. unfold Js.length in *. lia.
Qed.

Lemma slice_0_take (s : string) (e : Z) :
  (0 ≤ e)%Z → Js.slice s 0 e = Js.take (Z.to_nat e) s.
Proof.
  intros He. pose proof (length_nonneg s) as Hl.
  unfold Js.slice, Js.relative. simpl.
  destruct (e <? 0)%Z eqn:Hneg; [apply Z.ltb_lt in Hneg; lia|].
  replace (Z.min 0 (Js.length s)) with 0%Z by lia. simpl.
  destruct (decide (e ≤ Js.length s)%Z) as [Hle|Hgt].
  - f_equal. lia.
  - rewrite !take_all_str; [done | | ]; unfold Js.length in *; lia.
Qed.

Lemma slice_0_minus (s : string) (n : Z) :
  (0 < n)%Z → Js.slice s 0 (- n) = Js.take (String.length s - Z.to_nat n) s.
Proof.
  intros Hn. pose proof (length_nonneg s) as Hl.
  unfold Js.slice, Js.relative. simpl.
  destruct (- n <? 0)%Z eqn:Hneg; [|apply Z.ltb_ge in Hneg; lia].
  replace (Z.min 0 (Js.length s)) with 0%Z by lia. simpl.
  f_equal. unfold Js.length in *. lia.
Qed.

(** Outside ordered, non-negative values: with startIndex 4 and endIndex 2
    "abcdef" becomes "abcdcdef", the part before 4 and the part from 2
    overlapping; with a negative count, first-n keeps the last characters
    instead of dropping first ones. *)
Lemma removeChars_outside_ordered_indices :
  applyRemoveChars (exampleHost 0) "abcdef"
    {| RemoveCharsConfig.mode := Range; RemoveCharsConfig.count := 0;
       RemoveCharsConfig.startIndex := 4; RemoveCharsConfig.endIndex := 2;
       RemoveCharsConfig.characters := EmptyString;
       RemoveCharsConfig.pattern := EmptyString |} = "abcdcdef"
  ∧ applyRemoveChars (exampleHost 0) "abcdef"
      {| RemoveCharsConfig.mode := FirstN; RemoveCharsConfig.count := -2;
         RemoveCharsConfig.startIndex := 0; RemoveCharsConfig.endIndex := 0;
         RemoveCharsConfig.characters := EmptyString;
         RemoveCharsConfig.pattern := EmptyString |} = "ef".
Proof. split; reflexivity. Qed.

(** What the five modes do for a count that is not negative and indices
    with 0 <= startIndex <= endIndex: 'first-n' drops the first N
    characters; 'last-n' drops the last N, and nothing when N is 0; 'range'
    keeps what is before startIndex and what is from endIndex on;
    'specific' keeps the characters that are not listed; 'pattern' is the
    global replacement of the pattern by the empty string, and the name
    itself when the pattern is rejected. *)
Lemma removeChars_modes host (name : string) (cfg : RemoveCharsConfig.t) :
  (RemoveCharsConfig.mode cfg = FirstN ∨ RemoveCharsConfig.mode cfg = LastN
   → 0 ≤ RemoveCharsConfig.count cfg)%Z →
  (RemoveCharsConfig.mode cfg = Range
   → 0 ≤ RemoveCharsConfig.startIndex cfg ≤ RemoveCharsConfig.endIndex cfg)%Z →
  match RemoveCharsConfig.mode cfg with
  | FirstN =>
      applyRemoveChars host name cfg
      = Js.drop (Z.to_nat (RemoveCharsConfig.count cfg)) name
  | LastN =>
      applyRemoveChars host name cfg
      = Js.take (String.length name - Z.to_nat (RemoveCharsConfig.count cfg)) name
      ∧ (RemoveCharsConfig.count cfg = 0%Z → applyRemoveChars host name cfg = name)
  | Range =>
      applyRemoveChars host name cfg
      = Js.take (Z.to_nat (RemoveCharsConfig.startIndex cfg)) name
        +:+ Js.drop (Z.to_nat (RemoveCharsConfig.endIndex cfg)) name
  | Specific =>
      applyRemoveChars host name cfg
      = Js.filter (λ c, negb (Js.existsb (λ d, bool_decide (d = c))
                                (RemoveCharsConfig.characters cfg))) name
  | Pattern =>
      match regExpReplace host (RemoveCharsConfig.pattern cfg) "g" name EmptyString with
      | Normal removed => applyRemoveChars host name cfg = removed
      | Throw _ => applyRemoveChars host name cfg = name
      end
  end.
Proof.
  intros Hcount Hrange. unfold applyRemoveChars.
  destruct (RemoveCharsConfig.mode cfg) eqn:Hmode.
  - apply sliceFrom_drop. auto.
  - assert (Hc : (0 ≤ RemoveCharsConfig.count cfg)%Z) by auto.
    destruct (RemoveCharsConfig.count cfg =? 0)%Z eqn:Hz.
    + apply Z.eqb_eq in Hz. rewrite Hz.
      rewrite slice_0_take by apply length_nonneg.
      unfold Js.length. rewrite Nat2Z.id. simpl. rewrite Nat.sub_0_r.
      split; [done|]. intros _. by apply take_all_str.
    + apply Z.eqb_neq in Hz. rewrite slice_0_minus by lia. split; [done | lia].
  - destruct Hrange as [Hs He]; [done|].
    rewrite slice_0_take, sliceFrom_drop by lia. done.
  - done.
  - by destruct (regExpReplace host _ _ _ _).
Qed.

(** Instances: the range [2, 4) of "abcdef", and last-n with N = 0. *)
Lemma removeChars_modes_witness :
  applyRemoveChars (exampleHost 0) "abcdef"
    {| RemoveCharsConfig.mode := Range; RemoveCharsConfig.count := 0;
       RemoveCharsConfig.startIndex := 2; RemoveCharsConfig.endIndex := 4;
       RemoveCharsConfig.characters := EmptyString;
       RemoveCharsConfig.pattern := EmptyString |} = "abef"
  ∧ applyRemoveChars (exampleHost 0) "abcdef"
      {| RemoveCharsConfig.mode := LastN; RemoveCharsConfig.count := 0;
         RemoveCharsConfig.startIndex := 0; RemoveCharsConfig.endIndex := 0;
         RemoveCharsConfig.characters := EmptyString;
         RemoveCharsConfig.pattern := EmptyString |} = "abcdef".
Proof.
  split.
  - apply (removeChars_modes (exampleHost 0) "abcdef"
             {| RemoveCharsConfig.mode := Range; RemoveCharsConfig.count := 0;
                RemoveCharsConfig.startIndex := 2; RemoveCharsConfig.endIndex := 4;
                RemoveCharsConfig.characters := EmptyString;
                RemoveCharsConfig.pattern := EmptyString |}); simpl; [lia | lia].
  - apply (removeChars_modes (exampleHost 0) "abcdef"
             {| RemoveCharsConfig.mode := LastN; RemoveCharsConfig.count := 0;
                RemoveCharsConfig.startIndex := 0; RemoveCharsConfig.endIndex := 0;
                RemoveCharsConfig.characters := EmptyString;
                RemoveCharsConfig.pattern := EmptyString |}); simpl; [lia | | done].
    intros Hm. discriminate.
Defined.

Lemma length_take_str (n : nat) (s : string) :
  String.length (Js.take n s) = n `min` String.length s.
Proof.
  revert s. induction n as [|n IH]; intros [|c s]; simpl; try done.
  by rewrite IH.
Qed.

(** C9 (the code departs from the claim).  In the mode 'range' with the
    end index before the start index, both inside the name, the range
    [startIndex, endIndex) holds no index and the claim has the name come
    back unchanged.  The code keeps what is before startIndex and what is
    from endIndex on, two parts that overlap: nothing is removed, and the
    characters between the two indices appear twice, so that the operation
    that removes characters returns a longer name. *)
Theorem removeChars_inverted_range_lengthens
    host (name : string) (cfg : RemoveCharsConfig.t) :
  RemoveCharsConfig.mode cfg = Range →
  (0 ≤ RemoveCharsConfig.endIndex cfg < RemoveCharsConfig.startIndex cfg)%Z →
  (RemoveCharsConfig.startIndex cfg ≤ Js.length name)%Z →
  applyRemoveChars host name cfg
  = Js.take (Z.to_nat (RemoveCharsConfig.startIndex cfg)) name
    +:+ Js.drop (Z.to_nat (RemoveCharsConfig.endIndex cfg)) name
  ∧ String.length (applyRemoveChars host name cfg)
    = String.length name
      + Z.to_nat (RemoveCharsConfig.startIndex cfg - RemoveCharsConfig.endIndex cfg)
  ∧ String.length name < String.length (applyRemoveChars host name cfg)
  ∧ applyRemoveChars host name cfg ≠ name.
Proof.
  intros Hmode Horder Hinside.
  assert (Heq : applyRemoveChars host name cfg
                = Js.take (Z.to_nat (RemoveCharsConfig.startIndex cfg)) name
                  +:+ Js.drop (Z.to_nat (RemoveCharsConfig.endIndex cfg)) name).
  { unfold applyRemoveChars. rewrite Hmode.
    by rewrite slice_0_take, sliceFrom_drop by lia. }
  assert (Hlen : String.length (applyRemoveChars host name cfg)
                 = String.length name
                   + Z.to_nat (RemoveCharsConfig.startIndex cfg
                               - RemoveCharsConfig.endIndex cfg)).
  { rewrite Heq, length_app_str, length_take_str, length_drop_str.
    unfold Js.length in Hinside. lia. }
  split; [done|]. split; [done|]. split; [lia|].
  intros Hsame. rewrite Hsame in Hlen. lia.
Qed.

(** An instance: the range from 2 to 0 of "abcdef". *)
Lemma removeChars_inverted_range_witness :
  applyRemoveChars (exampleHost 0) "abcdef" invertedRange = "ababcdef"
  ∧ String.length "abcdef" < String.length (applyRemoveChars (exampleHost 0) "abcdef"
                                               invertedRange).
Proof.
  destruct (removeChars_inverted_range_lengthens (exampleHost 0) "abcdef" invertedRange
              eq_refl ltac:(simpl; lia) ltac:(vm_compute; discriminate))
    as (Heq & _ & Hlonger & _).
  split; [exact Heq | exact Hlonger].
Defined.

(** ** An empty new extension (C10) *)

Lemma hasInvalidChars_app (a b : string) :
  hasInvalidChars (a +:+ b) = hasInvalidChars a || hasInvalidChars b.
Proof. apply existsb_app_str. Qed.

Lemma hasInvalidChars_dot : hasInvalidChars "." = false.
Proof. reflexivity. Qed.

(** C10.  With an empty [newExtension], 'change' turns any extension into
    "." and 'add' appends "." to it.  A pipeline made of that operation
    proposes the base name followed by "." (by the extension and "." for
    'add'), a name that the engine can hold being understood; the proposal
    passes both checks whenever the base name (and, for 'add', the
    extension that stays) holds no illegal character and the base name is
    not blank: the dot adds no illegal character and the base name is
    untouched. *)
Theorem empty_new_extension_leaves_trailing_dot :
  (∀ ext, applyExtension ext {| ExtensionConfig.action := Change;
                                ExtensionConfig.newExtension := EmptyString |} = ".")
  ∧ (∀ ext, applyExtension ext {| ExtensionConfig.action := Add;
                                  ExtensionConfig.newExtension := EmptyString |}
            = ext +:+ ".")
  ∧ (∀ host file index opId,
       fits host (baseName (originalName file) +:+ ".") = true →
       hasInvalidChars (baseName (originalName file)) = false →
       Js.trim (baseName (originalName file)) ≠ EmptyString →
       processFileName host file [emptyExtensionOp opId Change] index
       = {| outName := baseName (originalName file) +:+ ".";
            outValid := true; outError := None |}
       ∧ processFileNameThrows host file [emptyExtensionOp opId Change] index = false)
  ∧ (∀ host file index opId,
       fits host (baseName (originalName file) +:+ extension file +:+ ".") = true →
       hasInvalidChars (baseName (originalName file)) = false →
       hasInvalidChars (extension file) = false →
       Js.trim (baseName (originalName file)) ≠ EmptyString →
       processFileName host file [emptyExtensionOp opId Add] index
       = {| outName := baseName (originalName file) +:+ extension file +:+ ".";
            outValid := true; outError := None |}
       ∧ processFileNameThrows host file [emptyExtensionOp opId Add] index = false).
Proof.
  split; [done|]. split; [done|]. split.
  - intros host file index opId Hfits Hchars Hblank.
    assert (Hdot : built host (extension file) "." = Normal ".").
    { apply built_fits. by apply fits_app_r in Hfits. }
    unfold processFileName, processFileNameThrows. simpl. unfold applyOperation. simpl.
    change (applyExtension (extension file) _) with ".".
    rewrite Hdot. simpl. unfold joinName. rewrite (built_fits _ _ _ Hfits).
    split; [|done]. unfold validate.
    rewrite hasInvalidChars_app, Hchars, hasInvalidChars_dot. simpl.
    by destruct (Js.trim (baseName (originalName file))).
  - intros host file index opId Hfits Hchars Hext Hblank.
    assert (Hdot : built host (extension file) (extension file +:+ ".")
                   = Normal (extension file +:+ ".")).
    { apply built_fits. by apply fits_app_r in Hfits. }
    unfold processFileName, processFileNameThrows. simpl. unfold applyOperation. simpl.
    change (applyExtension (extension file) _) with (extension file +:+ ".").
    rewrite Hdot. simpl. unfold joinName. rewrite (built_fits _ _ _ Hfits).
    split; [|done]. unfold validate.
    rewrite !hasInvalidChars_app, Hchars, Hext, hasInvalidChars_dot. simpl.
    by destruct (Js.trim (baseName (originalName file))).
Qed.

(** Instances: "report.txt" becomes "report." and "report.txt.". *)
Lemma empty_new_extension_witness :
  processFileName (exampleHost 0)
    (newFileItem "1" {| name := "report.txt"; lastModified := 0 |})
    [emptyExtensionOp "x" Change] 0
  = {| outName := "report."; outValid := true; outError := None |}
  ∧ processFileName (exampleHost 0)
      (newFileItem "1" {| name := "report.txt"; lastModified := 0 |})
      [emptyExtensionOp "x" Add] 0
    = {| outName := "report.txt."; outValid := true; outError := None |}.
Proof.
  destruct empty_new_extension_leaves_trailing_dot as (_ & _ & Hchange & Hadd).
  split.
  - apply (Hchange (exampleHost 0)
             (newFileItem "1" {| name := "report.txt"; lastModified := 0 |}) 0 "x");
      [reflexivity | reflexivity | discriminate].
  - apply (Hadd (exampleHost 0)
             (newFileItem "1" {| name := "report.txt"; lastModified := 0 |}) 0 "x");
      [reflexivity | reflexivity | reflexivity | discriminate].
Defined.


(** * Further properties of the store and of the transformers *)

(** ** Evaluation *)

Lemma applyOperation_same_file host op (f g : FileItem) index name ext :
  originalFile f = originalFile g →
  applyOperation host op f index name ext = applyOperation host op g index name ext.
Proof. intros Hfile. unfold applyOperation. by rewrite Hfile. Qed.

Lemma runOperations_same_file host (f g : FileItem) index ops :
  originalFile f = originalFile g →
  originalName f = originalName g →
  ∀ name ext,
    runOperations host f index ops name ext = runOperations host g index ops name ext.
Proof.
  intros Hfile Hname. induction ops as [|op rest IH]; intros name ext; simpl; [done|].
  destruct (enabled op); simpl; [|apply IH].
  rewrite (applyOperation_same_file host op f g) by done.
  destruct (applyOperation host op g index name ext) as [[n e]|m]; [apply IH|].
  by rewrite Hname.
Qed.

Lemma flagDuplicate_sameIdentity m f : sameIdentity (flagDuplicate m f) f.
Proof. unfold flagDuplicate, sameIdentity. by case_decide. Qed.

Lemma evaluateFile_same host ops index (f g : FileItem) :
  sameIdentity f g → evaluateFile host ops index f = evaluateFile host ops index g.
Proof.
  intros (Hid & Hfile & Hname & Hext). unfold evaluateFile, processFileName.
  rewrite (runOperations_same_file host f g) by done.
  by rewrite Hid, Hfile, Hname, Hext.
Qed.


(** Evaluation reads the identity of the files only, whatever host ran an
    earlier evaluation. *)
Lemma evaluate_identity host (fs gs : list FileItem) (ops : list Operation) :
  Forall2 sameIdentity fs gs → evaluate host fs ops = evaluate host gs ops.
Proof.
  intros Hsame.
  assert (Heq : imap (evaluateFile host ops) fs = imap (evaluateFile host ops) gs).
  { apply list_eq. intros i. rewrite !list_lookup_imap.
    destruct (fs !! i) as [f|] eqn:Hf.
    - destruct (Forall2_lookup_l _ _ _ _ _ Hsame Hf) as (g & -> & Hfg).
      simpl. f_equal. by apply evaluateFile_same.
    - apply Forall2_length in Hsame. apply lookup_ge_None in Hf.
      rewrite (lookup_ge_None_2 gs i) by lia. done. }
  unfold evaluate. by rewrite Heq.
Qed.

Lemma evaluate_sameIdentity host (fs : list FileItem) (ops : list Operation) :
  Forall2 sameIdentity (evaluate host fs ops) fs.
Proof.
  apply Forall2_same_length_lookup_2; [apply evaluate_length|].
  intros i r f Hr Hf. unfold evaluate in Hr.
  rewrite list_lookup_fmap, list_lookup_imap, Hf in Hr. simpl in Hr.
  injection Hr as <-.
  destruct (flagDuplicate_sameIdentity (countNames (imap (evaluateFile host ops) fs))
              (evaluateFile host ops i f)) as (H1 & H2 & H3 & H4).
  by repeat split.
Qed.

Lemma evaluate_forgets_host h1 h2 (fs : list FileItem) (ops1 ops2 : list Operation) :
  evaluate h2 (evaluate h1 fs ops1) ops2 = evaluate h2 fs ops2.
Proof. apply evaluate_identity, evaluate_sameIdentity. Qed.

Lemma foldOperations_same_file host (f g : FileItem) index ops :
  originalFile f = originalFile g →
  ∀ name ext,
    foldOperations host f index ops name ext = foldOperations host g index ops name ext.
Proof.
  intros Hfile. induction ops as [|op rest IH]; intros name ext; simpl; [done|].
  destruct (enabled op); simpl; [|apply IH].
  rewrite (applyOperation_same_file host op f g) by done.
  destruct (applyOperation host op g index name ext) as [[n e]|m]; [apply IH | done].
Qed.

(** Whether the evaluation throws depends on the identity of the files
    only. *)
Lemma processFilesThrows_identity host (fs gs : list FileItem) (ops : list Operation) :
  Forall2 sameIdentity fs gs →
  processFilesThrows host fs ops = processFilesThrows host gs ops.
Proof.
  intros Hsame. unfold processFilesThrows. f_equal.
  apply list_eq. intros i. rewrite !list_lookup_imap.
  destruct (fs !! i) as [f|] eqn:Hf.
  - destruct (Forall2_lookup_l _ _ _ _ _ Hsame Hf) as (g & -> & (_ & Hfile & Hname & Hext)).
    simpl. f_equal. unfold processFileNameThrows.
    by rewrite (foldOperations_same_file host f g) , Hname, Hext by done.
  - apply Forall2_length in Hsame. apply lookup_ge_None in Hf.
    rewrite (lookup_ge_None_2 gs i) by lia. done.
Qed.

(** Without an enabled operation that reads the clock, the evaluation is
    the same at every reading. *)
Lemma evaluate_without_clock h (t1 t2 : Z) (fs : list FileItem) (ops : list Operation) :
  Forall (λ op, readsClock op = false) ops →
  evaluate (withClock h t1) fs ops = evaluate (withClock h t2) fs ops.
Proof.
  intros Hops.
  assert (Heq : imap (evaluateFile (withClock h t1) ops) fs
                = imap (evaluateFile (withClock h t2) ops) fs).
  { apply imap_ext. intros i f _. unfold evaluateFile, processFileName.
    by rewrite (runOperations_ignores_clock h t1 t2). }
  unfold evaluate. by rewrite Heq.
Qed.

(** X1.  The result of an evaluation does not depend on what an earlier
    evaluation wrote, whatever the pipeline and the clock reading of the
    earlier one: only the identity of a file (its original name, its
    extension, its content handle) is read, so that evaluating again gives
    what one evaluation at the later time gives, and throws when that one
    throws.  When no enabled operation reads the clock, evaluating twice
    changes nothing further. *)
Theorem evaluation_is_idempotent (h1 h2 : Host) (t1 t2 : Z) (s : AppState)
    (fs : list FileItem) (ops1 ops2 : list Operation) :
  evaluate h2 (evaluate h1 fs ops1) ops2 = evaluate h2 fs ops2
  ∧ processFilesThrows h2 (evaluate h1 fs ops1) ops2 = processFilesThrows h2 fs ops2
  ∧ processFiles h2 (processFiles h1 s) = processFiles h2 s
  ∧ (Forall (λ op, readsClock op = false) (operations s)
     → processFiles (withClock h1 t2) (processFiles (withClock h1 t1) s)
       = processFiles (withClock h1 t1) s).
Proof.
  split; [apply evaluate_forgets_host|]. split; [|split].
  - apply processFilesThrows_identity, evaluate_sameIdentity.
  - unfold processFiles, setFiles. simpl. by rewrite evaluate_forgets_host.
  - intros Hops. unfold processFiles, setFiles. simpl.
    by rewrite evaluate_forgets_host, (evaluate_without_clock h1 t2 t1).
Qed.

(** X2.  Evaluation keeps every file at its place with its identifier,
    content handle, original name and extension: it writes the proposed
    name, the validity and the message only. *)
Theorem evaluation_keeps_identity host (fs : list FileItem) (ops : list Operation) :
  Forall2 sameIdentity (evaluate host fs ops) fs.
Proof.
  apply Forall2_same_length_lookup_2; [apply evaluate_length|].
  intros i r f Hr Hf. unfold evaluate in Hr.
  rewrite list_lookup_fmap, list_lookup_imap, Hf in Hr. simpl in Hr.
  injection Hr as <-.
  destruct (flagDuplicate_sameIdentity (countNames (imap (evaluateFile host ops) fs))
              (evaluateFile host ops i f)) as (H1 & H2 & H3 & H4).
  by repeat split.
Qed.

(** What the loop and the checks return is coherent: valid means no
    message and a proposed name free of illegal characters, invalid means a
    message. *)
Lemma runOperations_coherent host f index ops :
  ∀ name ext,
    let o := runOperations host f index ops name ext in
    (outValid o = true → outError o = None ∧ hasInvalidChars (outName o) = false)
    ∧ (outValid o = false → outError o ≠ None).
Proof.
  induction ops as [|op rest IH]; intros name ext; simpl.
  - unfold validate. destruct (hasInvalidChars (name +:+ ext)) eqn:Hc; simpl; [done|].
    destruct (Js.is_empty (Js.trim name)); simpl; done.
  - destruct (enabled op); simpl; [|apply IH].
    destruct (applyOperation host op f index name ext) as [[n e]|m]; [apply IH|].
    simpl. done.
Qed.

Lemma evaluate_valid_entry
    host (fs : list FileItem) (ops : list Operation) (j : nat) (r : FileItem) :
  evaluate host fs ops !! j = Some r →
  isValid r = true →
  errorMessage r = None
  ∧ hasInvalidChars (newName r) = false
  ∧ ∀ k r', k ≠ j → evaluate host fs ops !! k = Some r' → newName r' ≠ newName r.
Proof.
  intros Hr Hvalid.
  assert (Hlt : j < length fs).
  { apply lookup_lt_Some in Hr. by rewrite evaluate_length in Hr. }
  apply lookup_lt_is_Some in Hlt as [g Hg].
  destruct (evaluate_lookup host fs ops j g Hg) as (r0 & Hr0 & _ & Hname & Hdup & Huniq).
  rewrite Hr in Hr0. injection Hr0 as <-.
  destruct (collision_or_not (evaluate host fs ops) j r Hr) as [Hc|Hnc].
  - apply Hdup in Hc as [Hc _]. congruence.
  - destruct (Huniq Hnc) as [Hv He].
    destruct (runOperations_coherent host g j ops (baseName (originalName g))
                (extension g)) as [Hcoh _].
    fold (processFileName host g ops j) in Hcoh.
    destruct Hcoh as [Hnone Hclean]; [congruence|].
    split; [congruence|]. split; [congruence | done].
Qed.

Lemma evaluate_valid_iff
    host (fs : list FileItem) (ops : list Operation) (j : nat) (r : FileItem) :
  evaluate host fs ops !! j = Some r →
  isValid r = true ↔ errorMessage r = None.
Proof.
  intros Hr. unfold evaluate in Hr.
  rewrite list_lookup_fmap, list_lookup_imap in Hr.
  destruct (fs !! j) as [g|]; [|done]. simpl in Hr. injection Hr as <-.
  unfold flagDuplicate. case_decide; simpl; [done|].
  destruct (runOperations_coherent host g j ops (baseName (originalName g))
              (extension g)) as [Hv Hi].
  fold (processFileName host g ops j) in Hv, Hi.
  destruct (outValid (processFileName host g ops j)) eqn:Ho.
  - split; [intros _; by apply Hv | done].
  - split; [done | intros He; by destruct Hi].
Qed.

(** X3.  An entry that evaluation marks valid has no message, a proposed
    name without any illegal character, and a proposed name that no
    other entry of the list has. *)
Theorem valid_entries_are_clean_and_unique
    host (fs : list FileItem) (ops : list Operation) (j : nat) (r : FileItem) :
  evaluate host fs ops !! j = Some r →
  isValid r = true →
  errorMessage r = None
  ∧ hasInvalidChars (newName r) = false
  ∧ ∀ k r', k ≠ j → evaluate host fs ops !! k = Some r' → newName r' ≠ newName r.
Proof. apply evaluate_valid_entry. Qed.

(** X4.  After an evaluation an entry is valid exactly when it carries no
    message. *)
Theorem valid_iff_no_message
    host (fs : list FileItem) (ops : list Operation) (j : nat) (r : FileItem) :
  evaluate host fs ops !! j = Some r →
  isValid r = true ↔ errorMessage r = None.
Proof. apply evaluate_valid_iff. Qed.

Lemma runOperations_only_enabled host f index ops :
  ∀ name ext,
    runOperations host f index ops name ext
    = runOperations host f index (filter (λ op, enabled op = true) ops) name ext.
Proof.
  induction ops as [|op rest IH]; intros name ext; [done|].
  rewrite filter_cons. simpl. destruct (enabled op) eqn:Hen; simpl.
  - rewrite ?Hen. simpl.
    destruct (applyOperation host op f index name ext) as [[n e]|m]; [apply IH | done].
  - apply IH.
Qed.

(** X5.  A disabled operation is absent from the evaluation: the result
    is that of the pipeline with the disabled operations taken out. *)
Theorem disabled_operations_are_skipped host (fs : list FileItem) (ops : list Operation) :
  evaluate host fs ops = evaluate host fs (filter (λ op, enabled op = true) ops).
Proof.
  assert (Heq : imap (evaluateFile host ops) fs
                = imap (evaluateFile host (filter (λ op, enabled op = true) ops)) fs).
  { apply imap_ext. intros i f _. unfold evaluateFile, processFileName.
    by rewrite <- runOperations_only_enabled. }
  unfold evaluate. by rewrite Heq.
Qed.

(** ** The states the store can be in *)

Lemma reorder_Permutation {A} (l l' : list A) (i j : Z) :
  reorder l i j = Some l' → l' ≡ₚ l.
Proof.
  unfold reorder. destruct (l !! _) as [x|] eqn:Hx; [|done].
  intros [= <-].
  etrans; [|symmetry; apply (delete_Permutation l _ x Hx)].
  symmetry. apply Permutation_cons_app. by rewrite take_drop.
Qed.


Lemma sameIdentity_refl (fs : list FileItem) : Forall2 sameIdentity fs fs.
Proof. induction fs; constructor; [by repeat split | done]. Qed.

Lemma sameIdentity_trans (fs gs hs : list FileItem) :
  Forall2 sameIdentity fs gs → Forall2 sameIdentity gs hs → Forall2 sameIdentity fs hs.
Proof.
  intros Hfg. revert hs. induction Hfg as [|f g fs gs (A1 & A2 & A3 & A4) _ IH];
    intros hs Hgh; inversion Hgh as [|g' h gs' hs' (B1 & B2 & B3 & B4) Hrest]; subst;
    constructor; [|by apply IH].
  repeat split; congruence.
Qed.

(** The call of [processFiles] that ends an action changes the files
    only, and of the files nothing but what an evaluation writes. *)
Lemma thenProcessFiles_fields host (t : AppState) :
  operations (stateOf (thenProcessFiles host t)) = operations t
  ∧ history (stateOf (thenProcessFiles host t)) = history t
  ∧ historyIndex (stateOf (thenProcessFiles host t)) = historyIndex t
  ∧ maxHistoryLength (stateOf (thenProcessFiles host t)) = maxHistoryLength t
  ∧ Forall2 sameIdentity (files (stateOf (thenProcessFiles host t))) (files t).
Proof.
  unfold thenProcessFiles. destruct (processFilesThrows _ _ _); simpl.
  - repeat split. apply sameIdentity_refl.
  - repeat split. apply evaluate_sameIdentity.
Qed.

Lemma thenProcessFiles_done host (t s' : AppState) :
  thenProcessFiles host t = Done s' →
  s' = processFiles host t ∧ processFilesThrows host (files t) (operations t) = false.
Proof.
  unfold thenProcessFiles. destruct (processFilesThrows _ _ _); [done|].
  by intros [= <-].
Qed.






(** Every mutation of the pipeline is a commit followed by a new pipeline
    and an evaluation. *)
Lemma mutation_shape host (a : Action) (s : AppState) (r : Result) :
  isMutation a = true →
  perform host a s = Some r →
  ∃ ops', r = thenProcessFiles host (setOperations (pushToHistory s) ops').
Proof.
  destruct a; try discriminate; intros _; simpl;
    try (intros [= <-]; eexists; reflexivity).
  unfold reorderOperationsSet.
  destruct (reorder _ _ _) as [ops'|]; [|done].
  intros [= <-]. by eexists.
Qed.





(** X7.  However an action that changes the pipeline ends, with the
    evaluation done or with its [RangeError]: redo is unavailable (and is a
    no-op), undo is available and the newest snapshot is the pipeline as it
    was before the action.  When the action returns, the files carry the
    evaluation of the new pipeline by the host of the step, at its reading
    of the clock; when the evaluation throws, the new pipeline is stored
    all the same and the files are the ones of before. *)
Theorem mutation_discards_redo host (a : Action) (s : AppState) (r : Result) :
  isMutation a = true →
  2 ≤ maxHistoryLength s →
  1 ≤ length (history s) →
  perform host a s = Some r →
  canRedo (stateOf r) = false
  ∧ canUndo (stateOf r) = true
  ∧ perform host Redo (stateOf r) = Some (Done (stateOf r))
  ∧ last (history (stateOf r)) = Some (operations s)
  ∧ match r with
    | Done s' =>
        processFilesThrows host (files s) (operations s') = false
        ∧ files s' = evaluate host (files s) (operations s')
    | Raised s' m =>
        processFilesThrows host (files s) (operations s') = true
        ∧ files s' = files s
        ∧ m = invalidStringLength host
    end.
Proof.
  intros Hmut Hmax Hlen Hstep.
  destruct (mutation_shape host a s r Hmut Hstep) as [ops' ->].
  destruct (pushToHistory_general s) as (Hgen & Hlast & Hidx & _); [lia|].
  assert (Hlen' : 2 ≤ length (history (pushToHistory s))).
  { rewrite Hgen, length_drop, length_app, length_take. simpl. lia. }
  assert (Hfs : files (pushToHistory s) = files s) by done.
  clear Hgen. set (t := pushToHistory s) in *. clearbody t.
  destruct t as [fs ops H i m]. simpl in *. subst fs.
  unfold thenProcessFiles. simpl.
  destruct (processFilesThrows host (files s) ops') eqn:Hthrows; simpl;
    unfold canRedo, canUndo; simpl;
    rewrite bool_decide_eq_false_2, bool_decide_eq_true_2, decide_False by lia;
    done.
Qed.

(** X8.  From a state whose live pipeline is the snapshot at the index,
    [undo] followed by [redo], and [redo] followed by [undo], give back
    the pipeline, the history and the index, whatever the hosts of the two
    steps read from their clocks and whether or not their evaluations
    throw.  When the second step returns, the files carry the evaluation of
    that pipeline by its host, so that the state is the one of before if
    its files were that evaluation. *)
Theorem undo_and_redo_are_inverse (h1 h2 : Host) (s : AppState) (r1 r2 : Result) :
  history s !! historyIndex s = Some (operations s) →
  (0 < historyIndex s
   ∧ perform h1 Undo s = Some r1 ∧ perform h2 Redo (stateOf r1) = Some r2)
  ∨ (historyIndex s + 1 < length (history s)
     ∧ perform h1 Redo s = Some r1 ∧ perform h2 Undo (stateOf r1) = Some r2) →
  operations (stateOf r2) = operations s
  ∧ history (stateOf r2) = history s
  ∧ historyIndex (stateOf r2) = historyIndex s
  ∧ Forall2 sameIdentity (files (stateOf r2)) (files s)
  ∧ ∀ s2, r2 = Done s2 →
      files s2 = evaluate h2 (files s) (operations s)
      ∧ (files s = evaluate h2 (files s) (operations s) → s2 = s).
Proof.
  intros Hlive Hsteps.
  assert (Hlt : historyIndex s < length (history s)) by (by eapply lookup_lt_Some).
  (* the two steps, whichever way round: to the index [i] and back *)
  assert (Hback : ∃ i p,
            history s !! i = Some p ∧ i < length (history s)
            ∧ r1 = thenProcessFiles h1
                     {| files := files s; operations := p; history := history s;
                        historyIndex := i; maxHistoryLength := maxHistoryLength s |}
            ∧ r2 = thenProcessFiles h2
                     {| files := files (stateOf r1); operations := operations s;
                        history := history s; historyIndex := historyIndex s;
                        maxHistoryLength := maxHistoryLength s |}).
  { destruct Hsteps as [(Hpos & Hfirst & Hsecond) | (Hnext & Hfirst & Hsecond)].
    - destruct (lookup_lt_is_Some_2 (history s) (historyIndex s - 1)) as [p Hp]; [lia|].
      exists (historyIndex s - 1), p. split; [done|]. split; [lia|].
      simpl in Hfirst. rewrite decide_True in Hfirst by done.
      unfold thenRestore, restoreSet in Hfirst. rewrite Hp in Hfirst.
      injection Hfirst as <-. split; [done|].
      destruct (thenProcessFiles_fields h1
                  {| files := files s; operations := p; history := history s;
                     historyIndex := historyIndex s - 1;
                     maxHistoryLength := maxHistoryLength s |})
        as (_ & Hh & Hi & Hm & _). simpl in Hh, Hi, Hm.
      unfold perform in Hsecond. rewrite Hh, Hi in Hsecond.
      rewrite decide_True in Hsecond by lia.
      unfold thenRestore, restoreSet in Hsecond. rewrite Hh, Hm in Hsecond.
      replace (historyIndex s - 1 + 1) with (historyIndex s) in Hsecond by lia.
      rewrite Hlive in Hsecond. by injection Hsecond as <-.
    - destruct (lookup_lt_is_Some_2 (history s) (historyIndex s + 1)) as [p Hp]; [lia|].
      exists (historyIndex s + 1), p. split; [done|]. split; [lia|].
      simpl in Hfirst. rewrite decide_True in Hfirst by lia.
      unfold thenRestore, restoreSet in Hfirst. rewrite Hp in Hfirst.
      injection Hfirst as <-. split; [done|].
      destruct (thenProcessFiles_fields h1
                  {| files := files s; operations := p; history := history s;
                     historyIndex := historyIndex s + 1;
                     maxHistoryLength := maxHistoryLength s |})
        as (_ & Hh & Hi & Hm & _). simpl in Hh, Hi, Hm.
      unfold perform in Hsecond. rewrite Hi in Hsecond.
      rewrite decide_True in Hsecond by lia.
      unfold thenRestore, restoreSet in Hsecond. rewrite Hh, Hm in Hsecond.
      replace (historyIndex s + 1 - 1) with (historyIndex s) in Hsecond by lia.
      rewrite Hlive in Hsecond. by injection Hsecond as <-. }
  destruct Hback as (i & p & Hp & Hi & Hr1 & Hr2).
  assert (Hid1 : Forall2 sameIdentity (files (stateOf r1)) (files s)).
  { rewrite Hr1.
    exact (proj2 (proj2 (proj2 (proj2 (thenProcessFiles_fields h1 _))))). }
  destruct (thenProcessFiles_fields h2
              {| files := files (stateOf r1); operations := operations s;
                 history := history s; historyIndex := historyIndex s;
                 maxHistoryLength := maxHistoryLength s |})
    as (Ho & Hh & Hx & Hm & Hid2). rewrite <- Hr2 in Ho, Hh, Hx, Hm, Hid2. simpl in *.
  split; [done|]. split; [done|]. split; [done|]. split.
  - by eapply sameIdentity_trans.
  - intros s2 ->. rewrite Hr2 in Hm. symmetry in Hr2.
    apply thenProcessFiles_done in Hr2 as [-> _]. simpl in *.
    assert (Hfiles : evaluate h2 (files (stateOf r1)) (operations s)
                     = evaluate h2 (files s) (operations s))
      by (by apply evaluate_identity).
    split; [done|]. intros Hev. unfold processFiles, setFiles. simpl.
    rewrite Hfiles, <- Hev. by destruct s.
Qed.

(** ** The actions on the pipeline *)



(** [removeOperation] keeps, in their order, exactly the operations
    whose identifier differs from the given one; with an identifier that
    no operation has, pipeline and evaluation stay as they are. *)
Lemma removeOperation_removes_by_id host (opId : string) (s : AppState) :
  operations (removeOperation host opId s) `sublist_of` operations s
  ∧ (∀ op, op ∈ operations (removeOperation host opId s)
           ↔ op ∈ operations s ∧ id op ≠ opId)
  ∧ ((∀ op, op ∈ operations s → id op ≠ opId)
     → operations (removeOperation host opId s) = operations s
       ∧ files (removeOperation host opId s) = evaluate host (files s) (operations s)).
Proof.
  change (operations (removeOperation host opId s))
    with (filter (λ op, id op ≠ opId) (operations s)).
  change (files (removeOperation host opId s))
    with (evaluate host (files s) (filter (λ op, id op ≠ opId) (operations s))).
  split; [apply sublist_filter|]. split.
  - intros op. rewrite list_elem_of_filter. tauto.
  - intros Hall.
    assert (Hsame : filter (λ op, id op ≠ opId) (operations s) = operations s).
    { induction (operations s) as [|op l IH]; [done|].
      rewrite filter_cons, decide_True by (apply Hall; by left).
      f_equal. apply IH. intros o Ho. apply Hall. by right. }
    by rewrite Hsame.
Qed.



Lemma runOperations_sameButIds host f index ops ops' :
  sameButIds ops ops' →
  ∀ name ext,
    runOperations host f index ops name ext = runOperations host f index ops' name ext.
Proof.
  induction 1 as [|op op' ops ops' [Hen Hcfg] _ IH]; intros name ext; simpl; [done|].
  rewrite <- Hen. destruct (enabled op); simpl; [|apply IH].
  unfold applyOperation, type. rewrite <- Hcfg.
  destruct (config op); simpl;
    repeat match goal with
           | |- context [bindC ?c _] => destruct c; simpl
           end; try apply IH; done.
Qed.

Lemma evaluate_sameButIds host fs ops ops' :
  sameButIds ops ops' → evaluate host fs ops = evaluate host fs ops'.
Proof.
  intros Hsame.
  assert (Heq : imap (evaluateFile host ops) fs = imap (evaluateFile host ops') fs).
  { apply imap_ext. intros i f _. unfold evaluateFile, processFileName.
    by rewrite (runOperations_sameButIds host f i ops ops'). }
  unfold evaluate. by rewrite Heq.
Qed.

(** X11.  The identifiers of the operations play no part in the
    evaluation: two pipelines that agree on [enabled] and on kind and
    configuration, position by position, evaluate every file list alike. *)
Theorem identifiers_do_not_matter host (fs : list FileItem) (ops ops' : list Operation) :
  sameButIds ops ops' →
  evaluate host fs ops = evaluate host fs ops'.
Proof. apply evaluate_sameButIds. Qed.



(** X13.  Deleting the preset that was just saved gives back the list of
    presets, provided the identifier drawn for it is not already in use;
    deleting an identifier that no preset has changes nothing. *)
Theorem delete_after_save_restores_presets
    (generateId : nat → string) (name description : string) (icon : option string)
    (ops : list Operation) (customPresets : list Preset) :
  (∀ p, p ∈ customPresets → presetId p ≠ generateId 0) →
  deleteCustomPreset (generateId 0)
    (saveCustomPreset generateId name description icon ops customPresets)
  = customPresets
  ∧ deleteCustomPreset (generateId 0) customPresets = customPresets.
Proof.
  intros Hfresh.
  assert (Hkeep : filter (λ p, presetId p ≠ generateId 0) customPresets = customPresets).
  { induction customPresets as [|p l IH]; [done|].
    rewrite filter_cons, decide_True by (apply Hfresh; by left).
    f_equal. apply IH. intros q Hq. apply Hfresh. by right. }
  unfold deleteCustomPreset, saveCustomPreset. split; [|done].
  rewrite filter_app, Hkeep, filter_cons, decide_False by (simpl; auto).
  by rewrite filter_nil, app_nil_r.
Qed.

(** ** The actions on the queue *)

(** X14.  Ingesting the same batch a second time adds nothing: every name
    of the batch is queued after the first call, so the second call drops
    them all. *)
Theorem addFiles_again_adds_nothing
    host (generateId generateId' : nat → string) (batch : list File) (s : AppState) :
  originalName <$> files (addFiles host generateId' batch (addFiles host generateId batch s))
  = originalName <$> files (addFiles host generateId batch s).
Proof.
  apply addFiles_drops_queued_names. intros f Hf.
  rewrite addFiles_originalNames, elem_of_app.
  destruct (decide (name f ∈ originalName <$> files s)) as [Hin|Hout]; [by left|].
  right. apply list_elem_of_fmap. exists f. split; [done|].
  by apply list_elem_of_filter.
Qed.




Lemma relative_in_range (len i : nat) :
  i ≤ len → Z.to_nat (Js.relative (Z.of_nat len) (Z.of_nat i)) = i.
Proof.
  intros Hi. unfold Js.relative.
  destruct (Z.of_nat i <? 0)%Z eqn:Hneg; [apply Z.ltb_lt in Hneg; lia|]. lia.
Qed.

(** X16.  Dragging the element at position [i] onto position [j] (both
    inside the list, as the drag handlers compute them) puts it at
    position [j], keeps the elements and the length, and dragging it
    back from [j] onto [i] gives the list back. *)
Theorem reorder_moves_and_reverts {A} (l : list A) (i j : nat) (x : A) :
  l !! i = Some x →
  j < length l →
  ∃ l', reorder l (Z.of_nat i) (Z.of_nat j) = Some l'
        ∧ l' !! j = Some x
        ∧ l' ≡ₚ l
        ∧ length l' = length l
        ∧ reorder l' (Z.of_nat j) (Z.of_nat i) = Some l.
Proof.
  intros Hx Hj.
  assert (Hi : i < length l) by (by eapply lookup_lt_Some).
  assert (Hrest : length (delete i l) = length l - 1).
  { rewrite length_delete; [done|]. by eexists. }
  assert (Hfwd : reorder l (Z.of_nat i) (Z.of_nat j)
                 = Some (take j (delete i l) ++ x :: drop j (delete i l))).
  { unfold reorder. rewrite relative_in_range by lia. rewrite Hx.
    rewrite Hrest, relative_in_range by lia. done. }
  set (l' := take j (delete i l) ++ x :: drop j (delete i l)) in *.
  assert (Htake : length (take j (delete i l)) = j).
  { rewrite length_take. lia. }
  assert (Hl'j : l' !! j = Some x).
  { unfold l'. rewrite <- Htake at 1. apply list_lookup_middle. done. }
  assert (Hlen : length l' = length l).
  { unfold l'. rewrite length_app, Htake. simpl. rewrite length_drop. lia. }
  exists l'. split; [done|]. split; [done|].
  split; [by eapply reorder_Permutation|]. split; [done|].
  unfold reorder. rewrite Hlen, relative_in_range by lia. rewrite Hl'j.
  assert (Hdel : delete j l' = delete i l).
  { unfold l'. rewrite <- Htake at 1. rewrite delete_middle. apply take_drop. }
  rewrite Hdel, Hrest, relative_in_range by lia.
  f_equal. rewrite delete_take_drop.
  rewrite take_app_le, drop_app_ge by (rewrite length_take; lia).
  rewrite take_take, length_take, drop_drop.
  replace (i `min` i) with i by lia.
  replace (S i + (i - i `min` length l)) with (S i) by lia.
  by apply take_drop_middle.
Qed.

(** X17.  A start index of -1, which is what [findIndex] gives for an
    identifier it does not find, is read from the end of the list: the
    last element is the one that moves. *)
Theorem reorder_minus_one_moves_last {A} (l : list A) (j : Z) :
  l ≠ [] →
  reorder l (-1) j = reorder l (Z.of_nat (length l - 1)) j
  ∧ is_Some (reorder l (-1) j).
Proof.
  intros Hne.
  assert (Hlen : 0 < length l) by (destruct l; simpl; [done | lia]).
  assert (Hs : Z.to_nat (Js.relative (Z.of_nat (length l)) (-1)) = length l - 1).
  { unfold Js.relative. simpl. lia. }
  assert (Heq : reorder l (-1) j = reorder l (Z.of_nat (length l - 1)) j).
  { unfold reorder. by rewrite Hs, relative_in_range by lia. }
  split; [done|]. unfold reorder. rewrite Hs.
  destruct (lookup_lt_is_Some_2 l (length l - 1)) as [x ->]; [lia|]. by eexists.
Qed.

(** ** What the views read from an evaluated queue *)

Lemma NoDup_fmap_filter_positions {A B} (P : A → Prop) `{!∀ x, Decision (P x)}
    (f : A → B) (l : list A) :
  (∀ j k x y, j ≠ k → l !! j = Some x → l !! k = Some y → P x → f y ≠ f x) →
  NoDup (f <$> filter P l).
Proof.
  induction l as [|a l IH]; intros Hpos; [constructor|].
  assert (Htail : NoDup (f <$> filter P l)).
  { apply IH. intros j k x y Hne Hj Hk. apply (Hpos (S j) (S k)); [lia | done | done]. }
  rewrite filter_cons. case_decide as Ha; [|done].
  rewrite fmap_cons. apply NoDup_cons. split; [|done].
  intros Hin. apply list_elem_of_fmap in Hin as (b & Hfb & Hb).
  apply list_elem_of_filter in Hb as [_ Hb].
  apply list_elem_of_lookup in Hb as [k Hk].
  by apply (Hpos 0 (S k) a b).
Qed.

Lemma export_partition (fs : list FileItem) :
  validFiles fs ++ unchangedFiles fs ≡ₚ filter (λ f, isValid f = true) fs.
Proof.
  unfold validFiles, unchangedFiles.
  assert (H1 : filter (λ f, isValid f = true ∧ originalName f ≠ newName f) fs
               = filter (λ f, originalName f ≠ newName f)
                   (filter (λ f, isValid f = true) fs)).
  { rewrite list_filter_filter. apply list_filter_iff. intros f. tauto. }
  assert (H2 : filter (λ f, isValid f = true ∧ originalName f = newName f) fs
               = filter (λ f, ¬ originalName f ≠ newName f)
                   (filter (λ f, isValid f = true) fs)).
  { rewrite list_filter_filter. apply list_filter_iff. intros f.
    destruct (decide (originalName f = newName f)); tauto. }
  rewrite H1, H2. apply filter_app_complement.
Qed.

(** X18.  The archive the export builds from an evaluated queue holds one
    entry for each valid file and none for an invalid one, no two entries
    bear the same name, and no name holds an illegal character.  The
    button is live exactly when some valid file changed its name. *)
Theorem export_entries_are_distinct_and_clean
    host (fs : list FileItem) (ops : list Operation) :
  let out := evaluate host fs ops in
  allFiles out ≡ₚ (λ f, (newName f, originalFile f)) <$> filter (λ f, isValid f = true) out
  ∧ NoDup (fst <$> allFiles out)
  ∧ Forall (λ entry, hasInvalidChars entry.1 = false) (allFiles out)
  ∧ (canExport out = true
     ↔ ∃ f, f ∈ out ∧ isValid f = true ∧ originalName f ≠ newName f).
Proof.
  intros out.
  assert (Hperm : allFiles out
                  ≡ₚ (λ f, (newName f, originalFile f)) <$> filter (λ f, isValid f = true) out).
  { unfold allFiles. by rewrite export_partition. }
  split; [done|]. split; [|split].
  - rewrite Hperm, <- list_fmap_compose.
    apply (NoDup_fmap_filter_positions (λ f, isValid f = true) newName out).
    intros j k x y Hne Hj Hk Hvalid.
    destruct (evaluate_valid_entry host fs ops j x Hj Hvalid) as (_ & _ & Huniq).
    by apply (Huniq k y).
  - rewrite Hperm. apply Forall_fmap, Forall_forall. intros f Hf. simpl.
    apply list_elem_of_filter in Hf as [Hvalid Hin].
    apply list_elem_of_lookup in Hin as [j Hj].
    by destruct (evaluate_valid_entry host fs ops j f Hj Hvalid) as (_ & Hclean & _).
  - unfold canExport, validFiles. rewrite bool_decide_eq_true.
    split.
    + intros Hpos. apply filter_nonempty_elem in Hpos as (f & Hin & Hv & Hch). eauto.
    + intros (f & Hin & Hv & Hch). apply filter_nonempty_elem. eauto.
Qed.

Lemma counters_partition (l : list FileItem) :
  Forall (λ f, mentionsDuplicate (errorMessage f) = true → isValid f = false) l →
  duplicateCount l + errorCount l = length (filter (λ f, isValid f = false) l).
Proof.
  unfold duplicateCount, errorCount.
  induction 1 as [|f l Hf _ IH]; [done|].
  rewrite !filter_cons.
  destruct (mentionsDuplicate (errorMessage f)) eqn:Hdup.
  - specialize (Hf eq_refl). rewrite Hf.
    repeat case_decide; simpl; try lia; exfalso; intuition congruence.
  - destruct (isValid f) eqn:Hv;
      repeat case_decide; simpl; try lia; exfalso; intuition congruence.
Qed.

(** X19.  On an evaluated queue the two warning counters of the file list
    add up to the number of invalid files: each invalid file is counted
    once, as a duplicate or as an error, and no valid file is counted. *)
Theorem header_counters_cover_invalid_files
    host (fs : list FileItem) (ops : list Operation) :
  let out := evaluate host fs ops in
  duplicateCount out + errorCount out = length (filter (λ f, isValid f = false) out)
  ∧ duplicateCount out + errorCount out
    + length (filter (λ f, isValid f = true) out) = length fs.
Proof.
  intros out.
  assert (Hcount : duplicateCount out + errorCount out
                   = length (filter (λ f, isValid f = false) out)).
  { apply counters_partition, Forall_lookup. intros j r Hr Hdup.
    destruct (isValid r) eqn:Hv; [|done].
    apply (evaluate_valid_iff host fs ops j r Hr) in Hv. by rewrite Hv in Hdup. }
  split; [done|]. rewrite Hcount, <- (evaluate_length host fs ops).
  fold out. clear. induction out as [|f l IH]; [done|].
  rewrite !filter_cons.
  destruct (isValid f); repeat case_decide; simpl; try lia; done.
Qed.

(** ** The transformers *)

Lemma startsWith_empty (s : string) : Js.startsWith s EmptyString = true.
Proof. by destruct s. Qed.

Lemma startsWith_dot_cons (e : string) : Js.startsWith ("." +:+ e) "." = true.
Proof. change ("." +:+ e) with (String "."%char e). simpl. apply startsWith_empty. Qed.

(** X20.  The new extension is used with exactly one leading dot whether
    or not it is typed with one: 'change' and 'add' give the same result
    for "e" and ".e", the result of 'change' always begins with a dot and
    does not depend on the extension it replaces, and 'remove' followed by
    'add' is 'change'. *)
Theorem extension_leading_dot_is_normalised (ext ext' e : string) :
  let change x := {| ExtensionConfig.action := Change; ExtensionConfig.newExtension := x |} in
  let add x := {| ExtensionConfig.action := Add; ExtensionConfig.newExtension := x |} in
  let remove := {| ExtensionConfig.action := Remove; ExtensionConfig.newExtension := e |} in
  Js.startsWith (applyExtension ext (change e)) "." = true
  ∧ applyExtension ext (change e) = applyExtension ext' (change e)
  ∧ applyExtension (applyExtension ext remove) (add e) = applyExtension ext (change e)
  ∧ (Js.startsWith e "." = false
     → applyExtension ext (change ("." +:+ e)) = applyExtension ext (change e)
       ∧ applyExtension ext (add ("." +:+ e)) = applyExtension ext (add e)).
Proof.
  intros change add remove.
  assert (Hstart : Js.startsWith (dotted e) "." = true).
  { unfold dotted. destruct (Js.startsWith e ".") eqn:He; [done|].
    apply startsWith_dot_cons. }
  assert (Hdot : dotted ("." +:+ e) = "." +:+ e).
  { unfold dotted. by rewrite startsWith_dot_cons. }
  change (applyExtension ext (change e)) with (dotted e).
  change (applyExtension ext' (change e)) with (dotted e).
  change (applyExtension (applyExtension ext remove) (add e)) with (dotted e).
  change (applyExtension ext (change ("." +:+ e))) with (dotted ("." +:+ e)).
  change (applyExtension ext (add ("." +:+ e))) with (ext +:+ dotted ("." +:+ e)).
  change (applyExtension ext (add e)) with (ext +:+ dotted e).
  split; [done|]. split; [done|]. split; [done|].
  intros He. rewrite Hdot. unfold dotted. by rewrite He.
Qed.

Lemma existsb_map (p : ascii → bool) (f : ascii → ascii) (s : string) :
  Js.existsb p (Js.map f s) = Js.existsb (λ c, p (f c)) s.
Proof. induction s as [|c s IH]; [done|]. simpl. by rewrite IH. Qed.

Lemma existsb_never (p : ascii → bool) (s : string) :
  (∀ c, p c = false) → Js.existsb p s = false.
Proof. intros Hp. induction s as [|c s IH]; [done|]. simpl. by rewrite Hp. Qed.

Lemma existsb_weaken (p q : ascii → bool) (s : string) :
  (∀ c, p c = false → q c = false) →
  Js.existsb p s = false → Js.existsb q s = false.
Proof.
  intros Hpq. induction s as [|c s IH]; [done|]. simpl.
  destruct (p c) eqn:Hp; simpl; [done|]. intros Hs. by rewrite (Hpq c Hp), IH.
Qed.

Lemma filter_removes (p : ascii → bool) (s : string) :
  Js.existsb p (Js.filter (λ c, negb (p c)) s) = false.
Proof.
  induction s as [|c s IH]; [done|]. simpl.
  destruct (p c) eqn:Hp; simpl; [done|]. by rewrite Hp.
Qed.

Lemma filter_filter_same (p : ascii → bool) (s : string) :
  Js.filter p (Js.filter p s) = Js.filter p s.
Proof.
  induction s as [|c s IH]; [done|]. simpl.
  destruct (p c) eqn:Hp; simpl; [|done]. by rewrite Hp, IH.
Qed.

Lemma filter_length_le (p : ascii → bool) (s : string) :
  String.length (Js.filter p s) ≤ String.length s.
Proof.
  induction s as [|c s IH]; [done|]. simpl. destruct (p c); simpl; lia.
Qed.

Lemma filter_nothing (p : ascii → bool) (s : string) :
  Js.existsb (λ c, negb (p c)) s = false → Js.filter p s = s.
Proof.
  induction s as [|c s IH]; [done|]. simpl.
  destruct (p c); simpl; [|done]. intros Hs. by rewrite IH.
Qed.

(** X21.  In the mode 'specific' no listed character is left in the
    name, the name never gets longer, a name without any listed character
    is unchanged, and applying the operation twice is applying it once. *)
Theorem removeChars_specific_removes_all host (name : string) (cfg : RemoveCharsConfig.t) :
  RemoveCharsConfig.mode cfg = Specific →
  let listed c := Js.existsb (λ d, bool_decide (d = c)) (RemoveCharsConfig.characters cfg) in
  Js.existsb listed (applyRemoveChars host name cfg) = false
  ∧ String.length (applyRemoveChars host name cfg) ≤ String.length name
  ∧ (Js.existsb listed name = false → applyRemoveChars host name cfg = name)
  ∧ applyRemoveChars host (applyRemoveChars host name cfg) cfg
    = applyRemoveChars host name cfg.
Proof.
  intros Hmode listed. unfold applyRemoveChars. rewrite Hmode. unfold Js.removeAll.
  fold listed. split; [apply filter_removes|]. split; [apply filter_length_le|].
  split; [|apply filter_filter_same].
  intros Hnone. apply filter_nothing.
  eapply existsb_weaken; [|exact Hnone].
  intros c Hc. simpl. fold (listed c). by rewrite Hc.
Qed.

Lemma snake_char_of_any (c : ascii) :
  snakeChar (Js.lower_char (if Js.is_word c then c else "_"%char)) = true.
Proof. destruct c as [[] [] [] [] [] [] [] []]; reflexivity. Qed.

Lemma kebab_char_of_any (c : ascii) :
  kebabChar (Js.lower_char
               (if Js.is_alnum c || bool_decide (c = "-"%char) then c else "-"%char))
  = true.
Proof. destruct c as [[] [] [] [] [] [] [] []]; reflexivity. Qed.

Lemma snake_char_is_legal (c : ascii) : snakeChar c = true → isInvalidChar c = false.
Proof. destruct c as [[] [] [] [] [] [] [] []]; vm_compute; congruence. Qed.

Lemma kebab_char_is_legal (c : ascii) : kebabChar c = true → isInvalidChar c = false.
Proof. destruct c as [[] [] [] [] [] [] [] []]; vm_compute; congruence. Qed.

(** X22.  Whatever the name, its snake_case form is made of lower-case
    letters, digits and underscores only, and its kebab-case form of
    lower-case letters, digits and hyphens only; neither holds a character
    that the validation refuses. *)
Theorem snake_and_kebab_case_alphabet (name : string) :
  let snake := applyCaseChange name {| CaseChangeConfig.caseType := snake_case |} in
  let kebab := applyCaseChange name {| CaseChangeConfig.caseType := kebab_case |} in
  Js.existsb (λ c, negb (snakeChar c)) snake = false
  ∧ Js.existsb (λ c, negb (kebabChar c)) kebab = false
  ∧ hasInvalidChars snake = false
  ∧ hasInvalidChars kebab = false.
Proof.
  intros snake kebab.
  assert (Hs : Js.existsb (λ c, negb (snakeChar c)) snake = false).
  { unfold snake, applyCaseChange. simpl. unfold Js.toLowerCase.
    rewrite !existsb_map. apply existsb_never. intros c.
    by rewrite snake_char_of_any. }
  assert (Hk : Js.existsb (λ c, negb (kebabChar c)) kebab = false).
  { unfold kebab, applyCaseChange. simpl. unfold Js.toLowerCase.
    rewrite !existsb_map. apply existsb_never. intros c.
    by rewrite kebab_char_of_any. }
  split; [done|]. split; [done|]. split.
  - unfold hasInvalidChars. eapply existsb_weaken; [|exact Hs].
    intros c Hc. simpl in Hc. apply snake_char_is_legal. by destruct (snakeChar c).
  - unfold hasInvalidChars. eapply existsb_weaken; [|exact Hk].
    intros c Hc. simpl in Hc. apply kebab_char_is_legal. by destruct (kebabChar c).
Qed.

(** *** [replace] with a string pattern *)

Lemma startsWith_app (p s : string) : Js.startsWith (p +:+ s) p = true.
Proof.
  induction p as [|c p IH]; [apply startsWith_empty|].
  rewrite app_cons. simpl. by rewrite bool_decide_eq_true_2, IH.
Qed.

Lemma startsWith_split (s p : string) :
  Js.startsWith s p = true → s = p +:+ Js.drop (String.length p) s.
Proof.
  revert s. induction p as [|a p IH]; intros s Hs.
  - by destruct s.
  - destruct s as [|b s]; [done|]. simpl in Hs.
    apply andb_true_iff in Hs as [Hab Hs]. apply bool_decide_eq_true in Hab as ->.
    rewrite app_cons. simpl. f_equal. by apply IH.
Qed.

Lemma includes_cons (c : ascii) (s p : string) :
  Js.includes (String c s) p = Js.startsWith (String c s) p || Js.includes s p.
Proof. reflexivity. Qed.

Lemma includes_empty (p : string) :
  Js.includes EmptyString p = Js.startsWith EmptyString p.
Proof. unfold Js.includes. apply orb_false_r. Qed.

Lemma includes_middle (a p b : string) : Js.includes (a +:+ p +:+ b) p = true.
Proof.
  induction a as [|c a IH].
  - change (EmptyString +:+ p +:+ b) with (p +:+ b).
    destruct (p +:+ b) as [|x r] eqn:Hr.
    + assert (p = EmptyString) as -> by (by destruct p). done.
    + rewrite includes_cons, <- Hr, startsWith_app. done.
  - rewrite app_cons, includes_cons, IH. by destruct (Js.startsWith _ _).
Qed.

Lemma replace_from_eq (before s p template : string) :
  Js.replace_from before s p template
  = if Js.startsWith s p then
      Some (Js.getSubstitution p before (Js.drop (String.length p) s) template
            +:+ Js.drop (String.length p) s)
    else
      match s with
      | EmptyString => None
      | String c s' =>
          String c <$> Js.replace_from (before +:+ String c EmptyString) s' p template
      end.
Proof. by destruct s. Qed.

Lemma replace_from_absent (before s p template : string) :
  Js.includes s p = false → Js.replace_from before s p template = None.
Proof.
  revert before. induction s as [|c s IH]; intros before Hnone.
  - rewrite includes_empty in Hnone. by rewrite replace_from_eq, Hnone.
  - rewrite includes_cons in Hnone. apply orb_false_iff in Hnone as [Hhere Hlater].
    rewrite replace_from_eq, Hhere. by rewrite IH.
Qed.

(** A pattern that does not occur leaves the string alone. *)
Lemma replace_absent (s p template : string) :
  Js.includes s p = false → Js.replace s p template = s.
Proof. intros Hnone. unfold Js.replace. by rewrite replace_from_absent. Qed.

(** A pattern that occurs is replaced where it occurs first. *)
Lemma replace_from_present (before s p template : string) :
  Js.includes s p = true →
  ∃ front back,
    s = front +:+ p +:+ back
    ∧ (∀ k, k < String.length front → Js.startsWith (Js.drop k s) p = false)
    ∧ Js.replace_from before s p template
      = Some (front +:+ Js.getSubstitution p (before +:+ front) back template +:+ back).
Proof.
  revert before. induction s as [|c s IH]; intros before Hsome.
  - rewrite includes_empty in Hsome.
    exists EmptyString, (Js.drop (String.length p) EmptyString).
    split; [by apply startsWith_split|]. split; [simpl; lia|].
    rewrite replace_from_eq, Hsome. by rewrite app_empty_r.
  - destruct (Js.startsWith (String c s) p) eqn:Hhere.
    + exists EmptyString, (Js.drop (String.length p) (String c s)).
      split; [by apply startsWith_split|]. split; [simpl; lia|].
      rewrite replace_from_eq, Hhere. by rewrite app_empty_r.
    + rewrite includes_cons, Hhere in Hsome. simpl in Hsome.
      destruct (IH (before +:+ String c EmptyString) Hsome)
        as (front & back & Hs & Hfirst & Hrep).
      exists (String c front), back. split; [by rewrite app_cons, <- Hs|]. split.
      * intros [|k] Hk; [done|]. simpl in Hk. change (Js.drop (S k) (String c s))
          with (Js.drop k s). apply Hfirst. lia.
      * rewrite replace_from_eq, Hhere, Hrep. simpl.
        by rewrite app_assoc_str.
Qed.

Lemma getSubstitution_plain (matched before after template : string) :
  Js.existsb (λ c, bool_decide (c = "$"%char)) template = false →
  Js.getSubstitution matched before after template = template.
Proof.
  induction template as [|c t IH]; [done|]. simpl.
  intros Hno. apply orb_false_iff in Hno as [Hc Ht]. rewrite Hc. by rewrite IH.
Qed.

(** *** Decimal numerals and padding *)

Lemma uint_numeral (d : Decimal.uint) :
  Js.existsb (λ c, negb (numeralChar c)) (NilEmpty.string_of_uint d) = false.
Proof. induction d; simpl; done. Qed.

Lemma toString_numeral (n : Z) :
  Js.existsb (λ c, negb (numeralChar c)) (Js.toString n) = false.
Proof.
  unfold Js.toString, NilZero.string_of_int, NilZero.string_of_uint.
  destruct (Z.to_int n) as [d|d]; destruct d; simpl; try done; apply uint_numeral.
Qed.

Lemma toString_nonempty (n : Z) : Js.toString n ≠ EmptyString.
Proof.
  unfold Js.toString, NilZero.string_of_int, NilZero.string_of_uint.
  destruct (Z.to_int n) as [d|d]; destruct d; done.
Qed.

Lemma existsb_take (p : ascii → bool) (n : nat) (s : string) :
  Js.existsb p s = false → Js.existsb p (Js.take n s) = false.
Proof.
  revert s. induction n as [|n IH]; intros [|c s]; simpl; try done.
  intros Hs. apply orb_false_iff in Hs as [-> Hs]. by apply IH.
Qed.

Lemma existsb_repeat (p : ascii → bool) (s : string) (n : nat) :
  Js.existsb p s = false → Js.existsb p (Js.repeat s n) = false.
Proof.
  intros Hs. induction n as [|n IH]; [done|]. simpl.
  by rewrite existsb_app_str, Hs, IH.
Qed.

Lemma padded_numeral (n target : Z) :
  Js.existsb (λ c, negb (numeralChar c)) (Js.padStartFitting (Js.toString n) target "0")
  = false.
Proof.
  unfold Js.padStartFitting. destruct (target <=? _)%Z; [apply toString_numeral|].
  simpl. rewrite existsb_app_str, toString_numeral. unfold Js.filler.
  rewrite existsb_take; [done|]. by apply existsb_repeat.
Qed.

Lemma padded_has_no_dollar (n target : Z) :
  Js.existsb (λ c, bool_decide (c = "$"%char))
    (Js.padStartFitting (Js.toString n) target "0") = false.
Proof.
  eapply existsb_weaken; [|apply (padded_numeral n target)].
  intros c Hc. simpl in Hc. apply negb_false_iff in Hc.
  apply bool_decide_eq_false. intros ->. done.
Qed.

Lemma padded_nonempty (n target : Z) :
  Js.is_empty (Js.padStartFitting (Js.toString n) target "0") = false.
Proof.
  pose proof (toString_nonempty n) as Hne. unfold Js.padStartFitting.
  destruct (target <=? _)%Z; [by destruct (Js.toString n)|]. simpl.
  destruct (Js.filler "0" _); [by destruct (Js.toString n) | done].
Qed.

Lemma padStart_fits host (s : string) (target : Z) (fill : string) :
  (target ≤ maxStringLength host)%Z →
  padStart host s target fill = Normal (Js.padStartFitting s target fill).
Proof.
  intros Hfit. unfold padStart.
  replace (maxStringLength host <? target)%Z with false; [|symmetry; by apply Z.ltb_ge].
  by rewrite andb_false_r.
Qed.

Lemma padded_length (n target : Z) :
  String.length (Js.padStartFitting (Js.toString n) target "0")
  = String.length (Js.toString n) `max` Z.to_nat target.
Proof.
  unfold Js.padStartFitting, Js.length.
  destruct (target <=? _)%Z eqn:Hle.
  - apply Z.leb_le in Hle. lia.
  - apply Z.leb_gt in Hle. simpl. rewrite length_app_str. unfold Js.filler.
    assert (Hrep : ∀ k, String.length (Js.repeat "0" k) = k).
    { induction k as [|k IH]; [done|]. simpl. by rewrite length_app_str, IH. }
    assert (Htake : ∀ k s, k ≤ String.length s → String.length (Js.take k s) = k).
    { induction k as [|k IH]; intros [|c s] Hk; simpl in *; try done; try lia.
      rewrite IH; lia. }
    rewrite Htake by (rewrite Hrep; lia). lia.
Qed.

(** [padStart] throws exactly when it has to pad beyond the limit. *)
Lemma padStart_normal host (s : string) (target : Z) (fill : string) :
  (target ≤ maxStringLength host ∨ target ≤ Js.length s)%Z →
  padStart host s target fill = Normal (Js.padStartFitting s target fill).
Proof.
  intros [Hfit | Hlong]; [by apply padStart_fits|].
  unfold padStart.
  replace (Js.length s <? target)%Z with false; [done|]. symmetry. by apply Z.ltb_ge.
Qed.

Lemma padStart_throws host (s : string) (target : Z) :
  (maxStringLength host < target ∧ Js.length s < target)%Z →
  padStart host s target "0" = Throw (invalidStringLength host).
Proof.
  intros [Hmax Hlen]. unfold padStart.
  apply Z.ltb_lt in Hmax, Hlen. by rewrite Hmax, Hlen.
Qed.

(** X23.  For a name that the engine holds and a counter computed on safe
    integers, [applyNumbering] builds the formatted counter and places it
    as prefix, as suffix or instead of the name.  If the format holds no
    "[N]" the formatted counter is the format itself, the same for every
    file; otherwise it is the format with its first "[N]" replaced by the
    number, padded with zeros to the padding and never cut.  The operation
    returns the placed name when that is within the string limit, and
    throws the [RangeError] when it is not or when the padding itself is
    beyond the limit. *)
Theorem numbering_formats_the_counter host (name : string) (cfg : NumberingConfig.t)
    (index : nat) :
  fits host name = true →
  Js.isSafeInteger (NumberingConfig.startNumber cfg) = true →
  Js.isSafeInteger (NumberingConfig.step cfg) = true →
  Js.isSafeInteger (Z.of_nat index * NumberingConfig.step cfg) = true →
  Js.isSafeInteger (NumberingConfig.startNumber cfg
                    + Z.of_nat index * NumberingConfig.step cfg) = true →
  let num := (NumberingConfig.startNumber cfg
              + Z.of_nat index * NumberingConfig.step cfg)%Z in
  let padded := Js.padStartFitting (Js.toString num) (NumberingConfig.padding cfg) "0" in
  ∃ formatted,
    ((NumberingConfig.padding cfg ≤ maxStringLength host
      ∨ NumberingConfig.padding cfg ≤ Js.length (Js.toString num))%Z
     → applyNumbering host name cfg index
       = if fits host (place (NumberingConfig.position cfg) formatted
                         (NumberingConfig.separator cfg) name)
         then Normal (place (NumberingConfig.position cfg) formatted
                        (NumberingConfig.separator cfg) name)
         else Throw (invalidStringLength host))
    ∧ ((maxStringLength host < NumberingConfig.padding cfg
        ∧ Js.length (Js.toString num) < NumberingConfig.padding cfg)%Z
       → applyNumbering host name cfg index = Throw (invalidStringLength host))
    ∧ (Js.includes (NumberingConfig.format cfg) "[N]" = false
       → formatted = NumberingConfig.format cfg)
    ∧ (Js.includes (NumberingConfig.format cfg) "[N]" = true
       → ∃ front back,
           NumberingConfig.format cfg = front +:+ "[N]" +:+ back
           ∧ (∀ k, k < String.length front
                   → Js.startsWith (Js.drop k (NumberingConfig.format cfg)) "[N]" = false)
           ∧ formatted = front +:+ padded +:+ back)
    ∧ String.length padded
      = String.length (Js.toString num) `max` Z.to_nat (NumberingConfig.padding cfg).
Proof.
  intros Hname _ _ _ _ num padded.
  exists (Js.replace (NumberingConfig.format cfg) "[N]" padded).
  split; [|split; [|split; [|split]]].
  - intros Hpad. unfold applyNumbering. fold num.
    rewrite padStart_normal by done. simpl. fold padded. by apply built_checks.
  - intros Hpad. unfold applyNumbering. fold num. by rewrite padStart_throws.
  - apply replace_absent.
  - intros Hsome.
    destruct (replace_from_present EmptyString (NumberingConfig.format cfg) "[N]" padded
                Hsome) as (front & back & Hsplit & Hfirst & Hrep).
    exists front, back. split; [done|]. split; [done|].
    unfold Js.replace. rewrite Hrep. simpl.
    by rewrite getSubstitution_plain by apply padded_has_no_dollar.
  - apply padded_length.
Qed.

(** X24.  With [addCounter] set, for a name that the engine holds and a
    counter computed on safe integers, [applyPrefixSuffix] builds its text
    from the configured one: when that holds "[N]", the first "[N]" is
    replaced by the padded counter and nothing is appended; when it holds
    none, the text is the counter alone if it is empty, the text unchanged
    if it already contains the digits of the padded counter, and the text
    followed by the counter otherwise.  The text goes before the name for
    'prefix' and after it for 'suffix'; the operation returns that name
    when it is within the string limit, and throws the [RangeError] when it
    is not or when the padding itself is beyond the limit. *)
Theorem prefix_suffix_counter_text host (name : string) (cfg : PrefixSuffixConfig.t)
    (index : nat) :
  PrefixSuffixConfig.addCounter cfg = true →
  fits host name = true →
  Js.isSafeInteger (PrefixSuffixConfig.counterStart cfg) = true →
  Js.isSafeInteger (PrefixSuffixConfig.counterStep cfg) = true →
  Js.isSafeInteger (Z.of_nat index * PrefixSuffixConfig.counterStep cfg) = true →
  Js.isSafeInteger (PrefixSuffixConfig.counterStart cfg
                    + Z.of_nat index * PrefixSuffixConfig.counterStep cfg) = true →
  let num := (PrefixSuffixConfig.counterStart cfg
              + Z.of_nat index * PrefixSuffixConfig.counterStep cfg)%Z in
  let padded := Js.padStartFitting (Js.toString num)
                  (PrefixSuffixConfig.counterPadding cfg) "0" in
  let placed text := match PrefixSuffixConfig.position cfg with
                     | AffixPrefix => text +:+ name
                     | AffixSuffix => name +:+ text
                     end in
  ∃ text,
    ((PrefixSuffixConfig.counterPadding cfg ≤ maxStringLength host
      ∨ PrefixSuffixConfig.counterPadding cfg ≤ Js.length (Js.toString num))%Z
     → applyPrefixSuffix host name cfg index
       = if fits host (placed text) then Normal (placed text)
         else Throw (invalidStringLength host))
    ∧ ((maxStringLength host < PrefixSuffixConfig.counterPadding cfg
        ∧ Js.length (Js.toString num) < PrefixSuffixConfig.counterPadding cfg)%Z
       → applyPrefixSuffix host name cfg index = Throw (invalidStringLength host))
    ∧ (Js.includes (PrefixSuffixConfig.text cfg) "[N]" = true
       → ∃ front back,
           PrefixSuffixConfig.text cfg = front +:+ "[N]" +:+ back
           ∧ (∀ k, k < String.length front
                   → Js.startsWith (Js.drop k (PrefixSuffixConfig.text cfg)) "[N]" = false)
           ∧ text = front +:+ padded +:+ back)
    ∧ (Js.includes (PrefixSuffixConfig.text cfg) "[N]" = false
       → text = if Js.is_empty (PrefixSuffixConfig.text cfg) then padded
                else if Js.includes (PrefixSuffixConfig.text cfg) padded
                     then PrefixSuffixConfig.text cfg
                     else PrefixSuffixConfig.text cfg +:+ padded).
Proof.
  intros Hcounter Hname _ _ _ _ num padded placed.
  set (replaced := Js.replace (PrefixSuffixConfig.text cfg) "[N]" padded).
  set (text0 := if Js.is_empty replaced then padded else replaced).
  exists (if negb (Js.includes text0 padded) then text0 +:+ padded else text0).
  split; [|split; [|split]].
  - intros Hpad. unfold applyPrefixSuffix. rewrite Hcounter. fold num.
    rewrite padStart_normal by done. simpl. fold padded. fold replaced. fold text0.
    by apply built_checks.
  - intros Hpad. unfold applyPrefixSuffix. rewrite Hcounter. fold num.
    by rewrite padStart_throws.
  - intros Hsome.
    destruct (replace_from_present EmptyString (PrefixSuffixConfig.text cfg) "[N]" padded
                Hsome) as (front & back & Hsplit & Hfirst & Hrep).
    exists front, back. split; [done|]. split; [done|].
    assert (Hreplaced : replaced = front +:+ padded +:+ back).
    { unfold replaced, Js.replace. rewrite Hrep. simpl.
      by rewrite getSubstitution_plain by apply padded_has_no_dollar. }
    assert (Hne : Js.is_empty replaced = false).
    { rewrite Hreplaced. pose proof (padded_nonempty num
        (PrefixSuffixConfig.counterPadding cfg)) as Hp. fold padded in Hp.
      destruct front; [|done]. by destruct padded. }
    unfold text0. rewrite Hne, Hreplaced, includes_middle. done.
  - intros Hnone.
    assert (Hreplaced : replaced = PrefixSuffixConfig.text cfg)
      by (by apply replace_absent).
    unfold text0. rewrite Hreplaced.
    destruct (Js.is_empty (PrefixSuffixConfig.text cfg)) eqn:Hempty.
    + assert (Hself : Js.includes padded padded = true).
      { pose proof (includes_middle EmptyString padded EmptyString) as Hm.
        by rewrite app_empty_r in Hm. }
      by rewrite Hself.
    + by destruct (Js.includes (PrefixSuffixConfig.text cfg) padded).
Qed.

(** X25.  A date format that holds none of the tokens (no "YY", "MM",
    "DD", "HH", "mm", "ss") is inserted as it is written, whatever the
    date, so that every file receives the same text. *)
Theorem date_format_without_tokens (d : DateFields) (format : string) :
  Js.includes format "YY" = false →
  Js.includes format "MM" = false →
  Js.includes format "DD" = false →
  Js.includes format "HH" = false →
  Js.includes format "mm" = false →
  Js.includes format "ss" = false →
  formatDate d format = format.
Proof.
  intros HY HM HD HH Hm Hs.
  assert (HYYYY : Js.includes format "YYYY" = false).
  { clear -HY. induction format as [|c s IH]; [done|].
    rewrite includes_cons in *. apply orb_false_iff in HY as [Hhere Hlater].
    rewrite IH by done. rewrite orb_false_r.
    destruct (Js.startsWith (String c s) "YYYY") eqn:H4; [|done].
    apply startsWith_split in H4. rewrite H4 in Hhere.
    change ("YYYY" +:+ ?r) with ("YY" +:+ "YY" +:+ r) in Hhere.
    by rewrite startsWith_app in Hhere. }
  unfold formatDate, dateTokens. simpl.
  rewrite (replace_absent format "YYYY") by done.
  rewrite (replace_absent format "YY") by done.
  rewrite (replace_absent format "MM") by done.
  rewrite (replace_absent format "DD") by done.
  rewrite (replace_absent format "HH") by done.
  rewrite (replace_absent format "mm") by done.
  by rewrite (replace_absent format "ss").
Qed.

(** *** Escaping, literal replacement, cleaning *)

Lemma backslash_is_special : isRegexSpecial "\"%char = true.
Proof. reflexivity. Qed.

Lemma literalOf_escapeRegex (s : string) :
  ExampleHost.literalOf (escapeRegex s) = Some s.
Proof.
  induction s as [|c s IH]; [done|]. simpl.
  destruct (isRegexSpecial c) eqn:Hc.
  - simpl. rewrite Hc, IH. done.
  - simpl. rewrite Hc, IH.
    rewrite bool_decide_eq_false_2; [done|].
    intros ->. by rewrite backslash_is_special in Hc.
Qed.

(** X26.  [escapeRegex] puts a backslash before each of the characters
    that are special in a pattern and before nothing else: read back by
    undoing the escapes, the pattern is the text again.  Hence two
    different texts never get the same pattern, and the pattern is at most
    twice as long as the text. *)
Theorem escapeRegex_denotes_its_text (s : string) :
  ExampleHost.literalOf (escapeRegex s) = Some s
  ∧ (∀ s', escapeRegex s = escapeRegex s' → s = s')
  ∧ String.length s ≤ String.length (escapeRegex s) ≤ 2 * String.length s
  ∧ (Js.existsb isRegexSpecial s = false → escapeRegex s = s).
Proof.
  split; [apply literalOf_escapeRegex|]. split; [|split].
  - intros s' Heq.
    pose proof (literalOf_escapeRegex s) as H1.
    pose proof (literalOf_escapeRegex s') as H2.
    rewrite Heq in H1. congruence.
  - induction s as [|c s IH]; [simpl; lia|]. simpl.
    destruct (isRegexSpecial c); simpl; lia.
  - induction s as [|c s IH]; [done|]. simpl.
    destruct (isRegexSpecial c); simpl; [done|]. intros Hs. by rewrite IH.
Qed.

Lemma splitJoin_go_absent (s sep glue : string) :
  Js.includes s sep = false → Js.splitJoin_go 0 s sep glue = s.
Proof.
  induction s as [|c s IH]; [done|]. intros Hnone.
  rewrite includes_cons in Hnone. apply orb_false_iff in Hnone as [Hhere Hlater].
  simpl in *. rewrite Hhere. by rewrite IH.
Qed.

Lemma splitJoin_go_same (sep : string) :
  sep ≠ EmptyString →
  ∀ s skip, Js.splitJoin_go skip s sep sep = Js.drop skip s.
Proof.
  intros Hsep. induction s as [|c s IH]; intros skip; [by destruct skip|].
  destruct skip as [|k]; [|apply IH].
  change (Js.drop 0 (String c s)) with (String c s).
  unfold Js.splitJoin_go. fold Js.splitJoin_go.
  destruct (Js.startsWith (String c s) sep) eqn:Hhere; [|by rewrite IH].
  rewrite IH. apply startsWith_split in Hhere.
  destruct sep as [|a sep']; [done|]. simpl in *.
  rewrite Nat.sub_0_r. rewrite app_cons in *. congruence.
Qed.

(** X27.  In the literal, case-sensitive mode of find-replace a name in
    which the text does not occur is left as it is, with 'replace all' and
    without; and replacing every occurrence of a text by itself gives the
    name back. *)
Theorem literal_find_replace_fixpoints host (name : string) (cfg : FindReplaceConfig.t) :
  FindReplaceConfig.useRegex cfg = false →
  FindReplaceConfig.caseSensitive cfg = true →
  (Js.includes name (FindReplaceConfig.find cfg) = false
   → applyFindReplace host name cfg = Normal name)
  ∧ (FindReplaceConfig.replaceAll cfg = true
     → FindReplaceConfig.replace cfg = FindReplaceConfig.find cfg
     → applyFindReplace host name cfg = Normal name).
Proof.
  intros Hregex Hcase. unfold applyFindReplace. rewrite Hregex, Hcase.
  destruct (FindReplaceConfig.find cfg) as [|a find'] eqn:Hfind; [done|].
  simpl. split.
  - intros Hnone. destruct (FindReplaceConfig.replaceAll cfg).
    + unfold Js.splitJoin. simpl. by rewrite splitJoin_go_absent.
    + by rewrite replace_absent.
  - intros -> ->. unfold Js.splitJoin. simpl.
    by rewrite splitJoin_go_same.
Qed.

Lemma replaceEachSpace_go_no_space (before s sep : string) :
  Js.existsb (λ c, bool_decide (c = "$"%char)) sep = false →
  Js.existsb Js.is_space sep = false →
  Js.existsb Js.is_space (Js.replaceEachSpace_go before s sep) = false.
Proof.
  intros Hplain Hsep. revert before.
  induction s as [|c s IH]; intros before; [done|]. simpl.
  rewrite existsb_app_str, IH, orb_false_r.
  destruct (Js.is_space c) eqn:Hc.
  - by rewrite getSubstitution_plain.
  - simpl. by rewrite Hc.
Qed.

Lemma replaceEachSpace_go_untouched (before s sep : string) :
  Js.existsb Js.is_space s = false → Js.replaceEachSpace_go before s sep = s.
Proof.
  revert before. induction s as [|c s IH]; intros before; [done|]. simpl.
  intros Hs. apply orb_false_iff in Hs as [Hc Hs]. rewrite Hc.
  rewrite IH by done. done.
Qed.

(** X28.  When the trim operation replaces spaces by a text that holds
    neither white space nor "$", its result holds no white space at all,
    whatever the other options. *)
Theorem trim_with_separator_leaves_no_space (name : string) (cfg : TrimConfig.t) :
  TrimConfig.replaceSpacesWith cfg ≠ EmptyString →
  Js.existsb (λ c, bool_decide (c = "$"%char)) (TrimConfig.replaceSpacesWith cfg) = false →
  Js.existsb Js.is_space (TrimConfig.replaceSpacesWith cfg) = false →
  Js.existsb Js.is_space (applyTrim name cfg) = false.
Proof.
  intros Hne Hplain Hsep. unfold applyTrim.
  destruct (TrimConfig.replaceSpacesWith cfg) as [|a sep] eqn:Hs; [done|].
  cbn [Js.is_empty negb]. unfold Js.replaceEachSpace.
  by apply replaceEachSpace_go_no_space.
Qed.

Lemma applyOperation_keeps_extension host op f index name ext n e :
  type op ≠ TyExtension →
  applyOperation host op f index name ext = Normal (n, e) →
  e = ext.
Proof.
  unfold applyOperation, type.
  destruct (config op); intros Hty; try done;
    repeat match goal with
           | |- context [bindC ?c _] => destruct c; simpl
           end; congruence.
Qed.

Lemma validate_outName name ext : outName (validate name ext) = name +:+ ext.
Proof. unfold validate. by repeat case_match. Qed.

Lemma runOperations_keeps_extension host f index ops :
  Forall (λ op, enabled op = true → type op ≠ TyExtension) ops →
  ∀ name ext,
    outName (runOperations host f index ops name ext) = originalName f
    ∨ ∃ stem, outName (runOperations host f index ops name ext) = stem +:+ ext.
Proof.
  induction 1 as [|op rest Hop _ IH]; intros name ext; simpl.
  - right. exists name. apply validate_outName.
  - destruct (enabled op) eqn:Hen; simpl; [|apply IH].
    destruct (applyOperation host op f index name ext) as [[n e]|m] eqn:Happ;
      [|by left].
    apply applyOperation_keeps_extension in Happ as ->; [apply IH | by apply Hop].
Qed.

(** X29.  Unless an extension operation is enabled, the proposed name of
    a queued file ends with the extension the file came with: the other
    nine kinds of operation work on the base name only. *)
Theorem extension_kept_without_extension_operation
    host (f : FileItem) (ops : list Operation) (index : nat) :
  ingested f →
  Forall (λ op, enabled op = true → type op ≠ TyExtension) ops →
  ∃ stem, outName (processFileName host f ops index) = stem +:+ extension f.
Proof.
  intros Hf Hops. unfold processFileName.
  destruct (runOperations_keeps_extension host f index ops Hops
              (baseName (originalName f)) (extension f)) as [Horig|Hstem]; [|done].
  exists (baseName (originalName f)). rewrite Horig, Hf.
  symmetry. apply baseName_extensionOf.
Qed.

(** *** Case changes *)

Lemma upper_char_twice (c : ascii) : Js.upper_char (Js.upper_char c) = Js.upper_char c.
Proof. destruct c as [[] [] [] [] [] [] [] []]; reflexivity. Qed.

Lemma lower_char_twice (c : ascii) : Js.lower_char (Js.lower_char c) = Js.lower_char c.
Proof. destruct c as [[] [] [] [] [] [] [] []]; reflexivity. Qed.

Lemma lower_upper_char (c : ascii) : Js.lower_char (Js.upper_char c) = Js.lower_char c.
Proof. destruct c as [[] [] [] [] [] [] [] []]; reflexivity. Qed.

Lemma upper_lower_char (c : ascii) : Js.upper_char (Js.lower_char c) = Js.upper_char c.
Proof. destruct c as [[] [] [] [] [] [] [] []]; reflexivity. Qed.

Lemma map_map_str (f g : ascii → ascii) (s : string) :
  Js.map f (Js.map g s) = Js.map (λ c, f (g c)) s.
Proof. induction s as [|c s IH]; [done|]. simpl. by rewrite IH. Qed.

Lemma map_ext_str (f g : ascii → ascii) (s : string) :
  (∀ c, f c = g c) → Js.map f s = Js.map g s.
Proof. intros Hfg. induction s as [|c s IH]; [done|]. simpl. by rewrite Hfg, IH. Qed.

Lemma map_length_str (f : ascii → ascii) (s : string) :
  String.length (Js.map f s) = String.length s.
Proof. induction s as [|c s IH]; [done|]. simpl. by rewrite IH. Qed.

Lemma map_fixed_str (f : ascii → ascii) (p : ascii → bool) (s : string) :
  (∀ c, p c = false → f c = c) →
  Js.existsb p s = false → Js.map f s = s.
Proof.
  intros Hfix. induction s as [|c s IH]; [done|]. simpl.
  intros Hs. apply orb_false_iff in Hs as [Hc Hs]. by rewrite (Hfix c Hc), IH.
Qed.

Lemma replaceSpaceRuns_go_untouched (inRun : bool) (s sep : string) :
  Js.existsb Js.is_space s = false → Js.replaceSpaceRuns_go inRun s sep = s.
Proof.
  revert inRun. induction s as [|c s IH]; intros inRun; [done|]. simpl.
  intros Hs. apply orb_false_iff in Hs as [Hc Hs]. rewrite Hc. by rewrite IH.
Qed.

Lemma splitCaseBoundary_go_untouched (skip : bool) (s sep : string) :
  Js.existsb Js.is_upper s = false → Js.splitCaseBoundary_go skip s sep = s.
Proof.
  revert skip. induction s as [|c s IH]; intros skip; [done|]. simpl.
  intros Hs. apply orb_false_iff in Hs as [Hc Hs].
  destruct skip; [by rewrite IH|].
  destruct s as [|d s']; [done|].
  assert (Hd : Js.is_upper d = false).
  { simpl in Hs. by apply orb_false_iff in Hs as [Hd _]. }
  rewrite Hd, andb_false_r. by rewrite IH.
Qed.

Lemma snake_char_facts (c : ascii) :
  negb (snakeChar c) = false →
  Js.is_space c = false ∧ Js.is_upper c = false
  ∧ (if Js.is_word c then c else "_"%char) = c ∧ Js.lower_char c = c.
Proof. destruct c as [[] [] [] [] [] [] [] []]; vm_compute; intros; done. Qed.

Lemma kebab_char_facts (c : ascii) :
  negb (kebabChar c) = false →
  Js.is_space c = false ∧ Js.is_upper c = false
  ∧ (if Js.is_alnum c || bool_decide (c = "-"%char) then c else "-"%char) = c
  ∧ Js.lower_char c = c.
Proof. destruct c as [[] [] [] [] [] [] [] []]; vm_compute; intros; done. Qed.

Lemma snake_alphabet (name : string) :
  Js.existsb (λ c, negb (snakeChar c))
    (applyCaseChange name {| CaseChangeConfig.caseType := snake_case |}) = false.
Proof.
  unfold applyCaseChange. simpl. unfold Js.toLowerCase.
  rewrite !existsb_map. apply existsb_never. intros c. by rewrite snake_char_of_any.
Qed.

Lemma kebab_alphabet (name : string) :
  Js.existsb (λ c, negb (kebabChar c))
    (applyCaseChange name {| CaseChangeConfig.caseType := kebab_case |}) = false.
Proof.
  unfold applyCaseChange. simpl. unfold Js.toLowerCase.
  rewrite !existsb_map. apply existsb_never. intros c. by rewrite kebab_char_of_any.
Qed.

Lemma snake_fixed (s : string) :
  Js.existsb (λ c, negb (snakeChar c)) s = false →
  applyCaseChange s {| CaseChangeConfig.caseType := snake_case |} = s.
Proof.
  intros Hs. unfold applyCaseChange. simpl. unfold Js.replaceSpaceRuns, Js.splitCaseBoundary.
  rewrite replaceSpaceRuns_go_untouched
    by (eapply existsb_weaken; [|exact Hs]; intros c Hc; by apply snake_char_facts).
  rewrite splitCaseBoundary_go_untouched
    by (eapply existsb_weaken; [|exact Hs]; intros c Hc; by apply snake_char_facts).
  rewrite (map_fixed_str _ (λ c, negb (snakeChar c)))
    by (first [exact Hs | intros c Hc; by apply snake_char_facts]).
  unfold Js.toLowerCase. apply (map_fixed_str _ (λ c, negb (snakeChar c))); [|done].
  intros c Hc. by apply snake_char_facts.
Qed.

Lemma kebab_fixed (s : string) :
  Js.existsb (λ c, negb (kebabChar c)) s = false →
  applyCaseChange s {| CaseChangeConfig.caseType := kebab_case |} = s.
Proof.
  intros Hs. unfold applyCaseChange. simpl. unfold Js.replaceSpaceRuns, Js.splitCaseBoundary.
  rewrite replaceSpaceRuns_go_untouched
    by (eapply existsb_weaken; [|exact Hs]; intros c Hc; by apply kebab_char_facts).
  rewrite splitCaseBoundary_go_untouched
    by (eapply existsb_weaken; [|exact Hs]; intros c Hc; by apply kebab_char_facts).
  rewrite (map_fixed_str _ (λ c, negb (kebabChar c)))
    by (first [exact Hs | intros c Hc; by apply kebab_char_facts]).
  unfold Js.toLowerCase. apply (map_fixed_str _ (λ c, negb (kebabChar c))); [|done].
  intros c Hc. by apply kebab_char_facts.
Qed.

Lemma map_app_str (f : ascii → ascii) (s t : string) :
  Js.map f (s +:+ t) = Js.map f s +:+ Js.map f t.
Proof. induction s as [|c s IH]; [done|]. rewrite app_cons. simpl. by rewrite IH, app_cons. Qed.

Lemma toUpperCase_app (s t : string) :
  Js.toUpperCase (s +:+ t) = Js.toUpperCase s +:+ Js.toUpperCase t.
Proof.
  induction s as [|c s IH]; [done|]. rewrite app_cons. simpl.
  by rewrite IH, app_assoc_str.
Qed.

Lemma upper_is_upper (c : ascii) : Js.toUpperCase (Js.upper c) = Js.upper c.
Proof. destruct c as [[] [] [] [] [] [] [] []]; reflexivity. Qed.

Lemma upper_of_lower (c : ascii) : Js.upper (Js.lower_char c) = Js.upper c.
Proof. destruct c as [[] [] [] [] [] [] [] []]; reflexivity. Qed.

Lemma upper_unit (c : ascii) :
  Js.hasUpperUnit c = true → Js.upper c = String (Js.upper_char c) EmptyString.
Proof. destruct c as [[] [] [] [] [] [] [] []]; (reflexivity || discriminate). Qed.

Lemma toUpperCase_twice (s : string) :
  Js.toUpperCase (Js.toUpperCase s) = Js.toUpperCase s.
Proof.
  induction s as [|c s IH]; [done|]. simpl.
  by rewrite toUpperCase_app, upper_is_upper, IH.
Qed.

Lemma toUpperCase_of_lower (s : string) :
  Js.toUpperCase (Js.toLowerCase s) = Js.toUpperCase s.
Proof.
  induction s as [|c s IH]; [done|]. unfold Js.toLowerCase in *. simpl.
  by rewrite upper_of_lower, IH.
Qed.

Lemma toUpperCase_units (s : string) :
  Js.existsb (λ c, negb (Js.hasUpperUnit c)) s = false →
  Js.toUpperCase s = Js.map Js.upper_char s.
Proof.
  induction s as [|c s IH]; [done|]. simpl.
  intros Hs. apply orb_false_iff in Hs as [Hc Hs]. apply negb_false_iff in Hc.
  by rewrite (upper_unit c Hc), app_cons, IH.
Qed.

(** X30.  The case changes 'lowercase', 'snake_case' and 'kebab-case' are
    idempotent and 'lowercase' keeps the length of the name.  For a name
    without the micro sign and the y with diaeresis, 'uppercase' is
    idempotent and upper-casing a lower-cased name is upper-casing the
    name; if the name holds no sharp s either, lower-casing its upper case
    is lower-casing the name, and 'uppercase' keeps its length. *)
Theorem case_changes_are_idempotent (name : string) :
  let change t n := applyCaseChange n {| CaseChangeConfig.caseType := t |} in
  change lowercase (change lowercase name) = change lowercase name
  ∧ change snake_case (change snake_case name) = change snake_case name
  ∧ change kebab_case (change kebab_case name) = change kebab_case name
  ∧ String.length (change lowercase name) = String.length name
  ∧ (Js.existsb (λ c, negb (Js.hasUpper c)) name = false
     → change uppercase (change uppercase name) = change uppercase name
       ∧ change uppercase (change lowercase name) = change uppercase name)
  ∧ (Js.existsb (λ c, negb (Js.hasUpperUnit c)) name = false
     → change lowercase (change uppercase name) = change lowercase name
       ∧ String.length (change uppercase name) = String.length name).
Proof.
  intros change. unfold change.
  split; [|split; [|split; [|split; [|split]]]].
  - unfold applyCaseChange. simpl. unfold Js.toLowerCase.
    rewrite map_map_str. apply map_ext_str, lower_char_twice.
  - apply snake_fixed, snake_alphabet.
  - apply kebab_fixed, kebab_alphabet.
  - apply map_length_str.
  - intros _. unfold applyCaseChange. simpl. split.
    + apply toUpperCase_twice.
    + apply toUpperCase_of_lower.
  - intros Hunits. unfold applyCaseChange. simpl.
    rewrite (toUpperCase_units name Hunits). unfold Js.toLowerCase. split.
    + rewrite map_map_str. apply map_ext_str, lower_upper_char.
    + apply map_length_str.
Qed.

(** ** Instances of the further properties *)

(** An instance of X3: the third of three files under the default
    extension operation. *)
Lemma valid_entries_witness :
  ∃ r, evaluate (exampleHost 0) photoFiles [lowerExtensionOp] !! 2 = Some r
       ∧ isValid r = true
       ∧ errorMessage r = None
       ∧ hasInvalidChars (newName r) = false.
Proof.
  eexists. split; [vm_compute; reflexivity|]. split; [vm_compute; reflexivity|].
  pose proof (valid_entries_are_clean_and_unique (exampleHost 0) photoFiles
                [lowerExtensionOp] 2 _ ltac:(vm_compute; reflexivity)
                ltac:(vm_compute; reflexivity)) as (Hm & Hc & _).
  split; [exact Hm | exact Hc].
Defined.

(** An instance of X4: the first of the three files, a duplicate. *)
Lemma valid_iff_no_message_witness :
  ∃ r, evaluate (exampleHost 0) photoFiles [lowerExtensionOp] !! 0 = Some r
       ∧ (isValid r = true ↔ errorMessage r = None).
Proof.
  eexists. split; [vm_compute; reflexivity|].
  exact (valid_iff_no_message (exampleHost 0) photoFiles [lowerExtensionOp] 0 _
           ltac:(vm_compute; reflexivity)).
Defined.


(** An instance of X7: the same action, which stores the pipeline and
    throws. *)
Lemma mutation_discards_redo_witness :
  isMutation (ApplyPreset [prefixXOp]) = true
  ∧ 2 ≤ maxHistoryLength queuedState
  ∧ 1 ≤ length (history queuedState)
  ∧ perform (smallHost 3) (ApplyPreset [prefixXOp]) queuedState = Some raisedResult
  ∧ canRedo (stateOf raisedResult) = false.
Proof.
  split; [reflexivity|]. split; [vm_compute; lia|]. split; [vm_compute; lia|].
  split; [reflexivity|].
  exact (proj1 (mutation_discards_redo (smallHost 3) (ApplyPreset [prefixXOp])
                  queuedState raisedResult eq_refl ltac:(vm_compute; lia)
                  ltac:(vm_compute; lia) eq_refl)).
Defined.

(** An instance of X8: a state whose pipeline is the snapshot at index 1,
    undone at one reading of the clock and redone a day later. *)
Lemma undo_and_redo_witness :
  history syncedState !! historyIndex syncedState = Some (operations syncedState)
  ∧ 0 < historyIndex syncedState
  ∧ perform (exampleHost 0) Undo syncedState = Some undone
  ∧ perform (exampleHost 86400000) Redo (stateOf undone) = Some redone
  ∧ operations (stateOf redone) = operations syncedState.
Proof.
  assert (Hpos : 0 < historyIndex syncedState) by (vm_compute; lia).
  assert (Hundo : perform (exampleHost 0) Undo syncedState = Some undone)
    by (vm_compute; reflexivity).
  assert (Hredo : perform (exampleHost 86400000) Redo (stateOf undone) = Some redone)
    by (vm_compute; reflexivity).
  split; [reflexivity|]. split; [exact Hpos|]. split; [exact Hundo|].
  split; [exact Hredo|].
  exact (proj1 (undo_and_redo_are_inverse (exampleHost 0) (exampleHost 86400000)
                  syncedState undone redone eq_refl
                  (or_introl (conj Hpos (conj Hundo Hredo))))).
Defined.


(** An instance of X11: the same prefix operation under two identifiers. *)
Lemma identifiers_witness :
  sameButIds [prefixOp] [renamedPrefixOp]
  ∧ evaluate (exampleHost 0) photoFiles [prefixOp]
    = evaluate (exampleHost 0) photoFiles [renamedPrefixOp].
Proof.
  assert (Hs : sameButIds [prefixOp] [renamedPrefixOp]) by (repeat constructor).
  split; [exact Hs|].
  exact (identifiers_do_not_matter (exampleHost 0) photoFiles _ _ Hs).
Defined.

(** An instance of X13: one preset in the list, a fresh identifier. *)
Lemma delete_after_save_witness :
  (∀ p, p ∈ [lowercasePreset] → presetId p ≠ counterIds 0)
  ∧ deleteCustomPreset (counterIds 0)
      (saveCustomPreset counterIds "Mine" "My preset" None [prefixOp] [lowercasePreset])
    = [lowercasePreset].
Proof.
  assert (Hfresh : ∀ p, p ∈ [lowercasePreset] → presetId p ≠ counterIds 0).
  { intros p Hp. apply list_elem_of_singleton in Hp as ->. vm_compute. discriminate. }
  split; [exact Hfresh|].
  exact (proj1 (delete_after_save_restores_presets counterIds "Mine" "My preset" None
                  [prefixOp] [lowercasePreset] Hfresh)).
Defined.

(** An instance of X16: the first of three moved to the end. *)
Lemma reorder_witness :
  ∃ l', reorder ["a"; "b"; "c"] 0 2 = Some l'
        ∧ l' !! 2 = Some "a"
        ∧ reorder l' 2 0 = Some ["a"; "b"; "c"].
Proof.
  destruct (reorder_moves_and_reverts ["a"; "b"; "c"] 0 2 "a" eq_refl
              ltac:(vm_compute; lia)) as (l' & H1 & H2 & _ & _ & H5).
  exists l'. split; [exact H1|]. split; [exact H2 | exact H5].
Defined.

(** An instance of X17: two elements. *)
Lemma reorder_minus_one_witness :
  ["a"; "b"] ≠ [] ∧ reorder ["a"; "b"] (-1) 0 = reorder ["a"; "b"] 1 0.
Proof.
  assert (Hne : ["a"; "b"] ≠ ([] : list string)) by discriminate.
  split; [exact Hne|].
  exact (proj1 (reorder_minus_one_moves_last ["a"; "b"] 0 Hne)).
Defined.

(** An instance of X21: dashes and underscores removed. *)
Lemma removeChars_specific_witness :
  RemoveCharsConfig.mode dashesAndUnderscores = Specific
  ∧ String.length (applyRemoveChars (exampleHost 0) "my-file_1" dashesAndUnderscores)
    ≤ String.length "my-file_1".
Proof.
  split; [reflexivity|].
  exact (proj1 (proj2 (removeChars_specific_removes_all (exampleHost 0) "my-file_1"
                         dashesAndUnderscores eq_refl))).
Defined.

(** An instance of X23: the format 'Photo_[N]' at the second file. *)
Lemma numbering_witness :
  fits (exampleHost 0) "IMG_0042" = true
  ∧ Js.isSafeInteger (NumberingConfig.startNumber photoNumbering
                      + Z.of_nat 1 * NumberingConfig.step photoNumbering) = true
  ∧ ∃ formatted,
      applyNumbering (exampleHost 0) "IMG_0042" photoNumbering 1
      = if fits (exampleHost 0) (place InsertReplace formatted "_" "IMG_0042")
        then Normal (place InsertReplace formatted "_" "IMG_0042")
        else Throw "Invalid string length".
Proof.
  split; [reflexivity|]. split; [reflexivity|].
  destruct (numbering_formats_the_counter (exampleHost 0) "IMG_0042" photoNumbering 1
              eq_refl eq_refl eq_refl eq_refl eq_refl) as (formatted & Hrun & _).
  exists formatted. apply Hrun. left. vm_compute. discriminate.
Defined.

(** An instance of X24: the preset 'Episode Format' at the second file. *)
Lemma prefix_suffix_counter_witness :
  PrefixSuffixConfig.addCounter episodeConfig = true
  ∧ fits (exampleHost 0) "second" = true
  ∧ Js.isSafeInteger (PrefixSuffixConfig.counterStart episodeConfig
                      + Z.of_nat 1 * PrefixSuffixConfig.counterStep episodeConfig) = true
  ∧ ∃ text, applyPrefixSuffix (exampleHost 0) "second" episodeConfig 1
            = if fits (exampleHost 0) (text +:+ "second")
              then Normal (text +:+ "second") else Throw "Invalid string length".
Proof.
  split; [reflexivity|]. split; [reflexivity|]. split; [reflexivity|].
  destruct (prefix_suffix_counter_text (exampleHost 0) "second" episodeConfig 1
              eq_refl eq_refl eq_refl eq_refl eq_refl eq_refl) as (text & Hrun & _).
  exists text. apply Hrun. left. vm_compute. discriminate.
Defined.

(** An instance of X25: a format that is plain text. *)
Lemma date_format_witness :
  Js.includes "draft" "YY" = false
  ∧ formatDate (ExampleHost.utcFields 0) "draft" = "draft".
Proof.
  split; [reflexivity|].
  exact (date_format_without_tokens (ExampleHost.utcFields 0) "draft"
           eq_refl eq_refl eq_refl eq_refl eq_refl eq_refl).
Defined.

(** An instance of X27: a dash replaced by a dash. *)
Lemma literal_find_replace_witness :
  FindReplaceConfig.useRegex literalDash = false
  ∧ FindReplaceConfig.caseSensitive literalDash = true
  ∧ applyFindReplace (exampleHost 0) "a-b-c" literalDash = Normal "a-b-c".
Proof.
  split; [reflexivity|]. split; [reflexivity|].
  exact (proj2 (literal_find_replace_fixpoints (exampleHost 0) "a-b-c" literalDash
                  eq_refl eq_refl) eq_refl eq_refl).
Defined.

(** An instance of X28: spaces replaced by underscores. *)
Lemma trim_with_separator_witness :
  TrimConfig.replaceSpacesWith spacesToUnderscores ≠ EmptyString
  ∧ Js.existsb Js.is_space (applyTrim " my  holiday photo " spacesToUnderscores) = false.
Proof.
  assert (Hne : TrimConfig.replaceSpacesWith spacesToUnderscores ≠ EmptyString)
    by discriminate.
  split; [exact Hne|].
  exact (trim_with_separator_leaves_no_space " my  holiday photo " spacesToUnderscores
           Hne eq_refl eq_refl).
Defined.

(** An instance of X29: an upper-cased name keeps its extension. *)
Lemma extension_kept_witness :
  ingested photoEntry
  ∧ Forall (λ op, enabled op = true → type op ≠ TyExtension) [upperCaseOp]
  ∧ ∃ stem, outName (processFileName (exampleHost 0) photoEntry [upperCaseOp] 0)
            = stem +:+ extension photoEntry.
Proof.
  assert (Hin : ingested photoEntry) by reflexivity.
  assert (Hops : Forall (λ op, enabled op = true → type op ≠ TyExtension) [upperCaseOp]).
  { repeat constructor. discriminate. }
  split; [exact Hin|]. split; [exact Hops|].
  exact (extension_kept_without_extension_operation (exampleHost 0) photoEntry
           [upperCaseOp] 0 Hin Hops).
Defined.
